(** * LiveLyricist: the lyric line splitter ([src/services/splitter.ts])

    A shallow embedding of [splitLyrics] and of the ECMAScript string and
    regular-expression operations it is built from, followed by the
    properties of the splitter.

    - JavaScript strings are sequences of UTF-16 code units: [list Z].
    - The numbers the splitter compares ([limit * 1.3], [limit * 1.5], ...)
      are binary64 values; [JSNum] computes them with round-to-nearest-even.
    - The regular expressions of the source are terms of [regex], run by a
      backtracking matcher that follows the ECMAScript matching order.
    - [processSegment] and [trySplitAndReflow] are mutually recursive on
      segments that are not structural subterms: the embedding threads a
      recursion budget and an option result. *)

From Stdlib Require Import Ascii String List ZArith Lia Bool.
Import ListNotations.
Local Open Scope Z_scope.

(** ** Strings as UTF-16 code units *)

#[warning="-notation-for-abbreviation"]
Notation jsstring := (list Z) (only parsing).

(** The literal of an ASCII string. *)
Definition js (s : string) : jsstring :=
  map (fun a => Z.of_N (N_of_ascii a)) (list_ascii_of_string s).

(** JavaScript truthiness of a string: [if (s)]. *)
Definition truthy (s : jsstring) : bool :=
  match s with [] => false | _ :: _ => true end.

(** ** The binary64 numbers of the splitter *)

Module JSNum.

(** Every double that occurs in the splitter is an integer multiple of
    [2^-54] (the constants [0.4], [1.3], [1.4], [1.5], the integers and the
    rounded products and sums of these); a number is kept as that integer
    multiple.  The arithmetic is that of binary64 for a positive integer
    [limit] below [2^53], where every integer is a double; the exponent
    range (overflow, subnormal numbers) is not modelled. *)
Definition t := Z.

Definition unit : Z := 2 ^ 54.

(** [rne p q]: the rational [p / q] (in units of [2^-54]) rounded to 53
    significant bits, ties to even. *)
Definition rne (p q : Z) : t :=
  let x := p / q in
  let s := Z.max 0 (Z.log2 x + 1 - 53) in
  let d := q * 2 ^ s in
  let m := p / d in
  let r := p mod d in
  let m' := if (d <? 2 * r) || ((d =? 2 * r) && Z.odd m) then m + 1 else m in
  m' * 2 ^ s.

(** A decimal literal [num/den], as the parser rounds it. *)
Definition literal (num den : Z) : t := rne (num * unit) den.

(** An integer that is a double. *)
Definition of_int (n : Z) : t := n * unit.

Definition mul (a b : t) : t := rne (a * b) unit.
Definition add (a b : t) : t := rne (a + b) 1.
Definition max (a b : t) : t := Z.max a b.
Definition leb (a b : t) : bool := a <=? b.
Definition ltb (a b : t) : bool := a <? b.

End JSNum.

(** ** String operations of ECMAScript *)

(** [WhiteSpace] and [LineTerminator] code units: what [trim] strips and
    what [\s] matches. *)
Definition isWhiteSpace (c : Z) : bool :=
  (c =? 0x9) || (c =? 0xA) || (c =? 0xB) || (c =? 0xC) || (c =? 0xD)
  || (c =? 0x20) || (c =? 0xA0) || (c =? 0x1680)
  || ((0x2000 <=? c) && (c <=? 0x200A))
  || (c =? 0x2028) || (c =? 0x2029) || (c =? 0x202F) || (c =? 0x205F)
  || (c =? 0x3000) || (c =? 0xFEFF).

(** [\w]: ASCII letters, digits and underscore. *)
Definition isWordChar (c : Z) : bool :=
  ((0x41 <=? c) && (c <=? 0x5A)) || ((0x61 <=? c) && (c <=? 0x7A))
  || ((0x30 <=? c) && (c <=? 0x39)) || (c =? 0x5F).

Fixpoint trimStart (s : jsstring) : jsstring :=
  match s with
  | [] => []
  | c :: s' => if isWhiteSpace c then trimStart s' else s
  end.

Definition trimEnd (s : jsstring) : jsstring := rev (trimStart (rev s)).

Definition trim (s : jsstring) : jsstring := trimEnd (trimStart s).

Definition len (s : jsstring) : Z := Z.of_nat (length s).

(** [s.substring(start, end)]; [None] for an omitted [end]. *)
Definition substring (s : jsstring) (start : Z) (end_ : option Z) : jsstring :=
  let clamp x := Z.min (Z.max x 0) (len s) in
  let a := clamp start in
  let b := match end_ with Some e => clamp e | None => len s end in
  let from := Z.min a b in
  let to := Z.max a b in
  firstn (Z.to_nat (to - from)) (skipn (Z.to_nat from) s).

(** First index at or after [i] (the index of the head of [s]) holding [c]. *)
Fixpoint indexOf_from (c : Z) (s : jsstring) (i : Z) : Z :=
  match s with
  | [] => -1
  | x :: s' => if x =? c then i else indexOf_from c s' (i + 1)
  end.

(** [s.indexOf(c, from)] for a one-unit search string. *)
Definition indexOf (s : jsstring) (c : Z) (from : Z) : Z :=
  let start := Z.min (Z.max from 0) (len s) in
  indexOf_from c (skipn (Z.to_nat start) s) start.

Fixpoint lastIndexOf_upto (c : Z) (s : jsstring) (i : Z) (best : Z) : Z :=
  match s with
  | [] => best
  | x :: s' => lastIndexOf_upto c s' (i + 1) (if x =? c then i else best)
  end.

(** [s.lastIndexOf(c, from)] for a one-unit search string: the greatest
    index at most [from] holding [c]. *)
Definition lastIndexOf (s : jsstring) (c : Z) (from : Z) : Z :=
  lastIndexOf_upto c (firstn (Z.to_nat (Z.max from 0) + 1) s) 0 (-1).

(** ** Regular expressions *)

Module Regex.

(** The fragment of the pattern syntax the splitter uses. *)
Inductive regex : Type :=
| Empty                       (* the empty pattern *)
| Lit (c : Z)                 (* a pattern character *)
| Class (p : Z -> bool)       (* [...] or a class escape such as \s *)
| PlusClass (p : Z -> bool)   (* [...]+ , greedy *)
| Cat (r1 r2 : regex)
| Alt (r1 r2 : regex)         (* r1|r2 *)
| Opt (r : regex)             (* r? , greedy *)
| Group (r : regex)           (* ( r ), the capture group 1 *)
| Ahead (r : regex)           (* (?= r ) *)
| WordB                       (* \b *)
| EndInput.                   (* $ without the m flag *)

(** Matcher state: the unit before the match start, the units consumed
    since (most recent first), the rest of the input and capture 1. *)
Record mstate : Type := MState {
  ms_before : option Z;
  ms_seen : jsstring;
  ms_rest : jsstring;
  ms_cap : option jsstring
}.

Definition prevUnit (st : mstate) : option Z :=
  match ms_seen st with
  | c :: _ => Some c
  | [] => ms_before st
  end.

Definition nextUnit (st : mstate) : option Z :=
  match ms_rest st with
  | c :: _ => Some c
  | [] => None
  end.

Definition isWordAt (o : option Z) : bool :=
  match o with Some c => isWordChar c | None => false end.

(** [Canonicalize] without the u flag, on the ASCII range.  A unit of 128
    or more never canonicalizes to an ASCII unit, and every pattern
    character of the source's /i pattern is ASCII, so such units are left
    as they are. *)
Definition canonicalize (ignoreCase : bool) (c : Z) : Z :=
  if ignoreCase && (0x61 <=? c) && (c <=? 0x7A) then c - 0x20 else c.

Definition consume (ok : Z -> bool) (st : mstate) : option mstate :=
  match ms_rest st with
  | c :: rest =>
      if ok c
      then Some (MState (ms_before st) (c :: ms_seen st) rest (ms_cap st))
      else None
  | [] => None
  end.

(** Greedy repetition of a class after its first unit: the longest run is
    tried first, then shorter ones. *)
Fixpoint moreOf (p : Z -> bool) (before : option Z) (cap : option jsstring)
    (seen rest : jsstring) (k : mstate -> option mstate) : option mstate :=
  match rest with
  | c :: rest' =>
      if p c then
        match moreOf p before cap (c :: seen) rest' k with
        | Some r => Some r
        | None => k (MState before seen rest cap)
        end
      else k (MState before seen rest cap)
  | [] => k (MState before seen rest cap)
  end.

(** The backtracking matcher, in continuation-passing style: [k] is the
    rest of the pattern.  Alternatives are tried left to right and a greedy
    item first with, then without, its operand.  A class is matched as it
    is written: the one pattern of the source with the i flag has none. *)
Fixpoint run (ignoreCase : bool) (r : regex) (st : mstate)
    (k : mstate -> option mstate) : option mstate :=
  match r with
  | Empty => k st
  | Lit c =>
      match consume (fun x => canonicalize ignoreCase x =? canonicalize ignoreCase c) st with
      | Some st' => k st'
      | None => None
      end
  | Class p =>
      match consume p st with
      | Some st' => k st'
      | None => None
      end
  | PlusClass p =>
      match consume p st with
      | Some st' => moreOf p (ms_before st') (ms_cap st') (ms_seen st') (ms_rest st') k
      | None => None
      end
  | Cat r1 r2 => run ignoreCase r1 st (fun st1 => run ignoreCase r2 st1 k)
  | Alt r1 r2 =>
      match run ignoreCase r1 st k with
      | Some res => Some res
      | None => run ignoreCase r2 st k
      end
  | Opt r1 =>
      match run ignoreCase r1 st k with
      | Some res => Some res
      | None => k st
      end
  | Group r1 =>
      let n0 := length (ms_seen st) in
      run ignoreCase r1 st (fun st1 =>
        let seen := ms_seen st1 in
        k (MState (ms_before st1) seen (ms_rest st1)
             (Some (rev (firstn (length seen - n0) seen)))))
  | Ahead r1 =>
      match run ignoreCase r1 st Some with
      | Some st1 => k (MState (ms_before st) (ms_seen st) (ms_rest st) (ms_cap st1))
      | None => None
      end
  | WordB =>
      if xorb (isWordAt (prevUnit st)) (isWordAt (nextUnit st)) then k st else None
  | EndInput =>
      match ms_rest st with
      | [] => k st
      | _ :: _ => None
      end
  end.

Fixpoint hasGroup (r : regex) : bool :=
  match r with
  | Group _ => true
  | Cat r1 r2 | Alt r1 r2 => hasGroup r1 || hasGroup r2
  | Opt r1 | Ahead r1 => hasGroup r1
  | _ => false
  end.

(** One match attempt at a given position: [before] is the unit in front
    of the position, [s] the input from the position on. *)
Definition exec (ignoreCase : bool) (r : regex) (before : option Z)
    (s : jsstring) : option mstate :=
  run ignoreCase r (MState before [] s None) Some.

Definition matched (st : mstate) : jsstring := rev (ms_seen st).

(** [$1] in a replacement, and a captured element of a [split] result: an
    undefined capture reads as the empty string in both uses the source
    makes of it ([$1] and [parts[i + 1] || ""]). *)
Definition capture1 (st : mstate) : jsstring :=
  match ms_cap st with Some c => c | None => [] end.

(** [s.replace(/r/g, repl)]: the matches are found left to right, each
    search starting where the previous match ended (one unit further after
    an empty match). *)
Fixpoint replace_loop (fuel : nat) (ignoreCase : bool) (r : regex)
    (repl : mstate -> jsstring) (before : option Z) (s : jsstring) : jsstring :=
  match fuel with
  | O => s
  | S fuel' =>
      match exec ignoreCase r before s with
      | Some st =>
          match ms_seen st, s with
          | last :: _, _ => repl st ++ replace_loop fuel' ignoreCase r repl (Some last) (ms_rest st)
          | [], c :: s' => repl st ++ c :: replace_loop fuel' ignoreCase r repl (Some c) s'
          | [], [] => repl st
          end
      | None =>
          match s with
          | c :: s' => c :: replace_loop fuel' ignoreCase r repl (Some c) s'
          | [] => []
          end
      end
  end.

Definition replaceAll (ignoreCase : bool) (r : regex) (repl : mstate -> jsstring)
    (s : jsstring) : jsstring :=
  replace_loop (S (length s)) ignoreCase r repl None s.

(** The loop of [RegExp.prototype[@@split]]: [part] is [S[p..q)] (most
    recent unit first) and [s] is [S[q..)]. *)
Fixpoint split_loop (fuel : nat) (ignoreCase : bool) (r : regex)
    (before : option Z) (part : jsstring) (s : jsstring) : list jsstring :=
  match fuel with
  | O => [rev part ++ s]
  | S fuel' =>
      match s with
      | [] => [rev part]
      | c :: s' =>
          match exec ignoreCase r before s with
          | None => split_loop fuel' ignoreCase r (Some c) (c :: part) s'
          | Some st =>
              match ms_seen st, part with
              | [], [] => split_loop fuel' ignoreCase r (Some c) (c :: part) s'
              | _, _ =>
                  rev part
                  :: (if hasGroup r then [capture1 st] else [])
                  ++ split_loop fuel' ignoreCase r (prevUnit st) [] (ms_rest st)
              end
          end
      end
  end.

(** [s.split(/r/)] without a limit. *)
Definition split (ignoreCase : bool) (r : regex) (s : jsstring) : list jsstring :=
  match s with
  | [] => match exec ignoreCase r None [] with
          | Some _ => []
          | None => [[]]
          end
  | _ :: _ => split_loop (2 * length s + 1) ignoreCase r None [] s
  end.

(** A literal word, and an alternation of patterns. *)
Fixpoint word (s : jsstring) : regex :=
  match s with
  | [] => Empty
  | c :: s' => Cat (Lit c) (word s')
  end.

Fixpoint alts (r : regex) (rs : list regex) : regex :=
  match rs with
  | [] => r
  | r' :: rs' => Alt r (alts r' rs')
  end.

End Regex.
Import Regex.

(** ** The splitter *)

Module Splitter.

(** The option monad of the recursion budget: [None] is a run that used
    the budget up. *)
Definition bind {A B : Type} (m : option A) (f : A -> option B) : option B :=
  match m with
  | Some a => f a
  | None => None
  end.

#[local] Notation "x <- m ;; f" := (bind m (fun x => f))
  (at level 61, m at next level, right associativity).
#[local] Notation "' p <- m ;; f" := (bind m (fun x => match x with p => f end))
  (at level 61, p pattern, m at next level, right associativity).

(** *** The patterns of the source *)

(** [/\b(Mr|Mrs|Ms|Dr|Sr|Jr|St|Vs|Prof|Gen|Rep|Sen)\./gi] *)
Definition abbreviationRe : regex :=
  Cat WordB
    (Cat (Group (alts (word (js "Mr"))
                   (map word [js "Mrs"; js "Ms"; js "Dr"; js "Sr"; js "Jr";
                              js "St"; js "Vs"; js "Prof"; js "Gen"; js "Rep";
                              js "Sen"])))
         (Lit 0x2E)).

Definition isUpper (c : Z) : bool := (0x41 <=? c) && (c <=? 0x5A).

(** [/\b([A-Z])\./g] *)
Definition initialRe : regex :=
  Cat WordB (Cat (Group (Class isUpper)) (Lit 0x2E)).

(** [/\r?\n/] *)
Definition lineBreakRe : regex := Cat (Opt (Lit 0xD)) (Lit 0xA).

(** [/\u0000/g] *)
Definition sentinelRe : regex := Lit 0.

(** [[.!?！？]]: full stop, exclamation and question mark, with the
    full-width U+FF01 and U+FF1F. *)
Definition isMajor (c : Z) : bool :=
  (c =? 0x2E) || (c =? 0x21) || (c =? 0x3F) || (c =? 0xFF01) || (c =? 0xFF1F).

(** [[,，;；:：]]: with the full-width U+FF0C, U+FF1B and U+FF1A. *)
Definition isMinor (c : Z) : bool :=
  (c =? 0x2C) || (c =? 0xFF0C) || (c =? 0x3B) || (c =? 0xFF1B)
  || (c =? 0x3A) || (c =? 0xFF1A).

(** [[-–—]]: hyphen-minus, en dash U+2013 and em dash U+2014. *)
Definition isDash (c : Z) : bool :=
  (c =? 0x2D) || (c =? 0x2013) || (c =? 0x2014).

(** [(?=\s|$)] *)
Definition beforeSpaceOrEnd : regex := Ahead (Alt (Class isWhiteSpace) EndInput).

(** [/([.!?！？]+)(?=\s|$)/] *)
Definition majorRe : regex := Cat (Group (PlusClass isMajor)) beforeSpaceOrEnd.

(** [/([,，;；:：]|\s[-–—]+\s|\.\.\.)(?=\s|$)/] *)
Definition minorRe : regex :=
  Cat (Group (Alt (Class isMinor)
                (Alt (Cat (Class isWhiteSpace)
                        (Cat (PlusClass isDash) (Class isWhiteSpace)))
                     (Cat (Lit 0x2E) (Cat (Lit 0x2E) (Lit 0x2E))))))
      beforeSpaceOrEnd.

(** The replacement ['$1\u0000']. *)
Definition maskPeriod (st : mstate) : jsstring := capture1 st ++ [0].

(** The replacement ['.']. *)
Definition toPeriod (_ : mstate) : jsstring := [0x2E].

(** *** Thresholds *)

Definition c0_4 : JSNum.t := JSNum.literal 4 10.
Definition c1_3 : JSNum.t := JSNum.literal 13 10.
Definition c1_4 : JSNum.t := JSNum.literal 14 10.
Definition c1_5 : JSNum.t := JSNum.literal 15 10.

(** [limit * c] for an integer [limit]. *)
Definition scaled (limit : Z) (c : JSNum.t) : JSNum.t :=
  JSNum.mul (JSNum.of_int limit) c.

(** [Math.max(limit * 1.5, limit + 5)] *)
Definition maxLen (limit : Z) : JSNum.t :=
  JSNum.max (scaled limit c1_5) (JSNum.add (JSNum.of_int limit) (JSNum.of_int 5)).

(** *** [findBestSplitIndex] *)

Definition findBestSplitIndex (text : jsstring) (limit : Z) : Z :=
  let index := lastIndexOf text 0x20 limit in
  let nextSpace := indexOf text 0x20 limit in
  let nearby :=
    negb (nextSpace =? -1)
    && JSNum.leb (JSNum.of_int nextSpace) (scaled limit c1_4) in
  if JSNum.ltb (JSNum.of_int index) (scaled limit c0_4) && nearby then nextSpace
  else if index =? -1 then
    (if nearby then nextSpace else -1)
  else index.

(** *** [trySplitAndReflow] *)

(** The loop that pairs each content part with the separator after it. *)
Fixpoint atomsOf (parts : list jsstring) : list jsstring :=
  match parts with
  | [] => []
  | content :: rest =>
      let sep := match rest with s :: _ => s | [] => [] end in
      let combined := trim (content ++ sep) in
      (if truthy combined then [combined] else [])
      ++ match rest with
         | _ :: rest' => atomsOf rest'
         | [] => []
         end
  end.

(** The packing loop; the state is [currentLine] and the accumulator. *)
Fixpoint reflow (processSegment : jsstring -> Z -> list jsstring -> option (list jsstring))
    (atoms : list jsstring) (limit : Z) (currentLine : jsstring)
    (accumulator : list jsstring) : option (jsstring * list jsstring) :=
  match atoms with
  | [] => Some (currentLine, accumulator)
  | atom :: atoms' =>
      if truthy currentLine
         && JSNum.leb (JSNum.of_int (len currentLine + 1 + len atom)) (scaled limit c1_3)
      then
        reflow processSegment atoms' limit
          (currentLine ++ (if truthy currentLine then js " " else []) ++ atom)
          accumulator
      else
        let accumulator1 :=
          if truthy currentLine then accumulator ++ [currentLine] else accumulator in
        if JSNum.ltb (scaled limit c1_5) (JSNum.of_int (len atom)) then
          (accumulator2 <- processSegment atom limit accumulator1 ;;
           reflow processSegment atoms' limit [] accumulator2)
        else
          reflow processSegment atoms' limit atom accumulator1
  end.

Definition trySplitAndReflow
    (processSegment : jsstring -> Z -> list jsstring -> option (list jsstring))
    (text : jsstring) (separatorRegex : regex) (limit : Z)
    (accumulator : list jsstring) : option (bool * list jsstring) :=
  let parts := split false separatorRegex text in
  if (length parts <? 3)%nat then Some (false, accumulator)
  else
    let atoms := atomsOf parts in
    if (length atoms <? 2)%nat then Some (false, accumulator)
    else
      (' (currentLine, accumulator1) <- reflow processSegment atoms limit [] accumulator ;;
       Some (true,
             if truthy currentLine then accumulator1 ++ [currentLine] else accumulator1)).

(** *** [processSegment] *)

(** The body of [processSegment], with the recursive call as a parameter.
    The accumulator is the one array of the source, handed from step to
    step. *)
Definition processSegmentF
    (self : jsstring -> Z -> list jsstring -> option (list jsstring))
    (text : jsstring) (limit : Z) (accumulator : list jsstring)
    : option (list jsstring) :=
  if JSNum.leb (JSNum.of_int (len text)) (maxLen limit) then
    Some (accumulator ++ [text])
  else
    ' (done1, accumulator1) <- trySplitAndReflow self text majorRe limit accumulator ;;
    if done1 : bool then Some accumulator1
    else
      ' (done2, accumulator2) <- trySplitAndReflow self text minorRe limit accumulator1 ;;
      if done2 : bool then Some accumulator2
      else
        let splitIndex := findBestSplitIndex text limit in
        let splitIndex := if splitIndex =? -1 then limit else splitIndex in
        let head := trim (substring text 0 (Some splitIndex)) in
        let tail := trim (substring text splitIndex None) in
        let accumulator3 :=
          if truthy head then accumulator2 ++ [head] else accumulator2 in
        if truthy tail then self tail limit accumulator3 else Some accumulator3.

(** [processSegment] with a budget of nested calls. *)
Fixpoint processSegment (fuel : nat) (text : jsstring) (limit : Z)
    (accumulator : list jsstring) : option (list jsstring) :=
  match fuel with
  | O => None
  | S fuel' => processSegmentF (processSegment fuel') text limit accumulator
  end.

(** *** [splitLyrics] *)

Definition protect (raw : jsstring) : jsstring :=
  replaceAll false initialRe maskPeriod
    (replaceAll true abbreviationRe maskPeriod raw).

(** The [for (const paragraph of paragraphs)] loop.  A segment of [n]
    units needs at most [n] nested calls, see [processSegment_total] below. *)
Fixpoint eachParagraph (paragraphs : list jsstring) (targetLen : Z)
    (lines : list jsstring) : option (list jsstring) :=
  match paragraphs with
  | [] => Some lines
  | paragraph :: rest =>
      let trimmed := trim paragraph in
      if negb (truthy trimmed) then eachParagraph rest targetLen lines
      else
        lines1 <- processSegment (S (length trimmed)) trimmed targetLen lines ;;
        eachParagraph rest targetLen lines1
  end.

Definition splitLyrics (raw : jsstring) (targetLen : Z) : option (list jsstring) :=
  if negb (truthy raw) then Some []
  else
    let protectedRaw := protect raw in
    let paragraphs := split false lineBreakRe protectedRaw in
    lines <- eachParagraph paragraphs targetLen [] ;;
    Some (map (replaceAll false sentinelRe toPeriod) lines).

End Splitter.
Import Splitter.


(** ** Vocabulary of the properties *)

(** The units of a string that are not white space, in order. *)
Definition nonWhitespace (s : jsstring) : jsstring :=
  filter (fun c => negb (isWhiteSpace c)) s.

(** A line that is not empty and equals its own trim. *)
Definition tidy (s : jsstring) : Prop := s <> [] /\ trim s = s.

(** What restoring the periods does to one unit. *)
Definition unmask (c : Z) : Z := if c =? 0 then 0x2E else c.

(** A unit of the protected text against the unit of the raw text at the
    same index: the same, or a sentinel in place of a period. *)
Definition masks (x y : Z) : Prop := y = x \/ (x = 0x2E /\ y = 0).

Definition startsClean (s : jsstring) : bool :=
  match s with
  | c :: _ => negb (isWhiteSpace c)
  | [] => false
  end.

(** The length of a line against [Math.max(limit * 1.5, limit + 5)]. *)
Definition withinMaxLen (limit : Z) (line : jsstring) : Prop :=
  JSNum.leb (JSNum.of_int (len line)) (maxLen limit) = true.

(** A line as the splitter should emit it. *)
Definition lineOK (limit : Z) (line : jsstring) : Prop :=
  tidy line /\ withinMaxLen limit line.

(** [f] handles the segment [text]: whatever the accumulator holds, [f]
    returns it with lines appended that carry the text of the segment and
    are each tidy and within [maxLen]. *)
Definition handles (limit : Z)
    (f : jsstring -> Z -> list jsstring -> option (list jsstring))
    (text : jsstring) : Prop :=
  exists out,
    (forall acc, f text limit acc = Some (acc ++ out)) /\
    nonWhitespace (concat out) = nonWhitespace text /\
    Forall (lineOK limit) out.

(** A callee that refuses every segment that is not strictly shorter than
    [text]. *)
Definition onlyShorter (text : jsstring)
    (self : jsstring -> Z -> list jsstring -> option (list jsstring))
    : jsstring -> Z -> list jsstring -> option (list jsstring) :=
  fun t limit acc =>
    if (length t <? length text)%nat then self t limit acc else None.

(** A pattern whose capture group holds the whole match. *)
Definition wholeCapture (r : regex) : Prop :=
  hasGroup r = true /\
  forall before s st, exec false r before s = Some st -> capture1 st = matched st.

(** [s.startsWith(p)]. *)
Fixpoint startsWith (p s : jsstring) : bool :=
  match p, s with
  | [], _ => true
  | x :: p', y :: s' => (x =? y) && startsWith p' s'
  | _ :: _, [] => false
  end.

(** The input of the hyphen example, and whether its first word stays in
    one piece: the first line returned begins with the whole word. *)
Definition hyphenExample : jsstring := js "semi-detached house - built in 1990".

Definition wordKept (limit : Z) : bool :=
  match splitLyrics hyphenExample limit with
  | Some (first :: _) => startsWith (js "semi-detached") first
  | _ => false
  end.

(** A pattern that stays within a line: it cannot consume a line feed and
    does not look at what follows its match. *)
Fixpoint lineLocal (ic : bool) (r : regex) : bool :=
  match r with
  | Empty | WordB => true
  | Lit c => negb (canonicalize ic 0xA =? canonicalize ic c)
  | Class p | PlusClass p => negb (p 0xA)
  | Cat r1 r2 | Alt r1 r2 => lineLocal ic r1 && lineLocal ic r2
  | Opt r1 | Group r1 => lineLocal ic r1
  | Ahead _ | EndInput => false
  end.

(** What may follow a line: nothing, or a line feed and more text. *)
Definition lineEnd (t : jsstring) : Prop :=
  t = [] \/ exists b, t = 0xA :: b.

(** Two matcher states that differ only in the text [t] after the line and
    in the unit before the match start, which is a word character in both
    or in neither. *)
Definition sim (t : jsstring) (st st' : mstate) : Prop :=
  ms_seen st' = ms_seen st /\ ms_cap st' = ms_cap st /\
  ms_rest st' = ms_rest st ++ t /\
  isWordAt (ms_before st') = isWordAt (ms_before st).

Definition simr (t : jsstring) (o o' : option mstate) : Prop :=
  match o, o' with
  | Some st, Some st' => sim t st st'
  | None, None => True
  | _, _ => False
  end.

(** Where [/\r?\n/] matches at the start of [s]: the units consumed (most
    recent first) and the rest. *)
Definition lineBreakAt (s : jsstring) : option (jsstring * jsstring) :=
  match s with
  | c :: s' =>
      if c =? 0xD then
        match s' with
        | c2 :: s'' => if c2 =? 0xA then Some ([0xA; 0xD], s'') else None
        | [] => None
        end
      else if c =? 0xA then Some ([0xA], s')
      else None
  | [] => None
  end.

(** [extends st st']: [st'] is [st] after consuming some units. *)
Definition extends (st st' : mstate) : Prop :=
  ms_before st' = ms_before st /\
  exists m, ms_seen st' = rev m ++ ms_seen st /\ ms_rest st = m ++ ms_rest st'.

(** [f] only appends to the accumulator, and what it appends does not
    depend on what the accumulator holds. *)
Definition appendsOnly
    (f : jsstring -> Z -> list jsstring -> option (list jsstring))
    (limit : Z) : Prop :=
  forall text acc,
    f text limit acc
    = match f text limit [] with
      | Some out => Some (acc ++ out)
      | None => None
      end.

(** A text without white space. *)
Definition spaceless (s : jsstring) : Prop :=
  Forall (fun c => isWhiteSpace c = false) s.

(** The lines as one text, a line feed between each two. *)
Fixpoint joinLines (lines : list jsstring) : jsstring :=
  match lines with
  | [] => []
  | [line] => line
  | line :: rest => line ++ 0xA :: joinLines rest
  end.

(** The text holds a space at index [j]. *)
Definition spaceAt (text : jsstring) (j : Z) : Prop :=
  0 <= j /\ nth_error text (Z.to_nat j) = Some 0x20.

(** The words of a text: its maximal runs of units that are not white
    space, in order.  [cur] is the word being read, most recent unit
    first. *)
Fixpoint wordsFrom (cur : jsstring) (s : jsstring) : list jsstring :=
  match s with
  | [] => if truthy cur then [rev cur] else []
  | c :: s' =>
      if isWhiteSpace c
      then (if truthy cur then [rev cur] else []) ++ wordsFrom [] s'
      else wordsFrom (c :: cur) s'
  end.

Definition words (s : jsstring) : list jsstring := wordsFrom [] s.

(** The words of a sequence of lines, in order. *)
Definition linesWords (lines : list jsstring) : list jsstring :=
  concat (map words lines).

(** A text whose white space is made of spaces only. *)
Definition onlySpaces (s : jsstring) : Prop :=
  Forall (fun c => isWhiteSpace c = true -> c = 0x20) s.

(** A text whose white space is made of spaces and line feeds only. *)
Definition plainSpaced (s : jsstring) : Prop :=
  Forall (fun c => isWhiteSpace c = true -> c = 0x20 \/ c = 0xA) s.

(** No word of the text is longer than [limit]. *)
Definition wordsWithin (limit : Z) (s : jsstring) : Prop :=
  Forall (fun w => len w <= limit) (words s).

(** ** The editor, [src/components/Editor.tsx]

    The part of the editor around the splitter: the song being edited with
    its raw lyrics, its lines and its target length, the two buttons that
    change the target length, the Auto Split button and the highlight of
    the active line in the raw lyrics. *)

Module Editor.

(** [s.indexOf(p, from)] for a search string [p]: the first index at or
    after the clamped [from] at which [p] occurs, or -1. *)
Fixpoint indexOfString_from (p s : jsstring) (i : Z) {struct s} : Z :=
  if startsWith p s then i
  else
    match s with
    | [] => -1
    | _ :: s' => indexOfString_from p s' (i + 1)
    end.

Definition indexOfString (s p : jsstring) (from : Z) : Z :=
  let start := Z.min (Z.max from 0) (len s) in
  indexOfString_from p (skipn (Z.to_nat start) s) start.

(** The fields of [Song] that the editor hands to the splitter. *)
Record song : Type := Song {
  rawLyrics : jsstring;
  lines : list jsstring;
  targetLen : Z
}.

(** The state of the component: [localSong] and [activeLineIdx]. *)
Record editor : Type := EditorState {
  localSong : song;
  activeLineIdx : Z
}.

(** The song of [createNewSong] in [Library.tsx], as the editor first
    shows it. *)
Definition createNewSong : editor :=
  EditorState (Song [] [] 14) 0.

(** The [onChange] of the raw lyrics. *)
Definition setRawLyrics (value : jsstring) (e : editor) : editor :=
  EditorState (Song value (lines (localSong e)) (targetLen (localSong e)))
    (activeLineIdx e).

(** The [-] and [+] buttons of the line length. *)
Definition decreaseTargetLen (e : editor) : editor :=
  EditorState
    (Song (rawLyrics (localSong e)) (lines (localSong e))
       (Z.max 5 (targetLen (localSong e) - 1)))
    (activeLineIdx e).

Definition increaseTargetLen (e : editor) : editor :=
  EditorState
    (Song (rawLyrics (localSong e)) (lines (localSong e))
       (targetLen (localSong e) + 1))
    (activeLineIdx e).

(** [handleAutoSplit]; [confirm] is the answer to [window.confirm], which
    is asked only when there are lines already. *)
Definition handleAutoSplit (confirm : bool) (e : editor) : option editor :=
  if (0 <? Z.of_nat (length (lines (localSong e)))) && negb confirm then Some e
  else
    match splitLyrics (rawLyrics (localSong e)) (targetLen (localSong e)) with
    | Some newLines =>
        Some (EditorState
                (Song (rawLyrics (localSong e)) newLines (targetLen (localSong e)))
                0)
    | None => None
    end.

(** What the user does in the editor. *)
Inductive action : Type :=
| TypeLyrics (value : jsstring)
| Shorter
| Longer
| AutoSplit (confirm : bool).

Definition act (a : action) (e : editor) : option editor :=
  match a with
  | TypeLyrics value => Some (setRawLyrics value e)
  | Shorter => Some (decreaseTargetLen e)
  | Longer => Some (increaseTargetLen e)
  | AutoSplit confirm => handleAutoSplit confirm e
  end.

Fixpoint acts (l : list action) (e : editor) : option editor :=
  match l with
  | [] => Some e
  | a :: l' =>
      match act a e with
      | Some e1 => acts l' e1
      | None => None
      end
  end.

(** A segment of the raw lyrics, highlighted or not. *)
Record segment : Type := Segment {
  text : jsstring;
  highlight : bool
}.

(** The [for] loop of [highlightSegments]: [rest] holds the lines from
    index [i] on ([lines[i]] is undefined once it is empty) and the result
    is [(start, end)]. *)
Fixpoint highlightLoop (raw : jsstring) (rest : list jsstring)
    (i active searchCursor : Z) : Z * Z :=
  match rest with
  | [] => (-1, -1)
  | line :: rest' =>
      if active <? i then (-1, -1)
      else if negb (truthy line) then highlightLoop raw rest' (i + 1) active searchCursor
      else
        let idx := indexOfString raw line searchCursor in
        if negb (idx =? -1) then
          if i =? active then (idx, idx + len line)
          else highlightLoop raw rest' (i + 1) active (idx + len line)
        else highlightLoop raw rest' (i + 1) active searchCursor
  end.

(** [highlightSegments] for a loaded song. *)
Definition highlightSegments (e : editor) : list segment :=
  let raw := rawLyrics (localSong e) in
  let '(start, end_) :=
    highlightLoop raw (lines (localSong e)) 0 (activeLineIdx e) 0 in
  if negb (start =? -1) && negb (end_ =? -1) then
    [Segment (substring raw 0 (Some start)) false;
     Segment (substring raw start (Some end_)) true;
     Segment (substring raw end_ None) false]
  else [Segment raw false].

End Editor.

(** ** Trimming *)

Lemma trimStart_split (s : jsstring) :
  exists ws, s = ws ++ trimStart s /\ forallb isWhiteSpace ws = true.
Proof.
  induction s as [|c s IH]; simpl.
  - exists []. split; reflexivity.
  - destruct (isWhiteSpace c) eqn:Hc.
    + destruct IH as [ws [E F]]. exists (c :: ws). simpl.
      rewrite Hc, F. split; [f_equal; exact E | reflexivity].
    + exists []. split; reflexivity.
Qed.

Lemma nonWhitespace_app (a b : jsstring) :
  nonWhitespace (a ++ b) = nonWhitespace a ++ nonWhitespace b.
Proof. apply filter_app. Qed.

Lemma nonWhitespace_ws (ws : jsstring) :
  forallb isWhiteSpace ws = true -> nonWhitespace ws = [].
Proof.
  induction ws as [|c ws IH]; simpl; intros H; [reflexivity|].
  apply andb_true_iff in H. destruct H as [Hc H].
  rewrite Hc. simpl. auto.
Qed.

Lemma nonWhitespace_nil_ws (s : jsstring) :
  nonWhitespace s = [] -> forallb isWhiteSpace s = true.
Proof.
  induction s as [|c s IH]; simpl; intros H; [reflexivity|].
  destruct (isWhiteSpace c); simpl in *; [auto | discriminate].
Qed.

Lemma nonWhitespace_trimStart (s : jsstring) :
  nonWhitespace (trimStart s) = nonWhitespace s.
Proof.
  destruct (trimStart_split s) as [ws [E F]].
  rewrite E at 2. rewrite nonWhitespace_app, (nonWhitespace_ws _ F). reflexivity.
Qed.

Lemma nonWhitespace_rev (s : jsstring) :
  nonWhitespace (rev s) = rev (nonWhitespace s).
Proof. apply filter_rev. Qed.

Lemma nonWhitespace_trimEnd (s : jsstring) :
  nonWhitespace (trimEnd s) = nonWhitespace s.
Proof.
  unfold trimEnd.
  rewrite nonWhitespace_rev, nonWhitespace_trimStart, nonWhitespace_rev.
  apply rev_involutive.
Qed.

Lemma nonWhitespace_trim (s : jsstring) :
  nonWhitespace (trim s) = nonWhitespace s.
Proof.
  unfold trim. rewrite nonWhitespace_trimEnd. apply nonWhitespace_trimStart.
Qed.

Lemma length_trimStart (s : jsstring) : (length (trimStart s) <= length s)%nat.
Proof.
  destruct (trimStart_split s) as [ws [E _]].
  rewrite E at 2. rewrite length_app. lia.
Qed.

Lemma length_trimEnd (s : jsstring) : (length (trimEnd s) <= length s)%nat.
Proof.
  unfold trimEnd. rewrite length_rev.
  pose proof (length_trimStart (rev s)) as H. rewrite length_rev in H. exact H.
Qed.

Lemma length_trim (s : jsstring) : (length (trim s) <= length s)%nat.
Proof.
  unfold trim.
  pose proof (length_trimEnd (trimStart s)). pose proof (length_trimStart s). lia.
Qed.

Lemma trimStart_clean (s : jsstring) :
  trimStart s <> [] -> startsClean (trimStart s) = true.
Proof.
  induction s as [|c s IH]; simpl; intros H; [contradiction|].
  destruct (isWhiteSpace c) eqn:Hc; [auto | simpl; rewrite Hc; reflexivity].
Qed.

Lemma trimStart_id (s : jsstring) : startsClean s = true -> trimStart s = s.
Proof.
  destruct s as [|c s]; simpl; intros H; [discriminate|].
  apply negb_true_iff in H. rewrite H. reflexivity.
Qed.

Lemma trimStart_snoc (s : jsstring) (c : Z) :
  isWhiteSpace c = false -> trimStart (s ++ [c]) = trimStart s ++ [c].
Proof.
  intros Hc. induction s as [|x s IH]; simpl.
  - rewrite Hc. reflexivity.
  - destruct (isWhiteSpace x); [exact IH | reflexivity].
Qed.

Lemma trimEnd_cons (c : Z) (s : jsstring) :
  isWhiteSpace c = false -> trimEnd (c :: s) = c :: trimEnd s.
Proof.
  intros Hc. unfold trimEnd. simpl.
  rewrite (trimStart_snoc _ _ Hc), rev_app_distr. reflexivity.
Qed.

Lemma tidy_iff (s : jsstring) :
  tidy s <-> startsClean s = true /\ startsClean (rev s) = true.
Proof.
  unfold tidy, trim. split.
  - intros [Hne E].
    assert (Hs : trimStart s <> []).
    { intros H0. rewrite H0 in E. unfold trimEnd in E. simpl in E. congruence. }
    pose proof (trimStart_clean s Hs) as Hc.
    assert (Ets : trimStart s = s).
    { destruct s as [|c s]; [contradiction|]. simpl in *.
      destruct (isWhiteSpace c) eqn:Hw; [|reflexivity].
      exfalso.
      pose proof (length_trimEnd (trimStart s)) as L1.
      pose proof (length_trimStart s) as L2.
      rewrite E in L1. simpl in L1. lia. }
    rewrite Ets in *. split; [exact Hc|].
    unfold trimEnd in E.
    assert (Hr : trimStart (rev s) = rev s).
    { rewrite <- (rev_involutive (trimStart (rev s))), E. reflexivity. }
    rewrite <- Hr. apply trimStart_clean.
    rewrite Hr. intros H0. apply Hne.
    rewrite <- (rev_involutive s), H0. reflexivity.
  - intros [H1 H2]. split.
    + destruct s; [discriminate | discriminate].
    + rewrite (trimStart_id _ H1). unfold trimEnd.
      rewrite (trimStart_id _ H2). apply rev_involutive.
Qed.

Lemma trim_tidy (s : jsstring) : truthy (trim s) = true -> tidy (trim s).
Proof.
  intros Ht. apply tidy_iff. unfold trim in *.
  assert (Hs : trimStart s <> []).
  { intros H0. rewrite H0 in Ht. discriminate. }
  pose proof (trimStart_clean s Hs) as Hc.
  destruct (trimStart s) as [|c t] eqn:E; [contradiction|].
  simpl in Hc. apply negb_true_iff in Hc.
  rewrite (trimEnd_cons _ _ Hc). split.
  - simpl. rewrite Hc. reflexivity.
  - rewrite <- (trimEnd_cons _ _ Hc). unfold trimEnd. rewrite rev_involutive.
    apply trimStart_clean. intros H0.
    unfold trimEnd in Ht. rewrite H0 in Ht. discriminate.
Qed.

Lemma startsClean_app (a b : jsstring) :
  startsClean a = true -> startsClean (a ++ b) = true.
Proof. destruct a; simpl; [discriminate | auto]. Qed.

Lemma tidy_join (a sep b : jsstring) : tidy a -> tidy b -> tidy (a ++ sep ++ b).
Proof.
  intros Ha Hb. apply tidy_iff in Ha, Hb. apply tidy_iff.
  destruct Ha as [Ha1 Ha2], Hb as [Hb1 Hb2]. split.
  - apply startsClean_app. exact Ha1.
  - rewrite !rev_app_distr, <- app_assoc. apply startsClean_app. exact Hb2.
Qed.

Lemma isWhiteSpace_unmask (c : Z) : isWhiteSpace (unmask c) = isWhiteSpace c.
Proof.
  unfold unmask. destruct (c =? 0) eqn:E; [|reflexivity].
  apply Z.eqb_eq in E. subst c. reflexivity.
Qed.

Lemma startsClean_map_unmask (s : jsstring) :
  startsClean (map unmask s) = startsClean s.
Proof. destruct s; simpl; [reflexivity | rewrite isWhiteSpace_unmask; reflexivity]. Qed.

Lemma tidy_map_unmask (s : jsstring) : tidy s -> tidy (map unmask s).
Proof.
  intros H. apply tidy_iff in H. apply tidy_iff.
  rewrite <- map_rev, !startsClean_map_unmask. exact H.
Qed.

Lemma nonWhitespace_map_unmask (s : jsstring) :
  nonWhitespace (map unmask s) = map unmask (nonWhitespace s).
Proof.
  induction s as [|c s IH]; simpl; [reflexivity|].
  rewrite isWhiteSpace_unmask. destruct (isWhiteSpace c); simpl; [exact IH | f_equal; exact IH].
Qed.

(** ** The matcher *)

Lemma extends_refl (st : mstate) : extends st st.
Proof. split; [reflexivity | exists []; split; reflexivity]. Qed.

Lemma extends_trans (a b c : mstate) : extends a b -> extends b c -> extends a c.
Proof.
  intros [Hb1 [m1 [Hs1 Hr1]]] [Hb2 [m2 [Hs2 Hr2]]]. split; [congruence|].
  exists (m1 ++ m2). split.
  - rewrite Hs2, Hs1, rev_app_distr, app_assoc. reflexivity.
  - rewrite Hr1, Hr2, app_assoc. reflexivity.
Qed.

Lemma consume_extends (ok : Z -> bool) (st st' : mstate) :
  consume ok st = Some st' ->
  extends st st' /\ ms_cap st' = ms_cap st /\
  exists c, ok c = true /\ ms_seen st' = c :: ms_seen st.
Proof.
  unfold consume. destruct (ms_rest st) as [|c rest] eqn:E; [discriminate|].
  destruct (ok c) eqn:Hc; [|discriminate].
  intros H. injection H as <-. simpl. repeat split.
  - exists [c]. simpl. split; [reflexivity | exact E].
  - exists c. split; [exact Hc | reflexivity].
Qed.

Lemma moreOf_extends (p : Z -> bool) (before : option Z) (cap : option jsstring)
    (rest seen : jsstring) (k : mstate -> option mstate) (res : mstate) :
  moreOf p before cap seen rest k = Some res ->
  exists m rest', rest = m ++ rest' /\
    k (MState before (rev m ++ seen) rest' cap) = Some res.
Proof.
  revert seen. induction rest as [|c rest IH]; intros seen; simpl.
  - intros H. exists [], []. split; [reflexivity | exact H].
  - destruct (p c).
    + destruct (moreOf p before cap (c :: seen) rest k) as [res0|] eqn:E.
      * intros H. injection H as <-.
        destruct (IH _ E) as [m [rest' [E1 E2]]].
        exists (c :: m), rest'. split; [simpl; f_equal; exact E1|].
        simpl. rewrite <- app_assoc. exact E2.
      * intros H. exists [], (c :: rest). split; [reflexivity | exact H].
    + intros H. exists [], (c :: rest). split; [reflexivity | exact H].
Qed.

(** A successful run reaches its continuation in a state that extends the
    start; a pattern without a group leaves the capture as it was. *)
Lemma run_extends (ic : bool) (r : regex) :
  forall st k res, run ic r st k = Some res ->
  exists st', extends st st' /\ k st' = Some res /\
    (hasGroup r = false -> ms_cap st' = ms_cap st).
Proof.
  induction r as [ |c|p|p|r1 IH1 r2 IH2|r1 IH1 r2 IH2|r1 IH1|r1 IH1|r1 IH1| | ];
    intros st k res H; simpl in H.
  - exists st. split; [apply extends_refl | split; [exact H | reflexivity]].
  - destruct (consume _ st) as [st'|] eqn:E; [|discriminate].
    destruct (consume_extends _ _ _ E) as [Hx [Hc _]].
    exists st'. split; [exact Hx | split; [exact H | intros _; exact Hc]].
  - destruct (consume p st) as [st'|] eqn:E; [|discriminate].
    destruct (consume_extends _ _ _ E) as [Hx [Hc _]].
    exists st'. split; [exact Hx | split; [exact H | intros _; exact Hc]].
  - destruct (consume p st) as [st'|] eqn:E; [|discriminate].
    destruct (consume_extends _ _ _ E) as [Hx [Hc _]].
    destruct (moreOf_extends _ _ _ _ _ _ _ H) as [m [rest' [E1 E2]]].
    eexists. split; [|split; [exact E2 | intros _; exact Hc]].
    eapply extends_trans; [exact Hx|].
    split; [reflexivity | exists m; split; [reflexivity | exact E1]].
  - destruct (IH1 _ _ _ H) as [st1 [X1 [K1 C1]]].
    destruct (IH2 _ _ _ K1) as [st2 [X2 [K2 C2]]].
    exists st2. split; [eapply extends_trans; eassumption|].
    split; [exact K2|]. simpl. intros G. apply orb_false_iff in G.
    destruct G as [G1 G2]. rewrite (C2 G2). apply C1. exact G1.
  - simpl. destruct (run ic r1 st k) eqn:E.
    + injection H as <-. destruct (IH1 _ _ _ E) as [st1 [X1 [K1 C1]]].
      exists st1. split; [exact X1 | split; [exact K1|]].
      intros G. apply orb_false_iff in G. apply C1, G.
    + destruct (IH2 _ _ _ H) as [st2 [X2 [K2 C2]]].
      exists st2. split; [exact X2 | split; [exact K2|]].
      intros G. apply orb_false_iff in G. apply C2, G.
  - simpl. destruct (run ic r1 st k) eqn:E.
    + injection H as <-. destruct (IH1 _ _ _ E) as [st1 [X1 [K1 C1]]].
      exists st1. split; [exact X1 | split; [exact K1 | exact C1]].
    + exists st. split; [apply extends_refl | split; [exact H | reflexivity]].
  - destruct (IH1 _ _ _ H) as [st1 [X1 [K1 _]]].
    eexists. split; [|split; [exact K1 | simpl; discriminate]].
    destruct X1 as [B [m [Hs Hr]]]. split; [exact B|].
    exists m. split; [exact Hs | exact Hr].
  - destruct (run ic r1 st Some) as [st1|] eqn:E; [|discriminate].
    destruct (IH1 _ _ _ E) as [st1' [X1 [K1 C1]]]. injection K1 as ->.
    eexists. split; [|split; [exact H | simpl; exact C1]].
    split; [reflexivity | exists []; split; reflexivity].
  - destruct (xorb _ _); [|discriminate].
    exists st. split; [apply extends_refl | split; [exact H | reflexivity]].
  - destruct (ms_rest st); [|discriminate].
    exists st. split; [apply extends_refl | split; [exact H | reflexivity]].
Qed.

(** What a successful match attempt returns: the input is the matched text
    followed by the rest. *)
Lemma exec_spec (ic : bool) (r : regex) (before : option Z) (s : jsstring)
    (st : mstate) :
  exec ic r before s = Some st ->
  ms_before st = before /\ s = matched st ++ ms_rest st.
Proof.
  unfold exec. intros H.
  destruct (run_extends _ _ _ _ _ H) as [st' [[B [m [Hs Hr]]] [K _]]].
  injection K as ->. simpl in *. split; [exact B|].
  unfold matched. rewrite Hs, app_nil_r, rev_involutive. exact Hr.
Qed.

Lemma matched_rest_shorter (ic : bool) (r : regex) (before : option Z)
    (s : jsstring) (st : mstate) :
  exec ic r before s = Some st -> ms_seen st <> [] ->
  (length (ms_rest st) < length s)%nat.
Proof.
  intros E Hne. destruct (exec_spec _ _ _ _ _ E) as [_ Hs].
  pose proof (f_equal (@length Z) Hs) as HL.
  unfold matched in HL. rewrite length_app, length_rev in HL.
  destruct (ms_seen st); [contradiction | simpl in HL; lia].
Qed.

(** A pattern [(g)(?=a)] captures the whole match. *)
Lemma exec_group_ahead (ic : bool) (g a : regex) (before : option Z)
    (s : jsstring) (st : mstate) :
  hasGroup a = false ->
  exec ic (Cat (Group g) (Ahead a)) before s = Some st ->
  capture1 st = matched st.
Proof.
  unfold exec. simpl. intros Ha H.
  destruct (run_extends _ _ _ _ _ H) as [st1 [[B [m [Hs Hr]]] [K _]]].
  simpl in *.
  destruct (run ic a _ Some) as [st2|] eqn:E; [|discriminate].
  injection K as <-.
  destruct (run_extends _ _ _ _ _ E) as [st2' [_ [K2 C2]]].
  injection K2 as ->. specialize (C2 Ha). simpl in C2.
  unfold capture1, matched. simpl. rewrite C2.
  rewrite Nat.sub_0_r, firstn_all. reflexivity.
Qed.

(** A pattern [\b(g)c] matches its capture followed by the unit [c], when
    no other unit canonicalizes to [c]. *)
Lemma exec_boundary_group_lit (ic : bool) (g : regex) (c : Z) (before : option Z)
    (s : jsstring) (st : mstate) :
  (forall x, canonicalize ic x = canonicalize ic c -> x = c) ->
  exec ic (Cat WordB (Cat (Group g) (Lit c))) before s = Some st ->
  matched st = capture1 st ++ [c].
Proof.
  unfold exec. simpl. intros Hcan H.
  destruct (xorb _ _); [|discriminate].
  destruct (run_extends _ _ _ _ _ H) as [st1 [[B [m [Hs Hr]]] [K _]]].
  simpl in *.
  destruct (consume _ _) as [st2|] eqn:E; [|discriminate].
  injection K as ->.
  destruct (consume_extends _ _ _ E) as [_ [Hc [x [Hx Hsx]]]].
  simpl in *. apply Z.eqb_eq in Hx. apply Hcan in Hx. subst x.
  unfold matched, capture1. rewrite Hc, Hsx. simpl.
  rewrite Nat.sub_0_r, firstn_all. reflexivity.
Qed.

(** ** [replace] and [split] *)

Section ReplaceLoop.

Variable rel : Z -> Z -> Prop.
Variables (ic : bool) (r : regex) (repl : mstate -> jsstring).

Hypothesis rel_match : forall before s st,
  exec ic r before s = Some st -> Forall2 rel (matched st) (repl st).
Hypothesis rel_copy : forall before c s,
  match exec ic r before (c :: s) with
  | Some st => ms_seen st = [] -> rel c c
  | None => rel c c
  end.

(** The result of a global replace is unit by unit related to the input,
    when every replacement is so related to its match.  The loop never
    runs out of its budget. *)
Lemma replace_loop_rel (fuel : nat) :
  forall before s, (length s < fuel)%nat ->
  Forall2 rel s (replace_loop fuel ic r repl before s).
Proof.
  induction fuel as [|fuel IH]; intros before s Hlen; [lia|]. simpl.
  pose proof (rel_match before s) as Hm.
  pose proof (exec_spec ic r before s) as Hx.
  destruct (exec ic r before s) as [st|] eqn:E.
  - specialize (Hm _ eq_refl). destruct (Hx _ eq_refl) as [_ Hs].
    unfold matched in *.
    destruct (ms_seen st) as [|l seen] eqn:Es.
    + simpl in *. inversion Hm as [Hr|]. subst s.
      destruct (ms_rest st) as [|c s'] eqn:Er; simpl; [constructor|].
      try rewrite Er in E. constructor; [|apply IH; simpl in Hlen; lia].
      pose proof (rel_copy before c s') as Hc. rewrite E in Hc. auto.
    + rewrite Hs at 1. apply Forall2_app; [exact Hm | apply IH].
      pose proof (f_equal (@length Z) Hs) as HL.
      rewrite length_app, length_rev in HL. simpl in HL. lia.
  - destruct s as [|c s']; constructor; [|apply IH; simpl in Hlen; lia].
    pose proof (rel_copy before c s') as Hc. rewrite E in Hc. exact Hc.
Qed.

Lemma replaceAll_rel (s : jsstring) : Forall2 rel s (replaceAll ic r repl s).
Proof. unfold replaceAll. apply replace_loop_rel. lia. Qed.

End ReplaceLoop.

Section SplitLoop.

(** [f] is a view of strings that respects concatenation: the string
    itself, or its units that are not white space. *)
Variable f : jsstring -> jsstring.
Hypothesis f_app : forall a b, f (a ++ b) = f a ++ f b.
Hypothesis f_nil : f [] = [].

Variables (ic : bool) (r : regex).

(** The separators that [split] keeps carry the view of the match. *)
Hypothesis f_sep : forall before s st,
  exec ic r before s = Some st ->
  f (concat (if hasGroup r then [capture1 st] else [])) = f (matched st).

Lemma f_concat_app (l1 l2 : list jsstring) :
  f (concat (l1 ++ l2)) = f (concat l1) ++ f (concat l2).
Proof. rewrite concat_app. apply f_app. Qed.

Lemma split_loop_view (fuel : nat) :
  forall before part s,
    f (concat (split_loop fuel ic r before part s)) = f (rev part ++ s).
Proof.
  induction fuel as [|fuel IH]; intros before part s; simpl.
  - rewrite app_nil_r. reflexivity.
  - destruct s as [|c s'].
    + simpl. reflexivity.
    + pose proof (f_sep before (c :: s')) as Hsep.
      pose proof (exec_spec ic r before (c :: s')) as Hx.
      destruct (exec ic r before (c :: s')) as [st|].
      * specialize (Hsep _ eq_refl). destruct (Hx _ eq_refl) as [_ Hs].
        assert (Hpush :
          f (concat (rev part :: (if hasGroup r then [capture1 st] else [])
                     ++ split_loop fuel ic r (prevUnit st) [] (ms_rest st)))
          = f (rev part ++ c :: s')).
        { change (rev part :: ?l) with ([rev part] ++ l).
          rewrite !f_concat_app, IH, Hsep. simpl.
          rewrite app_nil_r, Hs, !f_app. reflexivity. }
        destruct (ms_seen st) as [|x seen] eqn:Es; [destruct part as [|y part]|].
        -- rewrite IH. simpl. reflexivity.
        -- exact Hpush.
        -- exact Hpush.
      * rewrite IH. simpl. rewrite <- app_assoc. reflexivity.
Qed.

Lemma split_view (s : jsstring) : f (concat (split ic r s)) = f s.
Proof.
  unfold split. destruct s as [|c s'].
  - destruct (exec ic r None []); simpl; rewrite ?f_nil; reflexivity.
  - apply split_loop_view.
Qed.

End SplitLoop.

(** ** The loops of [replace] and [split] never run out of their budget *)

Lemma replace_loop_budget (ic : bool) (r : regex) (repl : mstate -> jsstring)
    (f1 : nat) :
  forall f2 before s,
    (length s < f1)%nat -> (length s < f2)%nat ->
    replace_loop f2 ic r repl before s = replace_loop f1 ic r repl before s.
Proof.
  induction f1 as [|f1 IH]; intros f2 before s H1 H2; [lia|].
  destruct f2 as [|f2]; [lia|]. simpl.
  pose proof (matched_rest_shorter ic r before s) as Hshort.
  destruct (exec ic r before s) as [st|].
  - specialize (Hshort st eq_refl).
    destruct (ms_seen st) as [|l seen].
    + destruct s as [|c s']; [reflexivity|].
      f_equal. f_equal. apply IH; simpl in *; lia.
    + f_equal.
      assert (length (ms_rest st) < length s)%nat by (apply Hshort; discriminate).
      apply IH; lia.
  - destruct s as [|c s']; [reflexivity|].
    f_equal. apply IH; simpl in *; lia.
Qed.

Lemma split_loop_nil (fuel : nat) (ic : bool) (r : regex) (before : option Z)
    (part : jsstring) :
  split_loop fuel ic r before part [] = [rev part].
Proof. destruct fuel; simpl; [rewrite app_nil_r|]; reflexivity. Qed.

Lemma split_loop_budget (ic : bool) (r : regex) (f1 : nat) :
  forall f2 before part s,
    (2 * length s + (if truthy part then 1 else 0) <= f1)%nat ->
    (2 * length s + (if truthy part then 1 else 0) <= f2)%nat ->
    split_loop f2 ic r before part s = split_loop f1 ic r before part s.
Proof.
  induction f1 as [|f1 IH]; intros f2 before part s H1 H2.
  - destruct s; [|simpl in H1; lia]. rewrite !split_loop_nil. reflexivity.
  - destruct s as [|c s']; [rewrite !split_loop_nil; reflexivity|].
    destruct f2 as [|f2]; [simpl in H2; lia|].
    cbn [split_loop].
    pose proof (matched_rest_shorter ic r before (c :: s')) as Hshort.
    pose proof (exec_spec ic r before (c :: s')) as Hspec.
    destruct (exec ic r before (c :: s')) as [st|].
    + specialize (Hshort st eq_refl). destruct (Hspec st eq_refl) as [_ Hs].
      unfold matched in Hs.
      destruct (ms_seen st) as [|x seen]; [destruct part as [|y part]|].
      * apply IH; simpl in *; lia.
      * f_equal. f_equal. simpl in Hs. rewrite <- Hs.
        apply IH; simpl in *; lia.
      * f_equal. f_equal.
        assert (length (ms_rest st) < length (c :: s'))%nat
          by (apply Hshort; discriminate).
        apply IH; simpl in *; lia.
    + apply IH; simpl in *; lia.
Qed.

(** So the budgets that [replaceAll] and [split] start with are enough: a
    larger one gives the same result. *)
Lemma replaceAll_budget (ic : bool) (r : regex) (repl : mstate -> jsstring)
    (s : jsstring) (fuel : nat) :
  (length s < fuel)%nat ->
  replace_loop fuel ic r repl None s = replaceAll ic r repl s.
Proof. intros H. unfold replaceAll. apply replace_loop_budget; lia. Qed.

Lemma split_budget (ic : bool) (r : regex) (s : jsstring) (fuel : nat) :
  s <> [] -> (2 * length s <= fuel)%nat ->
  split_loop fuel ic r None [] s = split ic r s.
Proof.
  intros Hne H. unfold split. destruct s as [|c s']; [contradiction|].
  apply split_loop_budget; simpl in *; lia.
Qed.

(** ** Rounding *)

(** The relative error of one rounding is at most [2^-53], for a value in
    the normal range of the representation. *)
Lemma rne_bounds (p q : Z) :
  0 < q -> 2 ^ 52 * q <= p ->
  2 ^ 53 * (JSNum.rne p q * q - p) <= p /\ 2 ^ 53 * (p - JSNum.rne p q * q) <= p.
Proof.
  intros Hq Hp. unfold JSNum.rne.
  set (x := p / q).
  assert (Hx : 2 ^ 52 <= x).
  { unfold x. apply Z.div_le_lower_bound; lia. }
  assert (Hxq : q * x <= p).
  { unfold x. apply Z.mul_div_le. lia. }
  assert (Hl : 52 <= Z.log2 x).
  { apply Z.log2_le_pow2; lia. }
  set (s := Z.max 0 (Z.log2 x + 1 - 53)).
  assert (Hs : s = Z.log2 x - 52) by (unfold s; lia).
  assert (Hpow : 2 ^ s * 2 ^ 52 <= x).
  { rewrite <- Z.pow_add_r by lia. replace (s + 52) with (Z.log2 x) by lia.
    apply Z.log2_spec. lia. }
  assert (H2s : 0 < 2 ^ s) by (apply Z.pow_pos_nonneg; lia).
  set (d := q * 2 ^ s).
  assert (Hd : 0 < d) by (unfold d; nia).
  assert (Hdp : d * 2 ^ 52 <= p).
  { unfold d. nia. }
  pose proof (Z.div_mod p d ltac:(lia)) as Hdm.
  pose proof (Z.mod_pos_bound p d Hd) as Hr.
  set (m := p / d) in *. set (r := p mod d) in *.
  replace (2 ^ 53) with (2 * 2 ^ 52) by reflexivity.
  destruct ((d <? 2 * r) || ((d =? 2 * r) && Z.odd m)) eqn:Hup.
  - assert (Hge : d <= 2 * r).
    { apply orb_true_iff in Hup. destruct Hup as [H|H].
      - apply Z.ltb_lt in H. lia.
      - apply andb_true_iff in H. destruct H as [H _]. apply Z.eqb_eq in H. lia. }
    replace ((m + 1) * 2 ^ s * q) with (d * m + d) by (unfold d; ring).
    split; nia.
  - assert (Hle : 2 * r <= d).
    { apply orb_false_iff in Hup. destruct Hup as [H _].
      apply Z.ltb_ge in H. exact H. }
    replace (m * 2 ^ s * q) with (d * m) by (unfold d; ring).
    split; nia.
Qed.

Lemma cancel_unit (U K A B : Z) : 0 < U -> K * (A * U) <= B * U -> K * A <= B.
Proof.
  intros HU H.
  assert (H' : U * (K * A - B) <= 0) by lia.
  nia.
Qed.

Lemma scaled_bounds (limit c : Z) :
  0 < limit -> 2 ^ 52 <= c ->
  2 ^ 53 * (scaled limit c - limit * c) <= limit * c /\
  2 ^ 53 * (limit * c - scaled limit c) <= limit * c.
Proof.
  intros Hl Hc. unfold scaled, JSNum.mul, JSNum.of_int.
  assert (Hu : 0 < JSNum.unit) by reflexivity.
  assert (Hlc : 2 ^ 52 <= limit * c).
  { transitivity (1 * c); [lia|]. apply Z.mul_le_mono_nonneg_r; lia. }
  destruct (rne_bounds (limit * JSNum.unit * c) JSNum.unit Hu) as [H1 H2].
  - replace (limit * JSNum.unit * c) with ((limit * c) * JSNum.unit) by ring.
    apply Z.mul_le_mono_nonneg_r; lia.
  - set (R := JSNum.rne (limit * JSNum.unit * c) JSNum.unit) in *.
    split; apply (cancel_unit JSNum.unit); try exact Hu.
    + etransitivity; [|etransitivity; [exact H1|]]; [|apply Z.eq_le_incl; ring].
      apply Z.eq_le_incl. ring.
    + etransitivity; [|etransitivity; [exact H2|]]; [|apply Z.eq_le_incl; ring].
      apply Z.eq_le_incl. ring.
Qed.

Lemma scale_ineq (limit x y : Z) : 0 < limit -> x <= y -> limit * x <= limit * y.
Proof. intros. apply Z.mul_le_mono_nonneg_l; lia. Qed.

(** [limit * a <= limit * b] after rounding, for constants far enough apart. *)
Lemma scaled_le (limit a b : Z) :
  0 < limit -> 2 ^ 52 <= a -> 2 ^ 52 <= b ->
  a * (2 ^ 53 + 1) <= b * (2 ^ 53 - 1) ->
  scaled limit a <= scaled limit b.
Proof.
  intros Hl Ha Hb Hab.
  destruct (scaled_bounds limit a Hl Ha) as [H1 _].
  destruct (scaled_bounds limit b Hl Hb) as [_ H2].
  pose proof (scale_ineq limit _ _ Hl Hab) as H.
  assert (HK : 0 < 2 ^ 53) by reflexivity.
  revert H1 H2 H HK. generalize (2 ^ 53). intros K H1 H2 H HK.
  assert (K * scaled limit a <= K * scaled limit b) by lia.
  nia.
Qed.

Lemma int_le_scaled (limit c : Z) :
  0 < limit -> 2 ^ 52 <= c ->
  JSNum.unit * 2 ^ 53 <= c * (2 ^ 53 - 1) ->
  JSNum.of_int limit <= scaled limit c.
Proof.
  intros Hl Hc Hu.
  destruct (scaled_bounds limit c Hl Hc) as [_ H2].
  unfold JSNum.of_int.
  pose proof (scale_ineq limit _ _ Hl Hu) as H.
  assert (HK : 0 < 2 ^ 53) by reflexivity.
  revert H2 H HK. generalize (2 ^ 53). generalize JSNum.unit. intros U K H2 H HK.
  assert (K * (limit * U) <= K * scaled limit c) by lia.
  nia.
Qed.

(** The thresholds of the splitter all lie below [maxLen]. *)
Lemma maxLen_bounds (limit : Z) :
  0 < limit ->
  JSNum.of_int limit <= maxLen limit /\
  scaled limit c1_3 <= maxLen limit /\
  scaled limit c1_4 <= maxLen limit /\
  scaled limit c1_5 <= maxLen limit.
Proof.
  intros Hl. unfold maxLen, JSNum.max.
  assert (H5 : JSNum.of_int limit <= scaled limit c1_5).
  { apply int_le_scaled; [exact Hl | vm_compute; discriminate | vm_compute; discriminate]. }
  assert (H3 : scaled limit c1_3 <= scaled limit c1_5).
  { apply scaled_le; [exact Hl | | |]; vm_compute; discriminate. }
  assert (H4 : scaled limit c1_4 <= scaled limit c1_5).
  { apply scaled_le; [exact Hl | | |]; vm_compute; discriminate. }
  lia.
Qed.

(** The constants are the binary64 values of the literals, and the products
    round as they do in JavaScript: [45 * 1.4] is [62.99999999999999],
    [5 * 1.4] is [7] and [3 * 1.3] is [3.9000000000000004]. *)
Example constants_binary64 :
  c0_4 = 0x1999999999999A /\ c1_3 = 0x14CCCCCCCCCCCD * 4 /\
  c1_4 = 0x16666666666666 * 4 /\ c1_5 = 3 * 2 ^ 53.
Proof. repeat split; vm_compute; reflexivity. Qed.

Example products_binary64 :
  scaled 45 c1_4 = JSNum.of_int 63 - 2 ^ 7 /\
  scaled 5 c1_4 = JSNum.of_int 7 /\
  scaled 3 c1_3 = 0x1F333333333334 * 2 ^ 3.
Proof. repeat split; vm_compute; reflexivity. Qed.

(** ** [substring], [indexOf] and [lastIndexOf] *)

Lemma substring_prefix (s : jsstring) (k : Z) :
  0 <= k -> substring s 0 (Some k) = firstn (Z.to_nat k) s.
Proof.
  intros Hk. unfold substring. cbv zeta.
  assert (HL : 0 <= len s) by (unfold len; lia).
  replace (Z.min (Z.max 0 0) (len s)) with 0 by lia.
  replace (Z.max k 0) with k by lia.
  replace (Z.min 0 (Z.min k (len s))) with 0 by lia.
  replace (Z.max 0 (Z.min k (len s))) with (Z.min k (len s)) by lia.
  simpl skipn. unfold len in *.
  destruct (Z.le_gt_cases k (Z.of_nat (length s))) as [H|H].
  - f_equal. lia.
  - rewrite !firstn_all2 by lia. reflexivity.
Qed.

Lemma substring_suffix (s : jsstring) (k : Z) :
  0 <= k -> substring s k None = skipn (Z.to_nat k) s.
Proof.
  intros Hk. unfold substring. cbv zeta.
  assert (HL : 0 <= len s) by (unfold len; lia).
  replace (Z.max k 0) with k by lia.
  replace (Z.min (Z.min k (len s)) (len s)) with (Z.min k (len s)) by lia.
  replace (Z.max (Z.min k (len s)) (len s)) with (len s) by lia.
  unfold len in *.
  rewrite firstn_all2 by (rewrite length_skipn; lia).
  destruct (Z.le_gt_cases k (Z.of_nat (length s))) as [H|H].
  - f_equal. lia.
  - rewrite !skipn_all2 by lia. reflexivity.
Qed.

Lemma substring_cut (s : jsstring) (k : Z) :
  0 <= k -> substring s 0 (Some k) ++ substring s k None = s.
Proof.
  intros Hk. rewrite substring_prefix, substring_suffix by exact Hk.
  apply firstn_skipn.
Qed.

Lemma lastIndexOf_upto_spec (c : Z) (l : jsstring) :
  forall i0 best,
    let i := lastIndexOf_upto c l i0 best in
    i = best \/
    (i0 <= i < i0 + Z.of_nat (length l) /\ nth_error l (Z.to_nat (i - i0)) = Some c).
Proof.
  induction l as [|x l IH]; intros i0 best; simpl.
  - left. reflexivity.
  - destruct (IH (i0 + 1) (if x =? c then i0 else best)) as [H|[H1 H2]].
    + destruct (x =? c) eqn:E.
      * right. rewrite H. apply Z.eqb_eq in E. subst x.
        split; [lia|]. replace (i0 - i0) with 0 by lia. reflexivity.
      * left. exact H.
    + right. split; [lia|].
      replace (Z.to_nat (lastIndexOf_upto c l (i0 + 1) (if x =? c then i0 else best) - i0))
        with (S (Z.to_nat (lastIndexOf_upto c l (i0 + 1) (if x =? c then i0 else best) - (i0 + 1))))
        by lia.
      exact H2.
Qed.

Lemma lastIndexOf_spec (s : jsstring) (c from : Z) :
  let i := lastIndexOf s c from in
  i = -1 \/ (0 <= i <= Z.max from 0 /\ nth_error s (Z.to_nat i) = Some c).
Proof.
  unfold lastIndexOf.
  destruct (lastIndexOf_upto_spec c (firstn (Z.to_nat (Z.max from 0) + 1) s) 0 (-1))
    as [H|[H1 H2]]; [left; exact H | right].
  rewrite length_firstn in H1. rewrite Z.sub_0_r in H2.
  split; [lia|].
  rewrite nth_error_firstn in H2.
  destruct (Nat.ltb_spec (Z.to_nat (lastIndexOf_upto c (firstn (Z.to_nat (Z.max from 0) + 1) s) 0 (-1)))
              (Z.to_nat (Z.max from 0) + 1)); [exact H2 | discriminate].
Qed.

Lemma lastIndexOf_upto_last (c : Z) (l : jsstring) :
  forall i0 best j,
    nth_error l j = Some c ->
    i0 + Z.of_nat j <= lastIndexOf_upto c l i0 best.
Proof.
  induction l as [|x l IH]; intros i0 best j Hj.
  - destruct j; discriminate.
  - cbn [lastIndexOf_upto]. destruct j as [|j].
    + injection Hj as ->. rewrite Z.eqb_refl.
      pose proof (lastIndexOf_upto_spec c l (i0 + 1) i0) as H. cbv zeta in H.
      simpl Z.of_nat. lia.
    + specialize (IH (i0 + 1) (if x =? c then i0 else best) j Hj). lia.
Qed.

(** [lastIndexOf] misses no occurrence at or before [from]. *)
Lemma lastIndexOf_last (s : jsstring) (c from : Z) (j : nat) :
  nth_error s j = Some c -> Z.of_nat j <= Z.max from 0 ->
  Z.of_nat j <= lastIndexOf s c from.
Proof.
  intros Hj Hle. unfold lastIndexOf.
  apply (lastIndexOf_upto_last c _ 0 (-1) j).
  rewrite nth_error_firstn.
  destruct (Nat.ltb_spec j (Z.to_nat (Z.max from 0) + 1)); [exact Hj | lia].
Qed.

Lemma indexOf_from_spec (c : Z) (l : jsstring) :
  forall i0,
    let i := indexOf_from c l i0 in
    i = -1 \/ (i0 <= i /\ nth_error l (Z.to_nat (i - i0)) = Some c).
Proof.
  induction l as [|x l IH]; intros i0; simpl.
  - left. reflexivity.
  - destruct (x =? c) eqn:E.
    + right. apply Z.eqb_eq in E. subst x. split; [lia|].
      replace (i0 - i0) with 0 by lia. reflexivity.
    + destruct (IH (i0 + 1)) as [H|[H1 H2]]; [left; exact H | right].
      split; [lia|].
      replace (Z.to_nat (indexOf_from c l (i0 + 1) - i0))
        with (S (Z.to_nat (indexOf_from c l (i0 + 1) - (i0 + 1)))) by lia.
      exact H2.
Qed.

Lemma indexOf_spec (s : jsstring) (c from : Z) :
  let i := indexOf s c from in
  i = -1 \/ (Z.min (Z.max from 0) (len s) <= i /\ nth_error s (Z.to_nat i) = Some c).
Proof.
  unfold indexOf. set (start := Z.min (Z.max from 0) (len s)).
  destruct (indexOf_from_spec c (skipn (Z.to_nat start) s) start) as [H|[H1 H2]];
    [left; exact H | right].
  split; [exact H1|].
  rewrite nth_error_skipn in H2.
  replace (Z.to_nat (indexOf_from c (skipn (Z.to_nat start) s) start))
    with (Z.to_nat start + Z.to_nat (indexOf_from c (skipn (Z.to_nat start) s) start - start))%nat.
  - exact H2.
  - unfold start, len in *. lia.
Qed.

(** The index [findBestSplitIndex] returns is [-1] or the index of a space
    that is at most [maxLen]. *)
Lemma findBestSplitIndex_spec (text : jsstring) (limit : Z) :
  0 < limit -> text <> [] ->
  let i := findBestSplitIndex text limit in
  i = -1 \/
  (0 <= i /\ nth_error text (Z.to_nat i) = Some 0x20 /\ JSNum.of_int i <= maxLen limit).
Proof.
  intros Hl Hne. unfold findBestSplitIndex.
  pose proof (maxLen_bounds limit Hl) as [Hm0 [_ [Hm4 _]]].
  pose proof (lastIndexOf_spec text 0x20 limit) as HL.
  pose proof (indexOf_spec text 0x20 limit) as HI.
  simpl in HL, HI.
  set (index := lastIndexOf text 0x20 limit) in *.
  set (nextSpace := indexOf text 0x20 limit) in *.
  assert (Hnear : negb (nextSpace =? -1)
                  && JSNum.leb (JSNum.of_int nextSpace) (scaled limit c1_4) = true ->
                  0 <= nextSpace /\ nth_error text (Z.to_nat nextSpace) = Some 0x20 /\
                  JSNum.of_int nextSpace <= maxLen limit).
  { intros H. apply andb_true_iff in H. destruct H as [H1 H2].
    apply negb_true_iff, Z.eqb_neq in H1. apply Z.leb_le in H2.
    destruct HI as [HI|[HI1 HI2]]; [contradiction|].
    assert (0 < len text) by (unfold len; destruct text; [contradiction | simpl; lia]).
    repeat split; [lia | exact HI2 | lia]. }
  assert (Hidx : index = -1 \/
                 (0 <= index /\ nth_error text (Z.to_nat index) = Some 0x20 /\
                  JSNum.of_int index <= maxLen limit)).
  { destruct HL as [HL|[HL1 HL2]]; [left; exact HL | right].
    repeat split; [lia | exact HL2 |].
    unfold JSNum.of_int in *.
    assert (index * JSNum.unit <= limit * JSNum.unit)
      by (apply Z.mul_le_mono_nonneg_r; [vm_compute; discriminate | lia]).
    lia. }
  destruct (JSNum.ltb (JSNum.of_int index) (scaled limit c0_4)
            && (negb (nextSpace =? -1)
                && JSNum.leb (JSNum.of_int nextSpace) (scaled limit c1_4))) eqn:E1.
  - apply andb_true_iff in E1. destruct E1 as [_ E1]. right. apply Hnear, E1.
  - destruct (index =? -1) eqn:E2.
    + destruct (negb (nextSpace =? -1)
                && JSNum.leb (JSNum.of_int nextSpace) (scaled limit c1_4)) eqn:E3.
      * right. apply Hnear. reflexivity.
      * left. reflexivity.
    + exact Hidx.
Qed.

(** ** Atoms *)

Lemma list_pair_ind {A : Type} (P : list A -> Prop) :
  P [] -> (forall a, P [a]) -> (forall a b l, P l -> P (a :: b :: l)) ->
  forall l, P l.
Proof.
  intros H0 H1 H2.
  assert (H : forall l, P l /\ forall a, P (a :: l)).
  { induction l as [|b l [IH1 IH2]]; split; auto. }
  intros l. apply H.
Qed.

Lemma atomsOf_cons2 (content sep : jsstring) (rest : list jsstring) :
  atomsOf (content :: sep :: rest) =
  (if truthy (trim (content ++ sep)) then [trim (content ++ sep)] else [])
  ++ atomsOf rest.
Proof. reflexivity. Qed.

Lemma atomsOf_tidy (parts : list jsstring) : Forall tidy (atomsOf parts).
Proof.
  induction parts as [|a|a b l IH] using list_pair_ind.
  - constructor.
  - simpl. destruct (truthy (trim (a ++ []))) eqn:E; simpl; [|constructor].
    constructor; [apply trim_tidy; exact E | constructor].
  - rewrite atomsOf_cons2. apply Forall_app. split; [|exact IH].
    destruct (truthy (trim (a ++ b))) eqn:E; [|constructor].
    constructor; [apply trim_tidy; exact E | constructor].
Qed.

Lemma truthy_false (s : jsstring) : truthy s = false -> s = [].
Proof. destruct s; [reflexivity | discriminate]. Qed.

Lemma atom_nonWhitespace (s : jsstring) :
  nonWhitespace (concat (if truthy (trim s) then [trim s] else [])) = nonWhitespace s.
Proof.
  destruct (truthy (trim s)) eqn:E; simpl.
  - rewrite app_nil_r. apply nonWhitespace_trim.
  - apply truthy_false in E. rewrite <- (nonWhitespace_trim s), E. reflexivity.
Qed.

Lemma atom_length (s : jsstring) :
  (length (concat (if truthy (trim s) then [trim s] else [])) <= length s)%nat.
Proof.
  destruct (truthy (trim s)); simpl; [|lia].
  rewrite app_nil_r. apply length_trim.
Qed.

Lemma atomsOf_nonWhitespace (parts : list jsstring) :
  nonWhitespace (concat (atomsOf parts)) = nonWhitespace (concat parts).
Proof.
  induction parts as [|a|a b l IH] using list_pair_ind.
  - reflexivity.
  - unfold atomsOf. rewrite !app_nil_r. simpl concat at 2. rewrite app_nil_r.
    apply atom_nonWhitespace.
  - rewrite atomsOf_cons2, concat_app, nonWhitespace_app, atom_nonWhitespace, IH.
    simpl. rewrite !nonWhitespace_app. symmetry. apply app_assoc.
Qed.

Lemma atomsOf_length (parts : list jsstring) :
  (length (concat (atomsOf parts)) <= length (concat parts))%nat.
Proof.
  induction parts as [|a|a b l IH] using list_pair_ind.
  - simpl. lia.
  - unfold atomsOf. rewrite !app_nil_r. simpl concat at 2. rewrite app_nil_r.
    apply atom_length.
  - rewrite atomsOf_cons2, concat_app, length_app.
    pose proof (atom_length (a ++ b)) as H. simpl.
    rewrite !length_app in *. lia.
Qed.

(** In a list of at least two non-empty strings each one is shorter than
    the concatenation. *)
Lemma member_shorter (l : list jsstring) (a : jsstring) :
  Forall (fun x => x <> []) l -> (2 <= length l)%nat -> In a l ->
  (length a < length (concat l))%nat.
Proof.
  intros Hne Hlen Hin.
  destruct (in_split _ _ Hin) as [l1 [l2 ->]].
  rewrite concat_app, length_app. simpl. rewrite length_app.
  apply Forall_app in Hne. destruct Hne as [Hn1 Hn2].
  inversion Hn2 as [|? ? _ Hn2']. subst.
  rewrite length_app in Hlen. simpl in Hlen.
  destruct l1 as [|x l1].
  - destruct l2 as [|y l2]; [simpl in Hlen; lia|].
    inversion Hn2' as [|? ? Hy _]. subst.
    simpl. rewrite length_app. destruct y; [contradiction | simpl; lia].
  - inversion Hn1 as [|? ? Hx _]. subst.
    simpl. rewrite length_app. destruct x; [contradiction | simpl; lia].
Qed.

Lemma tidy_nonempty (l : list jsstring) :
  Forall tidy l -> Forall (fun x => x <> []) l.
Proof. apply Forall_impl. intros a [H _]. exact H. Qed.

Lemma wholeCapture_group_ahead (g a : regex) :
  hasGroup a = false -> wholeCapture (Cat (Group g) (Ahead a)).
Proof.
  intros Ha. split; [reflexivity|].
  intros before s st H. eapply exec_group_ahead; eassumption.
Qed.

Lemma wholeCapture_majorRe : wholeCapture majorRe.
Proof. apply wholeCapture_group_ahead. reflexivity. Qed.

Lemma wholeCapture_minorRe : wholeCapture minorRe.
Proof. apply wholeCapture_group_ahead. reflexivity. Qed.

(** With such a pattern the parts of [split] concatenate to the text. *)
Lemma split_concat (r : regex) (text : jsstring) :
  wholeCapture r -> concat (split false r text) = text.
Proof.
  intros [Hg Hc].
  apply (split_view (fun x => x)); [reflexivity | reflexivity |].
  intros before s st H. rewrite Hg. simpl. rewrite app_nil_r. eapply Hc, H.
Qed.

(** The atoms of a text that has at least two of them are tidy and each
    strictly shorter than the text. *)
Lemma atoms_shorter (r : regex) (text atom : jsstring) :
  wholeCapture r ->
  (2 <= length (atomsOf (split false r text)))%nat ->
  In atom (atomsOf (split false r text)) ->
  tidy atom /\ (length atom < length text)%nat.
Proof.
  intros Hr Hlen Hin.
  pose proof (atomsOf_tidy (split false r text)) as Ht.
  split; [eapply Forall_forall in Ht; eassumption|].
  pose proof (member_shorter _ _ (tidy_nonempty _ Ht) Hlen Hin) as H1.
  pose proof (atomsOf_length (split false r text)) as H2.
  rewrite (split_concat _ _ Hr) in H2. lia.
Qed.

(** ** The packing loop and the recursion *)

Arguments scaled : simpl never.
Arguments maxLen : simpl never.
Arguments JSNum.of_int : simpl never.
Arguments JSNum.leb : simpl never.
Arguments JSNum.ltb : simpl never.
Arguments findBestSplitIndex : simpl never.
Arguments split : simpl never.
Arguments trim : simpl never.
Arguments substring : simpl never.

Lemma len_app (a b : jsstring) : len (a ++ b) = len a + len b.
Proof. unfold len. rewrite length_app. lia. Qed.

Lemma of_int_le (a b : Z) : a <= b -> JSNum.of_int a <= JSNum.of_int b.
Proof.
  intros H. unfold JSNum.of_int.
  apply Z.mul_le_mono_nonneg_r; [vm_compute; discriminate | exact H].
Qed.

Lemma pending_lines (limit : Z) (cur : jsstring) :
  cur = [] \/ lineOK limit cur ->
  Forall (lineOK limit) (if truthy cur then [cur] else []).
Proof.
  intros [->|H]; simpl; [constructor|].
  destruct (truthy cur); constructor; [exact H | constructor].
Qed.

Lemma pending_push (cur : jsstring) (acc : list jsstring) :
  (if truthy cur then acc ++ [cur] else acc)
  = acc ++ (if truthy cur then [cur] else []).
Proof. destruct (truthy cur); [reflexivity | rewrite app_nil_r; reflexivity]. Qed.

Lemma pending_nonWhitespace (cur : jsstring) :
  nonWhitespace (concat (if truthy cur then [cur] else [])) = nonWhitespace cur.
Proof.
  destruct cur; simpl; [reflexivity|]. rewrite app_nil_r. reflexivity.
Qed.

Section Reflow.

Variable limit : Z.
Hypothesis limit_pos : 0 < limit.
Variable self : jsstring -> Z -> list jsstring -> option (list jsstring).

Lemma reflow_spec (atoms : list jsstring) :
  Forall tidy atoms -> Forall (handles limit self) atoms ->
  forall cur, cur = [] \/ lineOK limit cur ->
  exists out cur',
    (forall acc, reflow self atoms limit cur acc = Some (cur', acc ++ out)) /\
    nonWhitespace (concat out ++ cur') = nonWhitespace (cur ++ concat atoms) /\
    Forall (lineOK limit) out /\
    (cur' = [] \/ lineOK limit cur').
Proof.
  pose proof (maxLen_bounds limit limit_pos) as [_ [Hm3 [_ Hm5]]].
  induction atoms as [|atom atoms IH]; intros Ht Hh cur Hcur.
  - exists [], cur. simpl. repeat split.
    + intros acc. rewrite app_nil_r. reflexivity.
    + rewrite app_nil_r. reflexivity.
    + constructor.
    + exact Hcur.
  - inversion Ht as [|? ? Hta Hts]. inversion Hh as [|? ? Hha Hhs]. subst.
    specialize (IH Hts Hhs). simpl.
    destruct (truthy cur
              && JSNum.leb (JSNum.of_int (len cur + 1 + len atom)) (scaled limit c1_3))
      eqn:Efit.
    + apply andb_true_iff in Efit. destruct Efit as [Ecur Efit].
      rewrite Ecur.
      assert (Hok : lineOK limit cur).
      { destruct Hcur as [->|H]; [discriminate | exact H]. }
      destruct (IH (cur ++ js " " ++ atom)) as [out [cur' [Hrun [Hnw [Hout Hc']]]]].
      { right. split.
        - apply tidy_join; [apply Hok | exact Hta].
        - unfold withinMaxLen, JSNum.leb in *. apply Z.leb_le. apply Z.leb_le in Efit.
          rewrite !len_app. change (len (js " ")) with 1.
          replace (len cur + (1 + len atom)) with (len cur + 1 + len atom) by lia.
          lia. }
      exists out, cur'. repeat split; try assumption.
      rewrite Hnw. simpl concat.
      rewrite <- !app_assoc, !nonWhitespace_app. reflexivity.
    + clear Efit.
      pose proof (pending_lines limit cur Hcur) as Hpend.
      set (pend := if truthy cur then [cur] else []) in *.
      destruct (JSNum.ltb (scaled limit c1_5) (JSNum.of_int (len atom))) eqn:Ehuge.
      * destruct Hha as [outa [Ha [Hnwa Houta]]].
        destruct (IH []) as [out [cur' [Hrun [Hnw [Hout Hc']]]]]; [left; reflexivity|].
        exists (pend ++ outa ++ out), cur'. repeat split.
        -- intros acc. rewrite pending_push. fold pend.
           rewrite Ha. simpl. rewrite Hrun, <- !app_assoc. reflexivity.
        -- rewrite !concat_app, <- !app_assoc.
           rewrite nonWhitespace_app, (nonWhitespace_app (concat outa)).
           rewrite Hnw. unfold pend. rewrite pending_nonWhitespace, Hnwa.
           simpl. rewrite !nonWhitespace_app. reflexivity.
        -- apply Forall_app. split; [exact Hpend|].
           apply Forall_app. split; assumption.
        -- exact Hc'.
      * destruct (IH atom) as [out [cur' [Hrun [Hnw [Hout Hc']]]]].
        { right. split; [exact Hta|].
          unfold withinMaxLen, JSNum.leb, JSNum.ltb in *. apply Z.leb_le.
          apply Z.ltb_ge in Ehuge. lia. }
        exists (pend ++ out), cur'. repeat split.
        -- intros acc. rewrite pending_push. fold pend.
           rewrite Hrun, <- !app_assoc. reflexivity.
        -- rewrite !concat_app, <- !app_assoc, nonWhitespace_app, Hnw.
           unfold pend. rewrite pending_nonWhitespace.
           simpl. rewrite !nonWhitespace_app. reflexivity.
        -- apply Forall_app. split; assumption.
        -- exact Hc'.
Qed.

(** An attempt with a delimiter pattern either changes nothing or appends
    lines that carry the text. *)
Lemma trySplitAndReflow_spec (text : jsstring) (r : regex) :
  wholeCapture r ->
  (forall t, (length t < length text)%nat -> tidy t -> handles limit self t) ->
  (forall acc, trySplitAndReflow self text r limit acc = Some (false, acc)) \/
  (exists out,
     (forall acc, trySplitAndReflow self text r limit acc = Some (true, acc ++ out)) /\
     nonWhitespace (concat out) = nonWhitespace text /\
     Forall (lineOK limit) out).
Proof.
  intros Hr Hself. unfold trySplitAndReflow.
  destruct (length (split false r text) <? 3)%nat; [left; reflexivity|].
  destruct (length (atomsOf (split false r text)) <? 2)%nat eqn:E2; [left; reflexivity|].
  apply Nat.ltb_ge in E2. right.
  destruct (reflow_spec (atomsOf (split false r text))) with (cur := @nil Z)
    as [out [cur' [Hrun [Hnw [Hout Hc']]]]].
  - apply atomsOf_tidy.
  - apply Forall_forall. intros atom Hin.
    destruct (atoms_shorter _ _ _ Hr E2 Hin) as [Ht Hs]. apply Hself; assumption.
  - left. reflexivity.
  - exists (out ++ (if truthy cur' then [cur'] else [])). repeat split.
    + intros acc. rewrite Hrun. simpl. rewrite pending_push, app_assoc. reflexivity.
    + rewrite concat_app, nonWhitespace_app, pending_nonWhitespace.
      rewrite <- nonWhitespace_app, Hnw. simpl.
      rewrite atomsOf_nonWhitespace, (split_concat _ _ Hr). reflexivity.
    + apply Forall_app. split; [exact Hout | apply pending_lines; exact Hc'].
Qed.

End Reflow.

(** The index the whitespace fallback cuts at. *)
Lemma cut_index (text : jsstring) (limit : Z) :
  0 < limit -> text <> [] ->
  let i := findBestSplitIndex text limit in
  let k := if i =? -1 then limit else i in
  JSNum.of_int k <= maxLen limit /\
  (1 <= k \/ (k = 0 /\ exists t, text = 0x20 :: t)).
Proof.
  intros Hl Hne. cbv zeta.
  destruct (findBestSplitIndex_spec text limit Hl Hne) as [H|[H0 [Hn Hb]]].
  - rewrite H. simpl. split; [apply maxLen_bounds; exact Hl | left; lia].
  - destruct (findBestSplitIndex text limit =? -1) eqn:E.
    + apply Z.eqb_eq in E. lia.
    + split; [exact Hb|].
      destruct (Z.eq_dec (findBestSplitIndex text limit) 0) as [Hz|Hz]; [right | left; lia].
      split; [exact Hz|]. rewrite Hz in Hn. simpl in Hn.
      destruct text as [|c t]; [discriminate|]. injection Hn as ->. exists t. reflexivity.
Qed.

(** The tail after the cut is strictly shorter than the segment. *)
Lemma cut_tail_shorter (text : jsstring) (limit : Z) :
  0 < limit -> text <> [] ->
  let i := findBestSplitIndex text limit in
  let k := if i =? -1 then limit else i in
  (length (trim (substring text k None)) < length text)%nat.
Proof.
  intros Hl Hne. cbv zeta.
  destruct (cut_index text limit Hl Hne) as [_ H]. cbv zeta in H. revert H.
  generalize (if findBestSplitIndex text limit =? -1 then limit
              else findBestSplitIndex text limit).
  intros k [Hk|[Hk [t Ht]]].
  - rewrite substring_suffix by lia.
    pose proof (length_trim (skipn (Z.to_nat k) text)) as H.
    rewrite length_skipn in H.
    assert (0 < length text)%nat by (destruct text; [contradiction | simpl; lia]).
    lia.
  - rewrite Hk. rewrite substring_suffix by lia. simpl skipn. subst text.
    unfold trim. simpl trimStart.
    pose proof (length_trimEnd (trimStart t)). pose proof (length_trimStart t).
    simpl. lia.
Qed.

Lemma cut_head_length (text : jsstring) (k : Z) :
  0 <= k -> len (trim (substring text 0 (Some k))) <= k.
Proof.
  intros Hk. rewrite substring_prefix by exact Hk.
  pose proof (length_trim (firstn (Z.to_nat k) text)) as H.
  rewrite length_firstn in H. unfold len. lia.
Qed.

Lemma not_terminal_nonempty (text : jsstring) (limit : Z) :
  0 < limit ->
  JSNum.leb (JSNum.of_int (len text)) (maxLen limit) = false -> text <> [].
Proof.
  intros Hl H ->. pose proof (maxLen_bounds limit Hl) as [Hm _].
  unfold JSNum.leb in H. apply Z.leb_gt in H.
  pose proof (of_int_le 0 limit ltac:(lia)) as H0.
  change (len []) with 0 in H. lia.
Qed.

Section ProcessSegment.

Variable limit : Z.
Hypothesis limit_pos : 0 < limit.

(** One call of [processSegment] handles its segment, when the calls it
    makes handle theirs. *)
Lemma processSegmentF_spec
    (self : jsstring -> Z -> list jsstring -> option (list jsstring))
    (text : jsstring) :
  tidy text ->
  (forall t, (length t < length text)%nat -> tidy t -> handles limit self t) ->
  handles limit (processSegmentF self) text.
Proof.
  intros Htidy Hself. unfold handles, processSegmentF.
  destruct (JSNum.leb (JSNum.of_int (len text)) (maxLen limit)) eqn:Eterm.
  - exists [text]. repeat split.
    + simpl. rewrite app_nil_r. reflexivity.
    + constructor; [split; assumption | constructor].
  - pose proof (not_terminal_nonempty _ _ limit_pos Eterm) as Hne.
    destruct (trySplitAndReflow_spec limit limit_pos self text majorRe
                wholeCapture_majorRe Hself) as [H1|[out [H1 [Hnw Hok]]]].
    2:{ exists out. repeat split; try assumption.
        intros acc. rewrite H1. reflexivity. }
    destruct (trySplitAndReflow_spec limit limit_pos self text minorRe
                wholeCapture_minorRe Hself) as [H2|[out [H2 [Hnw Hok]]]].
    2:{ exists out. repeat split; try assumption.
        intros acc. rewrite H1. simpl. rewrite H2. reflexivity. }
    pose proof (cut_index text limit limit_pos Hne) as [Hkb Hk].
    pose proof (cut_tail_shorter text limit limit_pos Hne) as Hshort.
    cbv zeta in Hkb, Hk, Hshort.
    set (k := if findBestSplitIndex text limit =? -1 then limit
              else findBestSplitIndex text limit) in *.
    assert (Hk0 : 0 <= k) by (destruct Hk as [?|[? _]]; lia).
    set (head := trim (substring text 0 (Some k))).
    set (tail := trim (substring text k None)) in *.
    assert (Hcut : nonWhitespace head ++ nonWhitespace tail = nonWhitespace text).
    { unfold head, tail. rewrite !nonWhitespace_trim, <- nonWhitespace_app.
      rewrite substring_cut by exact Hk0. reflexivity. }
    assert (Hhead : Forall (lineOK limit) (if truthy head then [head] else [])).
    { destruct (truthy head) eqn:Eh; constructor; [|constructor].
      split; [apply trim_tidy; exact Eh|].
      unfold withinMaxLen, JSNum.leb. apply Z.leb_le.
      pose proof (cut_head_length text k Hk0) as Hlen. fold head in Hlen.
      pose proof (of_int_le _ _ Hlen). lia. }
    destruct (truthy tail) eqn:Et.
    + destruct (Hself tail Hshort (trim_tidy _ Et)) as [outt [Ht [Hnwt Hokt]]].
      exists ((if truthy head then [head] else []) ++ outt). repeat split.
      * intros acc. rewrite H1. simpl. rewrite H2. simpl.
        fold k. fold head. fold tail. rewrite pending_push, Ht, app_assoc.
        reflexivity.
      * rewrite concat_app, nonWhitespace_app, pending_nonWhitespace, Hnwt.
        exact Hcut.
      * apply Forall_app. split; assumption.
    + exists (if truthy head then [head] else []). repeat split.
      * intros acc. rewrite H1. simpl. rewrite H2. simpl.
        fold k. fold head. fold tail. rewrite pending_push. reflexivity.
      * rewrite pending_nonWhitespace, <- Hcut.
        apply truthy_false in Et. rewrite Et. simpl. rewrite app_nil_r. reflexivity.
      * exact Hhead.
Qed.

(** [processSegment] handles every tidy segment shorter than its budget. *)
Lemma processSegment_spec (fuel : nat) :
  forall text, tidy text -> (length text < fuel)%nat ->
  handles limit (processSegment fuel) text.
Proof.
  induction fuel as [|fuel IH]; intros text Ht Hlen; [lia|].
  change (processSegment (S fuel)) with (processSegmentF (processSegment fuel)).
  apply processSegmentF_spec; [exact Ht|].
  intros t Hs Htt. apply IH; [exact Htt | lia].
Qed.

Lemma eachParagraph_spec (paragraphs : list jsstring) :
  exists out,
    (forall acc, eachParagraph paragraphs limit acc = Some (acc ++ out)) /\
    nonWhitespace (concat out) = nonWhitespace (concat paragraphs) /\
    Forall (lineOK limit) out.
Proof.
  induction paragraphs as [|p ps [out [Hrun [Hnw Hok]]]].
  - exists []. repeat split; [intros; simpl; rewrite app_nil_r; reflexivity | constructor].
  - cbn [eachParagraph]. destruct (truthy (trim p)) eqn:E; cbn [negb].
    + destruct (processSegment_spec (S (length (trim p))) (trim p)
                  (trim_tidy _ E) ltac:(lia)) as [outp [Hp [Hnwp Hokp]]].
      exists (outp ++ out). repeat split.
      * intros acc. rewrite Hp. cbn [bind]. rewrite Hrun, app_assoc. reflexivity.
      * rewrite concat_app, !nonWhitespace_app, Hnwp, Hnw. simpl.
        rewrite nonWhitespace_app, nonWhitespace_trim. reflexivity.
      * apply Forall_app. split; assumption.
    + exists out. repeat split; [exact Hrun | | exact Hok].
      simpl. rewrite nonWhitespace_app, Hnw, <- (nonWhitespace_trim p).
      apply truthy_false in E. rewrite E. reflexivity.
Qed.

End ProcessSegment.

(** ** Masking and restoring the periods *)

Lemma Forall2_refl {A : Type} (R : A -> A -> Prop) (l : list A) :
  (forall x, R x x) -> Forall2 R l l.
Proof. intros H. induction l; constructor; auto. Qed.

Lemma Forall2_trans {A : Type} (R : A -> A -> Prop) :
  (forall x y z, R x y -> R y z -> R x z) ->
  forall l1 l2 l3, Forall2 R l1 l2 -> Forall2 R l2 l3 -> Forall2 R l1 l3.
Proof.
  intros HR l1 l2 l3 H12. revert l3.
  induction H12 as [|x y l1 l2 Hxy _ IH]; intros l3 H23; inversion H23; subst.
  - constructor.
  - constructor; [eapply HR; eassumption | apply IH; assumption].
Qed.

Lemma masks_refl (x : Z) : masks x x.
Proof. left. reflexivity. Qed.

Lemma masks_trans (x y z : Z) : masks x y -> masks y z -> masks x z.
Proof. unfold masks. intros [H1|[H1 H1']] [H2|[H2 H2']]; subst; auto; discriminate. Qed.

Lemma period_canonical (ic : bool) (x : Z) :
  canonicalize ic x = canonicalize ic 0x2E -> x = 0x2E.
Proof.
  unfold canonicalize. destruct ic; simpl; [|auto].
  destruct ((0x61 <=? x) && (x <=? 0x7A)) eqn:E; [|auto].
  apply andb_true_iff in E. destruct E as [E1 E2].
  apply Z.leb_le in E1. lia.
Qed.

(** A replacement of [\b(g)\.] by ['$1\u0000'] masks its match. *)
Lemma maskPeriod_masks (ic : bool) (g : regex) (s : jsstring) :
  Forall2 masks s (replaceAll ic (Cat WordB (Cat (Group g) (Lit 0x2E))) maskPeriod s).
Proof.
  apply replaceAll_rel.
  - intros before s0 st H.
    rewrite (exec_boundary_group_lit _ _ _ _ _ _ (period_canonical ic) H).
    unfold maskPeriod. apply Forall2_app.
    + apply Forall2_refl, masks_refl.
    + constructor; [right; split; reflexivity | constructor].
  - intros before c s0. destruct (exec _ _ _ _); intros; apply masks_refl.
Qed.

(** The protected text is the raw text with some periods masked. *)
Lemma protect_masks (raw : jsstring) : Forall2 masks raw (protect raw).
Proof.
  unfold protect. eapply Forall2_trans; [exact masks_trans | |].
  - apply (maskPeriod_masks true).
  - apply (maskPeriod_masks false).
Qed.

Lemma masks_unmask (raw masked : jsstring) :
  Forall2 masks raw masked -> ~ In 0 raw -> map unmask masked = raw.
Proof.
  induction 1 as [|x y l l' Hxy _ IH]; intros Hin; [reflexivity|].
  simpl. f_equal.
  - destruct Hxy as [->|[-> ->]]; [|reflexivity].
    unfold unmask. destruct (x =? 0) eqn:E; [|reflexivity].
    apply Z.eqb_eq in E. exfalso. apply Hin. left. exact E.
  - apply IH. intros H0. apply Hin. right. exact H0.
Qed.

Lemma masks_whitespace (raw masked : jsstring) :
  Forall2 masks raw masked -> forallb isWhiteSpace raw = true -> masked = raw.
Proof.
  induction 1 as [|x y l l' Hxy _ IH]; intros Hws; [reflexivity|].
  simpl in Hws. apply andb_true_iff in Hws. destruct Hws as [Hx Hl].
  f_equal; [|apply IH; exact Hl].
  destruct Hxy as [->|[-> ->]]; [reflexivity | discriminate].
Qed.

(** [line.replace(/\u0000/g, '.')] maps every sentinel to a period. *)
Lemma restore_map (line : jsstring) :
  replaceAll false sentinelRe toPeriod line = map unmask line.
Proof.
  assert (H : Forall2 (fun x y => y = unmask x) line
                (replaceAll false sentinelRe toPeriod line)).
  { apply replaceAll_rel.
    - intros before s st. unfold exec, sentinelRe. simpl.
      unfold consume, canonicalize. simpl.
      destruct s as [|c s]; [discriminate|].
      destruct (c =? 0) eqn:E; [|discriminate].
      intros H. injection H as <-. apply Z.eqb_eq in E. subst c.
      unfold matched, toPeriod. simpl. constructor; [reflexivity | constructor].
    - intros before c s. unfold exec, sentinelRe. simpl.
      unfold consume, canonicalize. simpl.
      destruct (c =? 0) eqn:E; [simpl; discriminate|].
      unfold unmask. rewrite E. reflexivity. }
  induction H as [|x y l l' Hxy _ IH]; [reflexivity|].
  simpl. rewrite <- IH, Hxy. reflexivity.
Qed.

(** ** Paragraphs *)

(** A line break is white space. *)
Lemma lineBreak_whitespace (before : option Z) (s : jsstring) (st : mstate) :
  exec false lineBreakRe before s = Some st -> nonWhitespace (matched st) = [].
Proof.
  unfold exec, lineBreakRe. simpl. unfold consume, canonicalize. simpl.
  destruct s as [|c s]; simpl; [discriminate|].
  destruct (c =? 13) eqn:E13; simpl.
  - apply Z.eqb_eq in E13. subst c.
    destruct s as [|c2 s]; simpl; [discriminate|].
    destruct (c2 =? 10) eqn:E10; simpl; [|discriminate].
    intros H. injection H as <-. apply Z.eqb_eq in E10. subst. reflexivity.
  - destruct (c =? 10) eqn:E10; simpl; [|discriminate].
    intros H. injection H as <-. apply Z.eqb_eq in E10. subst. reflexivity.
Qed.

(** Splitting into paragraphs loses white space only. *)
Lemma paragraphs_nonWhitespace (s : jsstring) :
  nonWhitespace (concat (split false lineBreakRe s)) = nonWhitespace s.
Proof.
  apply (split_view nonWhitespace).
  - apply nonWhitespace_app.
  - reflexivity.
  - intros before s0 st H. simpl. symmetry. eapply lineBreak_whitespace, H.
Qed.

(** ** [splitLyrics] as a whole *)

Lemma splitLyrics_spec (raw : jsstring) (limit : Z) :
  0 < limit ->
  exists lines,
    splitLyrics raw limit = Some (map (map unmask) lines) /\
    nonWhitespace (concat lines) = nonWhitespace (protect raw) /\
    Forall (lineOK limit) lines.
Proof.
  intros Hl. unfold splitLyrics.
  destruct raw as [|c raw]; simpl truthy; cbn [negb].
  - exists []. repeat split. constructor.
  - destruct (eachParagraph_spec limit Hl (split false lineBreakRe (protect (c :: raw))))
      as [out [Hrun [Hnw Hok]]].
    exists out. repeat split.
    + rewrite (Hrun []). cbn [bind app]. f_equal.
      apply map_ext. intros l. apply restore_map.
    + rewrite Hnw. apply paragraphs_nonWhitespace.
    + exact Hok.
Qed.

(** ** Recursive calls are on shorter segments *)

Lemma reflow_onlyShorter (text : jsstring)
    (self : jsstring -> Z -> list jsstring -> option (list jsstring))
    (limit : Z) (atoms : list jsstring) :
  Forall (fun a => (length a < length text)%nat) atoms ->
  forall cur acc,
    reflow (onlyShorter text self) atoms limit cur acc
    = reflow self atoms limit cur acc.
Proof.
  induction 1 as [|atom atoms Ha _ IH]; intros cur acc; [reflexivity|].
  cbn [reflow]. rewrite !IH.
  unfold onlyShorter at 1. apply Nat.ltb_lt in Ha. rewrite Ha.
  destruct (self atom limit _) as [acc2|]; cbn [bind]; [rewrite IH|]; reflexivity.
Qed.

Lemma trySplitAndReflow_onlyShorter (text : jsstring)
    (self : jsstring -> Z -> list jsstring -> option (list jsstring))
    (r : regex) (limit : Z) (acc : list jsstring) :
  wholeCapture r ->
  trySplitAndReflow (onlyShorter text self) text r limit acc
  = trySplitAndReflow self text r limit acc.
Proof.
  intros Hr. unfold trySplitAndReflow.
  destruct (length (split false r text) <? 3)%nat; [reflexivity|].
  destruct (length (atomsOf (split false r text)) <? 2)%nat eqn:E2; [reflexivity|].
  apply Nat.ltb_ge in E2.
  rewrite reflow_onlyShorter; [reflexivity|].
  apply Forall_forall. intros atom Hin.
  apply (atoms_shorter _ _ _ Hr E2 Hin).
Qed.

Lemma processSegmentF_onlyShorter (limit : Z)
    (self : jsstring -> Z -> list jsstring -> option (list jsstring))
    (text : jsstring) (acc : list jsstring) :
  0 < limit ->
  processSegmentF (onlyShorter text self) text limit acc
  = processSegmentF self text limit acc.
Proof.
  intros Hl. unfold processSegmentF.
  destruct (JSNum.leb (JSNum.of_int (len text)) (maxLen limit)) eqn:Eterm; [reflexivity|].
  pose proof (not_terminal_nonempty _ _ Hl Eterm) as Hne.
  rewrite trySplitAndReflow_onlyShorter by apply wholeCapture_majorRe.
  destruct (trySplitAndReflow self text majorRe limit acc) as [[[|] acc1]|];
    cbn [bind]; try reflexivity.
  rewrite trySplitAndReflow_onlyShorter by apply wholeCapture_minorRe.
  destruct (trySplitAndReflow self text minorRe limit acc1) as [[[|] acc2]|];
    cbn [bind]; try reflexivity.
  pose proof (cut_tail_shorter text limit Hl Hne) as Hshort. cbv zeta in Hshort.
  cbv zeta.
  destruct (truthy (trim (substring text _ None))); [|reflexivity].
  unfold onlyShorter. apply Nat.ltb_lt in Hshort. rewrite Hshort. reflexivity.
Qed.

(** ** Every call returns *)

Lemma reflow_total (text : jsstring)
    (self : jsstring -> Z -> list jsstring -> option (list jsstring))
    (limit : Z) (atoms : list jsstring) :
  (forall t acc, (length t < length text)%nat -> self t limit acc <> None) ->
  Forall (fun a => (length a < length text)%nat) atoms ->
  forall cur acc, reflow self atoms limit cur acc <> None.
Proof.
  intros Hself. induction 1 as [|atom atoms Ha _ IH]; intros cur acc; [discriminate|].
  cbn [reflow].
  destruct (truthy cur && _); [apply IH|].
  destruct (JSNum.ltb _ _); [|apply IH].
  pose proof (Hself atom (if truthy cur then acc ++ [cur] else acc) Ha) as Hs.
  destruct (self atom limit _) as [acc2|]; [|contradiction].
  cbn [bind]. apply IH.
Qed.

Lemma trySplitAndReflow_total (text : jsstring)
    (self : jsstring -> Z -> list jsstring -> option (list jsstring))
    (r : regex) (limit : Z) (acc : list jsstring) :
  wholeCapture r ->
  (forall t acc, (length t < length text)%nat -> self t limit acc <> None) ->
  trySplitAndReflow self text r limit acc <> None.
Proof.
  intros Hr Hself. unfold trySplitAndReflow.
  destruct (length (split false r text) <? 3)%nat; [discriminate|].
  destruct (length (atomsOf (split false r text)) <? 2)%nat eqn:E2; [discriminate|].
  apply Nat.ltb_ge in E2.
  assert (Hshort : Forall (fun a => (length a < length text)%nat)
                     (atomsOf (split false r text))).
  { apply Forall_forall. intros atom Hin. apply (atoms_shorter _ _ _ Hr E2 Hin). }
  pose proof (reflow_total text self limit _ Hself Hshort [] acc) as H.
  destruct (reflow self _ limit [] acc) as [[cur acc1]|]; [discriminate | contradiction].
Qed.

(** One call of [processSegment] returns when its calls on strictly
    shorter segments do. *)
Lemma processSegmentF_total (limit : Z)
    (self : jsstring -> Z -> list jsstring -> option (list jsstring))
    (text : jsstring) (acc : list jsstring) :
  0 < limit ->
  (forall t acc, (length t < length text)%nat -> self t limit acc <> None) ->
  processSegmentF self text limit acc <> None.
Proof.
  intros Hl Hself. unfold processSegmentF.
  destruct (JSNum.leb (JSNum.of_int (len text)) (maxLen limit)) eqn:Eterm; [discriminate|].
  pose proof (not_terminal_nonempty _ _ Hl Eterm) as Hne.
  pose proof (trySplitAndReflow_total text self majorRe limit acc
                wholeCapture_majorRe Hself) as H1.
  destruct (trySplitAndReflow self text majorRe limit acc) as [[[|] acc1]|];
    cbn [bind]; [discriminate | | contradiction].
  pose proof (trySplitAndReflow_total text self minorRe limit acc1
                wholeCapture_minorRe Hself) as H2.
  destruct (trySplitAndReflow self text minorRe limit acc1) as [[[|] acc2]|];
    cbn [bind]; [discriminate | | contradiction].
  pose proof (cut_tail_shorter text limit Hl Hne) as Hshort. cbv zeta in Hshort.
  cbv zeta.
  destruct (truthy (trim (substring text _ None))); [|discriminate].
  apply Hself. exact Hshort.
Qed.

(** [processSegment] returns on every segment shorter than its budget. *)
Lemma processSegment_total (limit : Z) (fuel : nat) :
  0 < limit ->
  forall text acc, (length text < fuel)%nat ->
  processSegment fuel text limit acc <> None.
Proof.
  intros Hl. induction fuel as [|fuel IH]; intros text acc Hlen; [lia|].
  cbn [processSegment]. apply processSegmentF_total; [exact Hl|].
  intros t acc' Ht. apply IH. lia.
Qed.

Lemma tidy_not_blank (s : jsstring) : tidy s -> nonWhitespace s <> [].
Proof.
  intros H. apply tidy_iff in H. destruct H as [H _].
  destruct s as [|c s]; [discriminate|]. simpl in *.
  destruct (isWhiteSpace c); [discriminate|]. simpl. discriminate.
Qed.

Lemma len_map_unmask (s : jsstring) : len (map unmask s) = len s.
Proof. unfold len. rewrite length_map. reflexivity. Qed.

(** ** Patterns that stay within a line *)

Section LineLocal.

Variable ic : bool.
Variable t : jsstring.
Hypothesis t_end : lineEnd t.

Lemma consume_local (ok : Z -> bool) (st st' : mstate) :
  ok 0xA = false -> sim t st st' ->
  simr t (consume ok st) (consume ok st').
Proof.
  intros Hok [Hs [Hc [Hr Hb]]]. unfold consume. rewrite Hr.
  destruct (ms_rest st) as [|c rest]; simpl.
  - destruct t_end as [->|[b ->]]; simpl; [exact I|]. rewrite Hok. exact I.
  - destruct (ok c); simpl; [|exact I].
    repeat split; simpl; congruence.
Qed.

Lemma moreOf_local (p : Z -> bool) (k k' : mstate -> option mstate) :
  p 0xA = false ->
  (forall s1 s1', sim t s1 s1' -> simr t (k s1) (k' s1')) ->
  forall rest before before' cap seen,
    isWordAt before' = isWordAt before ->
    simr t (moreOf p before cap seen rest k)
           (moreOf p before' cap seen (rest ++ t) k').
Proof.
  intros Hp Hk. induction rest as [|c rest IH]; intros before before' cap seen Hb.
  - simpl.
    assert (H0 : simr t (k (MState before seen [] cap))
                   (k' (MState before' seen t cap))).
    { apply Hk. repeat split; simpl; auto. }
    destruct t_end as [E|[b E]]; rewrite E in *; simpl; [exact H0|].
    rewrite Hp. exact H0.
  - simpl. destruct (p c).
    + specialize (IH before before' cap (c :: seen) Hb).
      destruct (moreOf p before cap (c :: seen) rest k) as [res|],
               (moreOf p before' cap (c :: seen) (rest ++ t) k') as [res'|];
        simpl in IH; try contradiction; [exact IH|].
      apply Hk. repeat split; simpl; auto.
    + apply Hk. repeat split; simpl; auto.
Qed.

Lemma run_local (r : regex) :
  lineLocal ic r = true ->
  forall st st' k k',
    sim t st st' ->
    (forall s1 s1', sim t s1 s1' -> simr t (k s1) (k' s1')) ->
    simr t (run ic r st k) (run ic r st' k').
Proof.
  induction r as [ |c|p|p|r1 IH1 r2 IH2|r1 IH1 r2 IH2|r1 IH1|r1 IH1|r1 IH1| | ];
    simpl; intros HL st st' k k' Hsim Hk.
  - apply Hk, Hsim.
  - apply negb_true_iff in HL.
    pose proof (consume_local
                  (fun x => canonicalize ic x =? canonicalize ic c) st st' HL Hsim) as H.
    destruct (consume _ st), (consume _ st'); simpl in H; try contradiction; auto.
  - apply negb_true_iff in HL.
    pose proof (consume_local p st st' HL Hsim) as H.
    destruct (consume p st), (consume p st'); simpl in H; try contradiction; auto.
  - apply negb_true_iff in HL.
    pose proof (consume_local p st st' HL Hsim) as H.
    destruct (consume p st) as [s1|], (consume p st') as [s1'|];
      simpl in H; try contradiction; [|exact I].
    destruct H as [Hs [Hc [Hr Hb]]]. rewrite Hs, Hc, Hr.
    apply moreOf_local; assumption.
  - apply andb_true_iff in HL. destruct HL as [HL1 HL2].
    apply IH1; [exact HL1 | exact Hsim|].
    intros s1 s1' H1. apply IH2; assumption.
  - apply andb_true_iff in HL. destruct HL as [HL1 HL2].
    specialize (IH1 HL1 st st' k k' Hsim Hk).
    destruct (run ic r1 st k), (run ic r1 st' k'); simpl in IH1; try contradiction;
      [exact IH1|].
    apply IH2; assumption.
  - specialize (IH1 HL st st' k k' Hsim Hk).
    destruct (run ic r1 st k), (run ic r1 st' k'); simpl in IH1; try contradiction;
      [exact IH1|].
    apply Hk, Hsim.
  - assert (Hn : length (ms_seen st') = length (ms_seen st)).
    { destruct Hsim as [Hs _]. rewrite Hs. reflexivity. }
    rewrite Hn. apply IH1; [exact HL | exact Hsim|].
    intros s1 s1' [Hs [Hc [Hr Hb]]]. apply Hk.
    repeat split; simpl; congruence.
  - discriminate.
  - destruct Hsim as [Hs [Hc [Hr Hb]]].
    assert (Hp : isWordAt (prevUnit st') = isWordAt (prevUnit st)).
    { unfold prevUnit. rewrite Hs. destruct (ms_seen st); [exact Hb | reflexivity]. }
    assert (Hx : isWordAt (nextUnit st') = isWordAt (nextUnit st)).
    { unfold nextUnit. rewrite Hr. destruct (ms_rest st); simpl; [|reflexivity].
      destruct t_end as [->|[b ->]]; reflexivity. }
    rewrite Hp, Hx. destruct (xorb _ _); [|exact I].
    apply Hk. repeat split; assumption.
  - discriminate.
Qed.

Lemma exec_local (r : regex) (before before' : option Z) (s : jsstring) :
  lineLocal ic r = true ->
  isWordAt before' = isWordAt before ->
  simr t (exec ic r before s) (exec ic r before' (s ++ t)).
Proof.
  intros HL Hb. unfold exec. apply run_local; [exact HL| |].
  - repeat split; simpl; auto.
  - intros s1 s1' H. exact H.
Qed.

End LineLocal.

Section ReplaceLocal.

Variables (ic : bool) (r : regex) (repl : mstate -> jsstring).
Hypothesis r_local : lineLocal ic r = true.
Hypothesis repl_sim : forall t st st', sim t st st' -> repl st' = repl st.

Lemma lineEnd_nil : lineEnd [].
Proof. left. reflexivity. Qed.

Lemma lineEnd_feed (b : jsstring) : lineEnd (0xA :: b).
Proof. right. exists b. reflexivity. Qed.

(** The result of the loop does not depend on the budget, once it is
    large enough, nor on the unit before the start beyond its class. *)
Lemma replace_loop_stable (f1 : nat) :
  forall f2 before before' s,
    isWordAt before' = isWordAt before ->
    (length s < f1)%nat -> (length s < f2)%nat ->
    replace_loop f2 ic r repl before' s = replace_loop f1 ic r repl before s.
Proof.
  induction f1 as [|f1 IH]; intros f2 before before' s Hb H1 H2; [lia|].
  destruct f2 as [|f2]; [lia|]. simpl.
  pose proof (exec_local ic [] lineEnd_nil r before before' s r_local Hb) as Hx.
  rewrite app_nil_r in Hx.
  pose proof (matched_rest_shorter ic r before s) as Hshort.
  destruct (exec ic r before s) as [st|], (exec ic r before' s) as [st'|];
    simpl in Hx; try contradiction.
  - pose proof (repl_sim _ _ _ Hx) as Hrepl.
    destruct Hx as [Hs [_ [Hr _]]]. rewrite app_nil_r in Hr.
    rewrite Hs, Hr, Hrepl. specialize (Hshort st eq_refl).
    destruct (ms_seen st) as [|l seen].
    + destruct s as [|c s']; [reflexivity|].
      f_equal. f_equal. apply IH; simpl in *; [reflexivity | lia | lia].
    + f_equal. apply IH; [reflexivity | |];
        assert (length (ms_rest st) < length s)%nat by (apply Hshort; discriminate); lia.
  - destruct s as [|c s']; [reflexivity|].
    f_equal. apply IH; simpl in *; [reflexivity | lia | lia].
Qed.

(** A global replace with a pattern that stays within a line works line
    by line. *)
Lemma replace_loop_line (b : jsstring) (f3 : nat) (f1 : nat) :
  (length b < f3)%nat ->
  forall f2 before before' s,
    isWordAt before' = isWordAt before ->
    (length s < f1)%nat -> (length s + S (length b) < f2)%nat ->
    replace_loop f2 ic r repl before' (s ++ 0xA :: b)
    = replace_loop f1 ic r repl before s
      ++ 0xA :: replace_loop f3 ic r repl None b.
Proof.
  intros H3.
  induction f1 as [|f1 IH]; intros f2 before before' s Hb H1 H2; [lia|].
  destruct f2 as [|f2]; [lia|]. simpl.
  pose proof (exec_local ic (0xA :: b) (lineEnd_feed b) r before before' s r_local Hb)
    as Hx.
  pose proof (matched_rest_shorter ic r before s) as Hshort.
  assert (Htail : replace_loop f2 ic r repl (Some 0xA) b
                  = replace_loop f3 ic r repl None b).
  { apply replace_loop_stable; [reflexivity | lia | lia]. }
  destruct (exec ic r before s) as [st|],
           (exec ic r before' (s ++ 0xA :: b)) as [st'|];
    simpl in Hx; try contradiction.
  - pose proof (repl_sim _ _ _ Hx) as Hrepl.
    destruct Hx as [Hs [_ [Hr _]]].
    rewrite Hs, Hr, Hrepl. specialize (Hshort st eq_refl).
    destruct (ms_seen st) as [|l seen].
    + destruct s as [|c s']; simpl.
      * rewrite Htail. reflexivity.
      * rewrite <- app_assoc. simpl. f_equal. f_equal.
        apply IH; simpl in *; [reflexivity | lia | lia].
    + rewrite <- app_assoc. f_equal.
      assert (length (ms_rest st) < length s)%nat by (apply Hshort; discriminate).
      apply IH; [reflexivity | lia | lia].
  - destruct s as [|c s']; simpl.
    + rewrite Htail. reflexivity.
    + f_equal. apply IH; simpl in *; [reflexivity | lia | lia].
Qed.

Lemma replaceAll_line (a b : jsstring) :
  replaceAll ic r repl (a ++ 0xA :: b)
  = replaceAll ic r repl a ++ 0xA :: replaceAll ic r repl b.
Proof.
  unfold replaceAll. apply replace_loop_line; [lia | reflexivity | lia |].
  rewrite length_app. simpl. lia.
Qed.

End ReplaceLocal.

Lemma maskPeriod_sim (t : jsstring) (st st' : mstate) :
  sim t st st' -> maskPeriod st' = maskPeriod st.
Proof.
  intros [_ [Hc _]]. unfold maskPeriod, capture1. rewrite Hc. reflexivity.
Qed.

(** Masking works paragraph by paragraph. *)
Lemma protect_line (a b : jsstring) :
  protect (a ++ 0xA :: b) = protect a ++ 0xA :: protect b.
Proof.
  unfold protect.
  rewrite (replaceAll_line true abbreviationRe maskPeriod eq_refl maskPeriod_sim).
  apply (replaceAll_line false initialRe maskPeriod eq_refl maskPeriod_sim).
Qed.

(** ** Paragraphs, line by line *)

Lemma exec_lineBreak (before : option Z) (s : jsstring) :
  exec false lineBreakRe before s
  = match lineBreakAt s with
    | Some (seen, rest) => Some (MState before seen rest None)
    | None => None
    end.
Proof.
  unfold exec, lineBreakRe, lineBreakAt. simpl. unfold consume, canonicalize. simpl.
  destruct s as [|c s]; simpl; [reflexivity|].
  destruct (c =? 13) eqn:E13; simpl.
  - apply Z.eqb_eq in E13. subst c.
    destruct s as [|c2 s]; simpl; [reflexivity|].
    destruct (c2 =? 10) eqn:E10; [apply Z.eqb_eq in E10; subst c2|]; reflexivity.
  - destruct (c =? 10) eqn:E10; [apply Z.eqb_eq in E10; subst c|]; reflexivity.
Qed.

Lemma lineBreakAt_shorter (s seen rest : jsstring) :
  lineBreakAt s = Some (seen, rest) -> (length rest < length s)%nat.
Proof.
  unfold lineBreakAt. destruct s as [|c s]; [discriminate|].
  destruct (c =? 13).
  - destruct s as [|c2 s]; [discriminate|].
    destruct (c2 =? 10); [|discriminate].
    intros H. injection H as _ <-. simpl. lia.
  - destruct (c =? 10); [|discriminate].
    intros H. injection H as _ <-. simpl. lia.
Qed.

(** One round of the [split] loop on [/\r?\n/]. *)
Lemma split_loop_lineBreak (fuel : nat) (before : option Z) (part : jsstring)
    (c : Z) (s : jsstring) :
  split_loop (S fuel) false lineBreakRe before part (c :: s)
  = match lineBreakAt (c :: s) with
    | Some (_, rest) => rev part :: split_loop fuel false lineBreakRe (Some 0xA) [] rest
    | None => split_loop fuel false lineBreakRe (Some c) (c :: part) s
    end.
Proof.
  cbn [split_loop]. rewrite exec_lineBreak.
  unfold lineBreakAt.
  destruct (c =? 13).
  - destruct s as [|c2 s]; [reflexivity|].
    destruct (c2 =? 10); reflexivity.
  - destruct (c =? 10); reflexivity.
Qed.

Lemma split_loop_lineBreak_stable (f1 : nat) :
  forall f2 before before' part s,
    (length s <= f1)%nat -> (length s <= f2)%nat ->
    split_loop f2 false lineBreakRe before' part s
    = split_loop f1 false lineBreakRe before part s.
Proof.
  induction f1 as [|f1 IH]; intros f2 before before' part s H1 H2.
  - destruct s; [|simpl in H1; lia]. rewrite !split_loop_nil. reflexivity.
  - destruct s as [|c s]; [rewrite !split_loop_nil; reflexivity|].
    destruct f2 as [|f2]; [simpl in H2; lia|].
    rewrite !split_loop_lineBreak.
    pose proof (lineBreakAt_shorter (c :: s)) as Hshort.
    destruct (lineBreakAt (c :: s)) as [[seen rest]|].
    + specialize (Hshort _ _ eq_refl). f_equal. apply IH; simpl in *; lia.
    + apply IH; simpl in *; lia.
Qed.

Lemma trimStart_snoc_ws (s : jsstring) (c : Z) :
  isWhiteSpace c = true ->
  trimStart (s ++ [c]) = trimStart s ++ [c] \/
  (trimStart (s ++ [c]) = [] /\ trimStart s = []).
Proof.
  intros Hc. induction s as [|x s IH]; simpl.
  - rewrite Hc. right. split; reflexivity.
  - destruct (isWhiteSpace x); [exact IH | left; reflexivity].
Qed.

Lemma trim_snoc_ws (s : jsstring) (c : Z) :
  isWhiteSpace c = true -> trim (s ++ [c]) = trim s.
Proof.
  intros Hc. unfold trim.
  destruct (trimStart_snoc_ws s c Hc) as [E|[E1 E2]].
  - rewrite E. unfold trimEnd. rewrite rev_app_distr. simpl. rewrite Hc. reflexivity.
  - rewrite E1, E2. reflexivity.
Qed.

(** The paragraphs of [x], a line feed and [y] are, up to trimming, those
    of [x] followed by those of [y]. *)
Lemma paragraphs_line (y : jsstring) (f3 : nat) (f1 : nat) :
  (length y <= f3)%nat ->
  forall f2 before before' part x,
    (length x <= f1)%nat -> (length x + S (length y) <= f2)%nat ->
    map trim (split_loop f2 false lineBreakRe before' part (x ++ 0xA :: y))
    = map trim (split_loop f1 false lineBreakRe before part x)
      ++ map trim (split_loop f3 false lineBreakRe None [] y).
Proof.
  intros H3.
  assert (Htail : forall f before,
            (length y <= f)%nat ->
            split_loop f false lineBreakRe before [] y
            = split_loop f3 false lineBreakRe None [] y).
  { intros f before Hf. apply split_loop_lineBreak_stable; assumption. }
  induction f1 as [|f1 IH]; intros f2 before before' part x H1 H2.
  - destruct x; [|simpl in H1; lia]. cbn [app].
    destruct f2 as [|f2]; [simpl in H2; lia|].
    rewrite split_loop_lineBreak, split_loop_nil. simpl.
    rewrite Htail by (simpl in H2; lia). reflexivity.
  - destruct f2 as [|f2]; [lia|].
    destruct x as [|c x].
    + cbn [app]. rewrite split_loop_lineBreak, split_loop_nil. simpl.
      rewrite Htail by (simpl in H2; lia). reflexivity.
    + cbn [app]. rewrite !split_loop_lineBreak. unfold lineBreakAt.
      destruct (c =? 13) eqn:E13.
      * destruct x as [|c2 x].
        -- cbn [app]. simpl. rewrite split_loop_nil. simpl.
           rewrite Htail by (simpl in H2; lia).
           f_equal. apply Z.eqb_eq in E13. subst c.
           symmetry. apply trim_snoc_ws. reflexivity.
        -- cbn [app]. destruct (c2 =? 10).
           ++ simpl. f_equal. apply IH; simpl in *; lia.
           ++ apply (IH f2 _ _ _ (c2 :: x)); simpl in *; lia.
      * destruct (c =? 10).
        -- simpl. f_equal. apply IH; simpl in *; lia.
        -- apply IH; simpl in *; lia.
Qed.

Lemma split_lineBreak_loop (s : jsstring) :
  split false lineBreakRe s
  = split_loop (2 * length s + 1) false lineBreakRe None [] s.
Proof. destruct s; reflexivity. Qed.

Lemma split_line (a b : jsstring) :
  map trim (split false lineBreakRe (a ++ 0xA :: b))
  = map trim (split false lineBreakRe a) ++ map trim (split false lineBreakRe b).
Proof.
  rewrite !split_lineBreak_loop.
  apply paragraphs_line; [lia | lia |].
  rewrite length_app. simpl. lia.
Qed.

(** ** The paragraph loop *)

Lemma eachParagraph_trim (limit : Z) (ps : list jsstring) :
  forall ps' acc,
    map trim ps = map trim ps' ->
    eachParagraph ps limit acc = eachParagraph ps' limit acc.
Proof.
  induction ps as [|p ps IH]; intros [|p' ps'] acc H; try discriminate; [reflexivity|].
  injection H as Hp Hps. cbn [eachParagraph]. rewrite Hp.
  destruct (negb (truthy (trim p'))); [apply IH; exact Hps|].
  destruct (processSegment _ _ _ _); cbn [bind]; [apply IH; exact Hps | reflexivity].
Qed.

Lemma eachParagraph_app (limit : Z) (ps1 ps2 : list jsstring) :
  forall acc,
    eachParagraph (ps1 ++ ps2) limit acc
    = match eachParagraph ps1 limit acc with
      | Some acc1 => eachParagraph ps2 limit acc1
      | None => None
      end.
Proof.
  induction ps1 as [|p ps1 IH]; intros acc; [reflexivity|].
  simpl app. cbn [eachParagraph].
  destruct (negb (truthy (trim p))); [apply IH|].
  destruct (processSegment _ _ _ _); cbn [bind]; [apply IH | reflexivity].
Qed.

Lemma eachParagraph_blank (limit : Z) (ps : list jsstring) (acc : list jsstring) :
  Forall (fun p => trim p = []) ps -> eachParagraph ps limit acc = Some acc.
Proof.
  induction 1 as [|p ps Hp _ IH]; [reflexivity|].
  cbn [eachParagraph]. rewrite Hp. exact IH.
Qed.

Lemma splitLyrics_unfold (raw : jsstring) (limit : Z) :
  splitLyrics raw limit
  = match eachParagraph (split false lineBreakRe (protect raw)) limit [] with
    | Some lines => Some (map (replaceAll false sentinelRe toPeriod) lines)
    | None => None
    end.
Proof. destruct raw; reflexivity. Qed.

Lemma blank_paragraphs (ps : list jsstring) :
  Forall (fun p => trim p = []) ps -> nonWhitespace (concat ps) = [].
Proof.
  induction 1 as [|p ps Hp _ IH]; [reflexivity|].
  simpl. rewrite nonWhitespace_app, IH, <- (nonWhitespace_trim p), Hp. reflexivity.
Qed.

(** * The properties of [splitLyrics] *)

(** C1 (as amended): for every input string without the sentinel U+0000 and
    every positive limit, [splitLyrics] returns lines whose units that are
    not white space, concatenated in output order, are exactly those of the
    input's paragraphs in order. *)
Theorem splitLyrics_preserves_text (raw : jsstring) (limit : Z) :
  0 < limit -> ~ In 0 raw ->
  exists lines,
    splitLyrics raw limit = Some lines /\
    nonWhitespace (concat lines)
    = nonWhitespace (concat (split false lineBreakRe raw)).
Proof.
  intros Hl H0.
  destruct (splitLyrics_spec raw limit Hl) as [lines [Hrun [Hnw _]]].
  exists (map (map unmask) lines). split; [exact Hrun|].
  rewrite <- concat_map, nonWhitespace_map_unmask, Hnw.
  rewrite <- nonWhitespace_map_unmask.
  rewrite (masks_unmask _ _ (protect_masks raw) H0).
  symmetry. apply paragraphs_nonWhitespace.
Qed.

Lemma splitLyrics_preserves_text_witness :
  0 < 20 /\ ~ In 0 (js "Hello world. This is a test sentence that is quite long indeed.") /\
  exists lines,
    splitLyrics (js "Hello world. This is a test sentence that is quite long indeed.") 20
    = Some lines /\
    nonWhitespace (concat lines)
    = nonWhitespace
        (concat (split false lineBreakRe
                   (js "Hello world. This is a test sentence that is quite long indeed."))).
Proof.
  assert (H0 : ~ In 0 (js "Hello world. This is a test sentence that is quite long indeed.")).
  { vm_compute. lia. }
  split; [reflexivity|]. split; [exact H0|].
  apply (splitLyrics_preserves_text _ 20); [reflexivity | exact H0].
Defined.

(** C1 as stated fails: an input that holds U+0000 comes back with a period
    in its place. *)
Lemma splitLyrics_sentinel_input_changed :
  ~ (forall raw limit, 0 < limit ->
       exists lines,
         splitLyrics raw limit = Some lines /\
         nonWhitespace (concat lines)
         = nonWhitespace (concat (split false lineBreakRe raw))).
Proof.
  intros H. destruct (H [0x61; 0; 0x62] 14 eq_refl) as [lines [E N]].
  vm_compute in E. injection E as <-. vm_compute in N. discriminate.
Qed.

(** C2: for every input string and every positive limit [splitLyrics]
    returns; [processSegment] returns on every segment with a budget of one
    nested call per unit; and a call of [processSegment] passes to its
    recursive calls (the tail after a cut, an oversized atom of the packer)
    only segments strictly shorter than its own: a callee that refuses every
    other segment changes nothing, whatever the callee, and never makes the
    call fail. *)
Theorem splitLyrics_terminates (raw : jsstring) (limit : Z) :
  0 < limit ->
  (exists lines, splitLyrics raw limit = Some lines) /\
  (forall fuel text acc,
     (length text < fuel)%nat -> processSegment fuel text limit acc <> None) /\
  (forall self text acc,
     processSegmentF (onlyShorter text self) text limit acc
     = processSegmentF self text limit acc) /\
  (forall text acc,
     processSegmentF (onlyShorter text (fun _ _ lines => Some lines)) text limit acc
     <> None).
Proof.
  intros Hl. split; [|split; [|split]].
  - destruct (splitLyrics_spec raw limit Hl) as [lines [Hrun _]].
    eexists. exact Hrun.
  - intros fuel. apply processSegment_total. exact Hl.
  - intros self text acc. apply processSegmentF_onlyShorter. exact Hl.
  - intros text acc. apply processSegmentF_total; [exact Hl|].
    intros t acc' Ht. unfold onlyShorter. apply Nat.ltb_lt in Ht. rewrite Ht.
    discriminate.
Qed.

Lemma splitLyrics_terminates_witness :
  0 < 10 /\
  exists lines, splitLyrics (js "semi-detached house - built in 1990") 10 = Some lines.
Proof.
  split; [reflexivity|].
  apply (splitLyrics_terminates (js "semi-detached house - built in 1990") 10).
  reflexivity.
Defined.

(** C3: for every input string and every positive limit, every line that
    [splitLyrics] returns has length at most [max(limit * 1.5, limit + 5)].
    No line needs to be excepted: a hard cut yields at most [limit] units
    and the packer hands an oversized atom back to [processSegment]. *)
Theorem splitLyrics_lines_within_maxLen (raw : jsstring) (limit : Z) :
  0 < limit ->
  exists lines,
    splitLyrics raw limit = Some lines /\ Forall (withinMaxLen limit) lines.
Proof.
  intros Hl.
  destruct (splitLyrics_spec raw limit Hl) as [lines [Hrun [_ Hok]]].
  exists (map (map unmask) lines). split; [exact Hrun|].
  apply Forall_map. eapply Forall_impl; [|exact Hok].
  intros l [_ H]. unfold withinMaxLen in *. rewrite len_map_unmask. exact H.
Qed.

Lemma splitLyrics_lines_within_maxLen_witness :
  0 < 10 /\
  exists lines,
    splitLyrics (js "semi-detached house - built in 1990") 10 = Some lines /\
    Forall (withinMaxLen 10) lines.
Proof.
  split; [reflexivity|].
  apply (splitLyrics_lines_within_maxLen (js "semi-detached house - built in 1990") 10).
  reflexivity.
Defined.

(** C4: for every input string and every positive limit, every line that
    [splitLyrics] returns is not empty, equals its own trim and is not made
    of white space only; and a call of [processSegment] on a tidy segment
    leaves a tidy accumulator tidy. *)
Theorem splitLyrics_lines_tidy (raw : jsstring) (limit : Z) :
  0 < limit ->
  (exists lines,
     splitLyrics raw limit = Some lines /\
     Forall (fun line => tidy line /\ nonWhitespace line <> []) lines) /\
  (forall fuel text acc,
     tidy text -> (length text < fuel)%nat -> Forall tidy acc ->
     exists acc', processSegment fuel text limit acc = Some acc' /\ Forall tidy acc').
Proof.
  intros Hl. split.
  - destruct (splitLyrics_spec raw limit Hl) as [lines [Hrun [_ Hok]]].
    exists (map (map unmask) lines). split; [exact Hrun|].
    apply Forall_map. eapply Forall_impl; [|exact Hok].
    intros l [H _]. apply tidy_map_unmask in H.
    split; [exact H | apply tidy_not_blank; exact H].
  - intros fuel text acc Ht Hf Hacc.
    destruct (processSegment_spec limit Hl fuel text Ht Hf) as [out [Hrun [_ Hok]]].
    exists (acc ++ out). split; [apply Hrun|].
    apply Forall_app. split; [exact Hacc|].
    eapply Forall_impl; [|exact Hok]. intros l [H _]. exact H.
Qed.

Lemma splitLyrics_lines_tidy_witness :
  0 < 20 /\
  (exists lines,
     splitLyrics (js "  Hello world.  This is a test sentence that is quite long indeed. ") 20
     = Some lines /\
     Forall (fun line => tidy line /\ nonWhitespace line <> []) lines) /\
  (forall fuel text acc,
     tidy text -> (length text < fuel)%nat -> Forall tidy acc ->
     exists acc', processSegment fuel text 20 acc = Some acc' /\ Forall tidy acc').
Proof.
  split; [reflexivity|].
  apply (splitLyrics_lines_tidy
           (js "  Hello world.  This is a test sentence that is quite long indeed. ") 20).
  reflexivity.
Defined.

(** C5 (as amended): for every text and positive limit, when the last
    space at or before [limit] lies before [limit * 0.4] and the first space
    after [limit] is absent or beyond [limit * 1.4], [findBestSplitIndex]
    returns what [lastIndexOf] found and the caller cuts accordingly.  If
    there is no space at or before [limit] at all, that is -1 and the caller
    cuts at index [limit]; if there is one, it is the index of that last
    space, the caller cuts there (and not at [limit]), and the head it
    pushes is shorter than [limit * 0.4].  The caller is the body of
    [processSegment] once the two punctuation strategies have declined. *)
Theorem findBestSplitIndex_no_nearby_space (text : jsstring) (limit : Z) :
  0 < limit ->
  JSNum.ltb (JSNum.of_int (lastIndexOf text 0x20 limit)) (scaled limit c0_4) = true ->
  (indexOf text 0x20 limit = -1 \/
   JSNum.leb (JSNum.of_int (indexOf text 0x20 limit)) (scaled limit c1_4) = false) ->
  let index := lastIndexOf text 0x20 limit in
  let cut := if index =? -1 then limit else index in
  let head := trim (substring text 0 (Some cut)) in
  let tail := trim (substring text cut None) in
  findBestSplitIndex text limit = index /\
  ((index = -1 /\ cut = limit /\ forall j, spaceAt text j -> limit < j) \/
   (spaceAt text index /\ cut = index /\ index <= limit /\
    (forall j, spaceAt text j -> j <= limit -> j <= index) /\
    JSNum.ltb (JSNum.of_int (len head)) (scaled limit c0_4) = true)) /\
  forall self acc,
    JSNum.leb (JSNum.of_int (len text)) (maxLen limit) = false ->
    trySplitAndReflow self text majorRe limit acc = Some (false, acc) ->
    trySplitAndReflow self text minorRe limit acc = Some (false, acc) ->
    processSegmentF self text limit acc =
    (let acc' := if truthy head then acc ++ [head] else acc in
     if truthy tail then self tail limit acc' else Some acc').
Proof.
  intros Hl Hearly Hlate. cbv zeta.
  assert (Hnear : negb (indexOf text 0x20 limit =? -1)
                  && JSNum.leb (JSNum.of_int (indexOf text 0x20 limit)) (scaled limit c1_4)
                  = false).
  { destruct Hlate as [H|H]; rewrite H; [reflexivity | apply andb_false_r]. }
  assert (Hfind : findBestSplitIndex text limit = lastIndexOf text 0x20 limit).
  { unfold findBestSplitIndex. cbv zeta. rewrite Hnear, andb_false_r.
    destruct (lastIndexOf text 0x20 limit =? -1) eqn:E; [|reflexivity].
    apply Z.eqb_eq in E. symmetry. exact E. }
  pose proof (lastIndexOf_spec text 0x20 limit) as HL. cbv zeta in HL.
  assert (Hlast : forall j, spaceAt text j -> j <= limit ->
                            j <= lastIndexOf text 0x20 limit).
  { intros j [Hj0 Hj] Hle.
    pose proof (lastIndexOf_last text 0x20 limit (Z.to_nat j) Hj ltac:(lia)). lia. }
  set (index := lastIndexOf text 0x20 limit) in *.
  split; [exact Hfind|]. split.
  - destruct HL as [HL|[HL1 HL2]].
    + left. rewrite HL. split; [reflexivity|]. split; [reflexivity|].
      intros j Hj. destruct (Z_le_gt_dec j limit) as [Hle|Hgt]; [|lia].
      pose proof (Hlast j Hj Hle). destruct Hj. lia.
    + right.
      assert (Ecut : (if index =? -1 then limit else index) = index).
      { replace (index =? -1) with false; [reflexivity|].
        symmetry. apply Z.eqb_neq. lia. }
      rewrite Ecut.
      split; [split; [lia | exact HL2]|]. split; [reflexivity|].
      split; [lia|]. split; [exact Hlast|].
      unfold JSNum.ltb in *. apply Z.ltb_lt. apply Z.ltb_lt in Hearly.
      assert (Hlen : len (trim (substring text 0 (Some index))) <= index).
      { rewrite substring_prefix by lia. unfold len.
        pose proof (length_trim (firstn (Z.to_nat index) text)) as H1.
        pose proof (firstn_le_length (Z.to_nat index) text) as H2.
        rewrite length_firstn in H1. lia. }
      pose proof (of_int_le _ _ Hlen). lia.
  - intros self acc Hterm H1 H2. unfold processSegmentF.
    rewrite Hterm, H1. cbn [bind]. rewrite H2. cbn [bind].
    rewrite Hfind. reflexivity.
Qed.

Lemma findBestSplitIndex_no_nearby_space_witness :
  (let text := js "A bcdefghijklmnopqrstuvwxyz" in
   0 < 10 /\
   JSNum.ltb (JSNum.of_int (lastIndexOf text 0x20 10)) (scaled 10 c0_4) = true /\
   indexOf text 0x20 10 = -1 /\
   findBestSplitIndex text 10 = 1 /\
   processSegmentF (processSegment 40) text 10 []
   = Some [js "A"; js "bcdefghijk"; js "lmnopqrstuvwxyz"]) /\
  (let text := js "abcdefghijklmnopqrstuvwxyzabcdefghijklmnopqrstuvwxyz" in
   0 < 10 /\
   JSNum.ltb (JSNum.of_int (lastIndexOf text 0x20 10)) (scaled 10 c0_4) = true /\
   indexOf text 0x20 10 = -1 /\
   findBestSplitIndex text 10 = -1 /\
   processSegmentF (processSegment 60) text 10 []
   = Some [js "abcdefghij"; js "klmnopqrst"; js "uvwxyzabcd"; js "efghijklmn";
           js "opqrstuvwxyz"]).
Proof.
  split.
  - intros text.
    assert (H1 : JSNum.ltb (JSNum.of_int (lastIndexOf text 0x20 10)) (scaled 10 c0_4) = true)
      by (vm_compute; reflexivity).
    assert (H2 : indexOf text 0x20 10 = -1) by (vm_compute; reflexivity).
    assert (Ht : JSNum.leb (JSNum.of_int (len text)) (maxLen 10) = false)
      by (vm_compute; reflexivity).
    assert (Ha : trySplitAndReflow (processSegment 40) text majorRe 10 [] = Some (false, []))
      by (vm_compute; reflexivity).
    assert (Hb : trySplitAndReflow (processSegment 40) text minorRe 10 [] = Some (false, []))
      by (vm_compute; reflexivity).
    pose proof (findBestSplitIndex_no_nearby_space text 10 eq_refl H1 (or_introl H2)) as H.
    cbv zeta in H. destruct H as [Hf [_ Hcut]].
    specialize (Hcut (processSegment 40) [] Ht Ha Hb).
    split; [reflexivity|]. split; [exact H1|]. split; [exact H2|]. split.
    + rewrite Hf. vm_compute. reflexivity.
    + rewrite Hcut. vm_compute. reflexivity.
  - intros text.
    assert (H1 : JSNum.ltb (JSNum.of_int (lastIndexOf text 0x20 10)) (scaled 10 c0_4) = true)
      by (vm_compute; reflexivity).
    assert (H2 : indexOf text 0x20 10 = -1) by (vm_compute; reflexivity).
    assert (Ht : JSNum.leb (JSNum.of_int (len text)) (maxLen 10) = false)
      by (vm_compute; reflexivity).
    assert (Ha : trySplitAndReflow (processSegment 60) text majorRe 10 [] = Some (false, []))
      by (vm_compute; reflexivity).
    assert (Hb : trySplitAndReflow (processSegment 60) text minorRe 10 [] = Some (false, []))
      by (vm_compute; reflexivity).
    pose proof (findBestSplitIndex_no_nearby_space text 10 eq_refl H1 (or_introl H2)) as H.
    cbv zeta in H. destruct H as [Hf [_ Hcut]].
    specialize (Hcut (processSegment 60) [] Ht Ha Hb).
    split; [reflexivity|]. split; [exact H1|]. split; [exact H2|]. split.
    + rewrite Hf. vm_compute. reflexivity.
    + rewrite Hcut. vm_compute. reflexivity.
Defined.

(** C5 as stated fails: with a space before [limit * 0.4] and none after
    [limit], [findBestSplitIndex] returns the early space, not -1. *)
Lemma findBestSplitIndex_keeps_early_space :
  ~ (forall text limit,
       0 < limit ->
       JSNum.ltb (JSNum.of_int (lastIndexOf text 0x20 limit)) (scaled limit c0_4) = true ->
       (indexOf text 0x20 limit = -1 \/
        JSNum.leb (JSNum.of_int (indexOf text 0x20 limit)) (scaled limit c1_4) = false) ->
       findBestSplitIndex text limit = -1).
Proof.
  intros H.
  assert (E : findBestSplitIndex (js "A bcdefghijklmnopqrstuvwxyz") 10 = -1).
  { apply H; [reflexivity | vm_compute; reflexivity | left; vm_compute; reflexivity]. }
  vm_compute in E. discriminate E.
Qed.

(** ** The examples of the specification *)

Lemma processSegment_terminal (fuel : nat) (text : jsstring) (limit : Z)
    (acc : list jsstring) :
  JSNum.leb (JSNum.of_int (len text)) (maxLen limit) = true ->
  processSegment (S fuel) text limit acc = Some (acc ++ [text]).
Proof. intros H. cbn [processSegment]. unfold processSegmentF. rewrite H. reflexivity. Qed.

Lemma hyphenExample_small_limits :
  forallb wordKept (map Z.of_nat (seq 10 25)) = true.
Proof. vm_compute. reflexivity. Qed.

Lemma hyphenExample_large_limits (limit : Z) :
  35 <= limit -> splitLyrics hyphenExample limit = Some [hyphenExample].
Proof.
  intros Hl. unfold splitLyrics.
  replace (truthy hyphenExample) with true by (vm_compute; reflexivity).
  cbn [negb].
  replace (split false lineBreakRe (protect hyphenExample)) with [hyphenExample]
    by (vm_compute; reflexivity).
  cbn [eachParagraph].
  replace (trim hyphenExample) with hyphenExample by (vm_compute; reflexivity).
  replace (truthy hyphenExample) with true by (vm_compute; reflexivity).
  cbn [negb]. rewrite processSegment_terminal.
  - cbn [bind app map]. rewrite restore_map.
    replace (map unmask hyphenExample) with hyphenExample by (vm_compute; reflexivity).
    reflexivity.
  - unfold JSNum.leb. apply Z.leb_le.
    pose proof (maxLen_bounds limit ltac:(lia)) as [H _].
    pose proof (of_int_le (len hyphenExample) limit) as H'.
    replace (len hyphenExample) with 35 in * by (vm_compute; reflexivity).
    specialize (H' Hl). lia.
Qed.

(** C6 (as amended): for the input ["semi-detached house - built in 1990"]
    and every target length of at least 10, no line boundary falls inside
    the word ["semi-detached"]: the first line begins with the whole word;
    and the clause pattern matches at no position of the word, so the
    hyphen inside it is never a delimiter. *)
Theorem hyphenExample_word_kept (limit : Z) :
  10 <= limit ->
  wordKept limit = true /\
  (forall before i, (i < 13)%nat ->
     exec false minorRe before (skipn i hyphenExample) = None).
Proof.
  intros Hl. split.
  - destruct (Z_lt_le_dec limit 35) as [Hs|Hb].
    + pose proof hyphenExample_small_limits as H.
      rewrite forallb_forall in H. apply H.
      apply in_map_iff. exists (Z.to_nat limit). split; [lia|].
      apply in_seq. lia.
    + unfold wordKept. rewrite (hyphenExample_large_limits limit Hb).
      vm_compute. reflexivity.
  - intros before i Hi.
    do 13 (destruct i as [|i]; [vm_compute; reflexivity|]). lia.
Qed.

Lemma hyphenExample_word_kept_witness :
  10 <= 10 /\
  wordKept 10 = true /\
  splitLyrics hyphenExample 10
  = Some [js "semi-detached"; js "house -"; js "built in 1990"].
Proof.
  split; [lia|].
  destruct (hyphenExample_word_kept 10) as [H1 _]; [lia|].
  split; [exact H1 | vm_compute; reflexivity].
Defined.

(** C6 as stated fails: with the small target length 5 the hard cut falls
    inside the word. *)
Lemma hyphenExample_word_cut :
  splitLyrics hyphenExample 5
  = Some [js "semi-"; js "detac"; js "hed"; js "house"; js "- built"; js "in 1990"]
  /\ wordKept 5 = false.
Proof. split; vm_compute; reflexivity. Qed.

(** C7: [splitLyrics("Dr. Smith met Mr. Jones.", 100)] is the one line
    ["Dr. Smith met Mr. Jones."]; the periods of the two abbreviations are
    masked before the splitting and restored in the output. *)
Theorem abbreviations_preserved :
  protect (js "Dr. Smith met Mr. Jones.")
  = js "Dr" ++ [0] ++ js " Smith met Mr" ++ [0] ++ js " Jones."
  /\ splitLyrics (js "Dr. Smith met Mr. Jones.") 100
     = Some [js "Dr. Smith met Mr. Jones."].
Proof. split; vm_compute; reflexivity. Qed.

(** C8: [splitLyrics] of the two-sentence example with limit 20 splits at
    the sentence boundary (the sentence pattern yields the two atoms) and
    its first line is ["Hello world."]. *)
Theorem sentence_boundary_split :
  let text := js "Hello world. This is a test sentence that is quite long indeed." in
  atomsOf (split false majorRe text)
  = [js "Hello world."; js "This is a test sentence that is quite long indeed."]
  /\ splitLyrics text 20
     = Some [js "Hello world."; js "This is a test"; js "sentence that is";
             js "quite long indeed."].
Proof. split; vm_compute; reflexivity. Qed.

(** C9: for every positive limit, [splitLyrics] of the empty string is the
    empty sequence, and so is [splitLyrics] of every input whose paragraphs
    are all empty after trimming. *)
Theorem splitLyrics_blank (raw : jsstring) (limit : Z) :
  0 < limit ->
  splitLyrics [] limit = Some [] /\
  (Forall (fun paragraph => trim paragraph = []) (split false lineBreakRe raw) ->
   splitLyrics raw limit = Some []).
Proof.
  intros _. split; [reflexivity|]. intros Hblank.
  assert (Hws : forallb isWhiteSpace raw = true).
  { apply nonWhitespace_nil_ws. rewrite <- paragraphs_nonWhitespace.
    apply blank_paragraphs, Hblank. }
  rewrite splitLyrics_unfold.
  rewrite (masks_whitespace _ _ (protect_masks raw) Hws).
  rewrite (eachParagraph_blank _ _ _ Hblank). reflexivity.
Qed.

Lemma splitLyrics_blank_witness :
  0 < 14 /\
  Forall (fun paragraph => trim paragraph = [])
    (split false lineBreakRe [0x20; 0x20; 0x20; 0xA; 0xA; 0x20; 0x20]) /\
  splitLyrics [] 14 = Some [] /\
  splitLyrics [0x20; 0x20; 0x20; 0xA; 0xA; 0x20; 0x20] 14 = Some [].
Proof.
  assert (H : Forall (fun paragraph => trim paragraph = [])
                (split false lineBreakRe [0x20; 0x20; 0x20; 0xA; 0xA; 0x20; 0x20])).
  { vm_compute. repeat constructor. }
  destruct (splitLyrics_blank [0x20; 0x20; 0x20; 0xA; 0xA; 0x20; 0x20] 14 eq_refl)
    as [H1 H2].
  split; [reflexivity|]. split; [exact H|]. split; [exact H1 | exact (H2 H)].
Defined.

(** C10: for all strings [a] and [b] and every positive limit,
    [splitLyrics (a + "\n" + b, limit)] is [splitLyrics (a, limit)] followed
    by [splitLyrics (b, limit)]. *)
Theorem splitLyrics_line_feed (a b : jsstring) (limit : Z) :
  0 < limit ->
  exists linesA linesB,
    splitLyrics a limit = Some linesA /\
    splitLyrics b limit = Some linesB /\
    splitLyrics (a ++ [0xA] ++ b) limit
    = Some (linesA ++ linesB).
Proof.
  intros Hl.
  change ([0xA] ++ b) with (0xA :: b).
  destruct (eachParagraph_spec limit Hl (split false lineBreakRe (protect a)))
    as [outA [HA _]].
  destruct (eachParagraph_spec limit Hl (split false lineBreakRe (protect b)))
    as [outB [HB _]].
  exists (map (replaceAll false sentinelRe toPeriod) outA),
         (map (replaceAll false sentinelRe toPeriod) outB).
  rewrite !splitLyrics_unfold, (HA []), (HB []).
  split; [reflexivity|]. split; [reflexivity|].
  rewrite protect_line.
  rewrite (eachParagraph_trim limit
             (split false lineBreakRe (protect a ++ 0xA :: protect b))
             (split false lineBreakRe (protect a) ++ split false lineBreakRe (protect b)))
    by (rewrite map_app; apply split_line).
  rewrite eachParagraph_app, (HA []), (HB ([] ++ outA)). cbn [app].
  rewrite map_app. reflexivity.
Qed.

Lemma splitLyrics_line_feed_witness :
  0 < 20 /\
  exists linesA linesB,
    splitLyrics (js "Dr. Smith met Mr. Jones.") 20 = Some linesA /\
    splitLyrics (js "Hello world. This is a test sentence that is quite long indeed.") 20
    = Some linesB /\
    splitLyrics (js "Dr. Smith met Mr. Jones." ++ [0xA]
                 ++ js "Hello world. This is a test sentence that is quite long indeed.") 20
    = Some (linesA ++ linesB).
Proof.
  split; [reflexivity|].
  apply (splitLyrics_line_feed (js "Dr. Smith met Mr. Jones.")
           (js "Hello world. This is a test sentence that is quite long indeed.") 20).
  reflexivity.
Defined.


(** * Further properties of the splitter *)

(** ** The accumulator *)

Lemma reflow_appends
    (self : jsstring -> Z -> list jsstring -> option (list jsstring)) (limit : Z) :
  appendsOnly self limit ->
  forall atoms cur acc,
    reflow self atoms limit cur acc
    = match reflow self atoms limit cur [] with
      | Some (cur', out) => Some (cur', acc ++ out)
      | None => None
      end.
Proof.
  intros Hself. induction atoms as [|atom atoms IH]; intros cur acc.
  - simpl. rewrite app_nil_r. reflexivity.
  - cbn [reflow].
    destruct (truthy cur && _); [apply IH|].
    rewrite (pending_push cur acc), (pending_push cur []). cbn [app].
    set (pend := if truthy cur then [cur] else []).
    destruct (JSNum.ltb _ _).
    + rewrite (Hself atom (acc ++ pend)), (Hself atom pend).
      destruct (self atom limit []) as [out|]; cbn [bind]; [|reflexivity].
      rewrite (IH [] ((acc ++ pend) ++ out)), (IH [] (pend ++ out)).
      destruct (reflow self atoms limit [] []) as [[cur' out']|]; [|reflexivity].
      rewrite <- !app_assoc. reflexivity.
    + rewrite (IH atom (acc ++ pend)), (IH atom pend).
      destruct (reflow self atoms limit atom []) as [[cur' out']|]; [|reflexivity].
      rewrite <- !app_assoc. reflexivity.
Qed.

Lemma trySplitAndReflow_appends
    (self : jsstring -> Z -> list jsstring -> option (list jsstring)) (limit : Z)
    (text : jsstring) (r : regex) (acc : list jsstring) :
  appendsOnly self limit ->
  trySplitAndReflow self text r limit acc
  = match trySplitAndReflow self text r limit [] with
    | Some (done, out) => Some (done, acc ++ out)
    | None => None
    end.
Proof.
  intros Hself. unfold trySplitAndReflow.
  destruct (length (split false r text) <? 3)%nat;
    [rewrite app_nil_r; reflexivity|].
  destruct (length (atomsOf (split false r text)) <? 2)%nat;
    [rewrite app_nil_r; reflexivity|].
  rewrite (reflow_appends self limit Hself _ [] acc).
  destruct (reflow self _ limit [] []) as [[cur out]|]; cbn [bind]; [|reflexivity].
  rewrite (pending_push cur (acc ++ out)), (pending_push cur out), app_assoc.
  reflexivity.
Qed.

Lemma processSegmentF_appends
    (self : jsstring -> Z -> list jsstring -> option (list jsstring)) (limit : Z) :
  appendsOnly self limit -> appendsOnly (processSegmentF self) limit.
Proof.
  intros Hself text acc. unfold processSegmentF.
  destruct (JSNum.leb _ _); [reflexivity|].
  rewrite (trySplitAndReflow_appends self limit text majorRe acc Hself).
  destruct (trySplitAndReflow self text majorRe limit []) as [[[|] out1]|];
    cbn [bind]; try reflexivity.
  rewrite (trySplitAndReflow_appends self limit text minorRe (acc ++ out1) Hself).
  rewrite (trySplitAndReflow_appends self limit text minorRe out1 Hself).
  destruct (trySplitAndReflow self text minorRe limit []) as [[[|] out2]|];
    cbn [bind]; try (rewrite <- ?app_assoc; reflexivity).
  cbv zeta.
  rewrite (pending_push _ ((acc ++ out1) ++ out2)), (pending_push _ (out1 ++ out2)).
  destruct (truthy (trim (substring text _ None))).
  - rewrite (Hself _ (((acc ++ out1) ++ out2) ++ _)), (Hself _ ((out1 ++ out2) ++ _)).
    destruct (self _ limit []); [|reflexivity].
    rewrite <- !app_assoc. reflexivity.
  - rewrite <- !app_assoc. reflexivity.
Qed.

Lemma processSegment_appends (fuel : nat) (limit : Z) :
  appendsOnly (processSegment fuel) limit.
Proof.
  induction fuel as [|fuel IH]; intros text acc.
  - reflexivity.
  - cbn [processSegment]. apply processSegmentF_appends. exact IH.
Qed.

Lemma eachParagraph_acc (limit : Z) (paragraphs : list jsstring) :
  forall lines,
    eachParagraph paragraphs limit lines
    = match eachParagraph paragraphs limit [] with
      | Some out => Some (lines ++ out)
      | None => None
      end.
Proof.
  induction paragraphs as [|p ps IH]; intros lines.
  - simpl. rewrite app_nil_r. reflexivity.
  - cbn [eachParagraph].
    destruct (negb (truthy (trim p))); [apply IH|].
    rewrite (processSegment_appends _ limit (trim p) lines).
    destruct (processSegment _ (trim p) limit []) as [out|]; cbn [bind]; [|reflexivity].
    rewrite (IH (lines ++ out)), (IH out).
    destruct (eachParagraph ps limit []); [|reflexivity].
    rewrite app_assoc. reflexivity.
Qed.

(** X1: [processSegment] only ever appends to the accumulator, and the
    lines it appends are those it would put into an empty accumulator; the
    lines already there are neither changed nor looked at. *)
Theorem processSegment_accumulator (fuel : nat) (text : jsstring) (limit : Z)
    (accumulator : list jsstring) :
  processSegment fuel text limit accumulator
  = match processSegment fuel text limit [] with
    | Some lines => Some (accumulator ++ lines)
    | None => None
    end.
Proof. apply processSegment_appends. Qed.

(** ** Masking *)

Lemma Forall2_masks_length (a b : jsstring) :
  Forall2 masks a b -> length b = length a.
Proof. induction 1; simpl; congruence. Qed.

Lemma masks_no_period (raw masked : jsstring) :
  Forall2 masks raw masked -> ~ In 0x2E raw -> masked = raw.
Proof.
  induction 1 as [|x y l l' Hxy _ IH]; intros Hin; [reflexivity|].
  f_equal.
  - destruct Hxy as [->|[-> _]]; [reflexivity|]. exfalso. apply Hin. left. reflexivity.
  - apply IH. intros H0. apply Hin. right. exact H0.
Qed.

(** X2: masking only ever puts the sentinel U+0000 in the place of a
    period: the protected text has the length of the raw text and differs
    from it, index by index, at periods only; a text without a period is
    left as it is. *)
Theorem protect_only_masks_periods (raw : jsstring) :
  Forall2 (fun x y => y = x \/ (x = 0x2E /\ y = 0)) raw (protect raw) /\
  length (protect raw) = length raw /\
  (~ In 0x2E raw -> protect raw = raw).
Proof.
  pose proof (protect_masks raw) as H. split; [exact H|]. split.
  - apply Forall2_masks_length. exact H.
  - apply masks_no_period. exact H.
Qed.

(** X3: restoring undoes masking: for a text without U+0000, replacing the
    sentinels of the protected text by periods gives the text back. *)
Theorem protect_restore (raw : jsstring) :
  ~ In 0 raw ->
  replaceAll false sentinelRe toPeriod (protect raw) = raw.
Proof.
  intros H0. rewrite restore_map. apply masks_unmask; [apply protect_masks | exact H0].
Qed.

Lemma protect_restore_witness :
  ~ In 0 (js "Prof. J. Doe vs. St. Nick.") /\
  protect (js "Prof. J. Doe vs. St. Nick.")
  = js "Prof" ++ [0] ++ js " J" ++ [0] ++ js " Doe vs" ++ [0] ++ js " St" ++ [0]
    ++ js " Nick." /\
  replaceAll false sentinelRe toPeriod (protect (js "Prof. J. Doe vs. St. Nick."))
  = js "Prof. J. Doe vs. St. Nick.".
Proof.
  assert (H0 : ~ In 0 (js "Prof. J. Doe vs. St. Nick.")) by (vm_compute; lia).
  split; [exact H0|]. split; [vm_compute; reflexivity|].
  apply (protect_restore (js "Prof. J. Doe vs. St. Nick.")). exact H0.
Defined.

(** ** How many lines *)

Lemma masks_nonWhitespace_length (a b : jsstring) :
  Forall2 masks a b -> length (nonWhitespace b) = length (nonWhitespace a).
Proof.
  induction 1 as [|x y l l' Hxy _ IH]; [reflexivity|]. simpl.
  assert (E : isWhiteSpace y = isWhiteSpace x).
  { destruct Hxy as [->|[-> ->]]; reflexivity. }
  rewrite E. destruct (isWhiteSpace x); simpl; congruence.
Qed.

Lemma lines_count (lines : list jsstring) :
  Forall (fun l => nonWhitespace l <> []) lines ->
  (length lines <= length (nonWhitespace (concat lines)))%nat.
Proof.
  induction 1 as [|l ls Hl _ IH]; simpl; [lia|].
  rewrite nonWhitespace_app, length_app.
  destruct (nonWhitespace l); [contradiction | simpl; lia].
Qed.

(** X4: [splitLyrics] returns at most as many lines as the input has
    units that are not white space. *)
Theorem splitLyrics_line_count (raw : jsstring) (limit : Z) :
  0 < limit ->
  exists lines,
    splitLyrics raw limit = Some lines /\
    (length lines <= length (nonWhitespace raw))%nat.
Proof.
  intros Hl.
  destruct (splitLyrics_spec raw limit Hl) as [lines [Hrun [Hnw Hok]]].
  exists (map (map unmask) lines). split; [exact Hrun|].
  rewrite length_map, <- (masks_nonWhitespace_length _ _ (protect_masks raw)), <- Hnw.
  apply lines_count. eapply Forall_impl; [|exact Hok].
  intros l [H _]. apply tidy_not_blank. exact H.
Qed.

Lemma splitLyrics_line_count_witness :
  0 < 3 /\
  exists lines,
    splitLyrics (js " a  b. c ") 3 = Some lines /\
    (length lines <= length (nonWhitespace (js " a  b. c ")))%nat.
Proof.
  split; [reflexivity|]. apply (splitLyrics_line_count (js " a  b. c ") 3). reflexivity.
Defined.

(** ** A text of one paragraph *)

Lemma split_loop_no_feed (fuel : nat) :
  forall before part s,
    ~ In 0xA s ->
    split_loop fuel false lineBreakRe before part s = [rev part ++ s].
Proof.
  induction fuel as [|fuel IH]; intros before part s Hs; [reflexivity|].
  destruct s as [|c s'].
  - rewrite split_loop_nil, app_nil_r. reflexivity.
  - rewrite split_loop_lineBreak.
    assert (Hc : c <> 0xA) by (intros ->; apply Hs; left; reflexivity).
    assert (Hs' : ~ In 0xA s') by (intros H; apply Hs; right; exact H).
    assert (E : lineBreakAt (c :: s') = None).
    { unfold lineBreakAt. destruct (c =? 13).
      - destruct s' as [|c2 s'']; [reflexivity|].
        destruct (c2 =? 10) eqn:E2; [|reflexivity].
        apply Z.eqb_eq in E2. subst c2. exfalso. apply Hs'. left. reflexivity.
      - destruct (c =? 10) eqn:E1; [|reflexivity].
        apply Z.eqb_eq in E1. contradiction. }
    rewrite E, IH by exact Hs'. simpl. rewrite <- app_assoc. reflexivity.
Qed.

Lemma split_no_feed (s : jsstring) :
  ~ In 0xA s -> split false lineBreakRe s = [s].
Proof.
  intros H. rewrite split_lineBreak_loop. apply split_loop_no_feed. exact H.
Qed.

Lemma masks_in (raw masked : jsstring) (c : Z) :
  Forall2 masks raw masked -> In c masked -> c = 0 \/ In c raw.
Proof.
  induction 1 as [|x y l l' Hxy _ IH]; intros Hin; [contradiction|].
  destruct Hin as [<-|Hin].
  - destruct Hxy as [->|[_ ->]]; [right; left; reflexivity | left; reflexivity].
  - destruct (IH Hin) as [H|H]; [left; exact H | right; right; exact H].
Qed.

Lemma protect_no_feed (raw : jsstring) : ~ In 0xA raw -> ~ In 0xA (protect raw).
Proof.
  intros H Hin. destruct (masks_in _ _ _ (protect_masks raw) Hin) as [E|E];
    [discriminate | contradiction].
Qed.

Lemma Forall2_rev {A B : Type} (R : A -> B -> Prop) (l : list A) (l' : list B) :
  Forall2 R l l' -> Forall2 R (rev l) (rev l').
Proof.
  induction 1 as [|x y l l' Hxy _ IH]; simpl; [constructor|].
  apply Forall2_app; [exact IH | constructor; [exact Hxy | constructor]].
Qed.

Lemma masks_whitespace_class (x y : Z) : masks x y -> isWhiteSpace y = isWhiteSpace x.
Proof. intros [->|[-> ->]]; reflexivity. Qed.

Lemma masks_trimStart (a b : jsstring) :
  Forall2 masks a b -> Forall2 masks (trimStart a) (trimStart b).
Proof.
  induction 1 as [|x y l l' Hxy H IH]; simpl; [constructor|].
  rewrite (masks_whitespace_class _ _ Hxy).
  destruct (isWhiteSpace x); [exact IH | constructor; assumption].
Qed.

Lemma masks_trim (a b : jsstring) :
  Forall2 masks a b -> Forall2 masks (trim a) (trim b).
Proof.
  intros H. unfold trim, trimEnd.
  apply Forall2_rev, masks_trimStart, Forall2_rev, masks_trimStart, H.
Qed.

Lemma incl_trimStart (s : jsstring) : incl (trimStart s) s.
Proof.
  destruct (trimStart_split s) as [ws [E _]]. rewrite E at 2.
  apply incl_appr, incl_refl.
Qed.

Lemma incl_trim (s : jsstring) : incl (trim s) s.
Proof.
  unfold trim, trimEnd. intros c Hc.
  apply incl_trimStart. apply in_rev in Hc.
  apply incl_trimStart in Hc. apply in_rev in Hc. exact Hc.
Qed.

(** A text without a line feed whose trimmed form fits is one line. *)
Lemma splitLyrics_one_line (raw : jsstring) (limit : Z) :
  ~ In 0 raw -> ~ In 0xA raw -> trim raw <> [] ->
  withinMaxLen limit (trim raw) ->
  splitLyrics raw limit = Some [trim raw].
Proof.
  intros H0 Hfeed Hne Hfit.
  pose proof (masks_trim _ _ (protect_masks raw)) as Hm.
  rewrite splitLyrics_unfold, (split_no_feed _ (protect_no_feed _ Hfeed)).
  cbn [eachParagraph].
  assert (Hlen : length (trim (protect raw)) = length (trim raw))
    by (apply Forall2_masks_length, Hm).
  assert (Ht : truthy (trim (protect raw)) = true).
  { destruct (trim (protect raw)); [|reflexivity].
    destruct (trim raw); [contradiction | discriminate]. }
  rewrite Ht. cbn [negb].
  rewrite processSegment_terminal.
  - cbn [bind app map]. rewrite restore_map. f_equal. f_equal.
    apply masks_unmask; [exact Hm|].
    intros Hin. apply H0. apply (incl_trim raw). exact Hin.
  - unfold withinMaxLen, len in *. rewrite Hlen. exact Hfit.
Qed.

(** X5: a text of one paragraph (no line feed, no U+0000) that is not
    blank and whose trimmed length is at most
    [max(limit * 1.5, limit + 5)] comes back as one line, its trimmed text,
    whatever punctuation it holds. *)
Theorem splitLyrics_short_text (raw : jsstring) (limit : Z) :
  ~ In 0 raw -> ~ In 0xA raw -> trim raw <> [] ->
  JSNum.leb (JSNum.of_int (len (trim raw))) (maxLen limit) = true ->
  splitLyrics raw limit = Some [trim raw].
Proof. apply splitLyrics_one_line. Qed.

Lemma splitLyrics_short_text_witness :
  let raw := js "  Wait... what? No, no; yes!  " in
  ~ In 0 raw /\ ~ In 0xA raw /\ trim raw <> [] /\
  JSNum.leb (JSNum.of_int (len (trim raw))) (maxLen 20) = true /\
  splitLyrics raw 20 = Some [js "Wait... what? No, no; yes!"].
Proof.
  intros raw.
  assert (H0 : ~ In 0 raw) by (vm_compute; lia).
  assert (H1 : ~ In 0xA raw) by (vm_compute; lia).
  assert (H2 : trim raw <> []) by (vm_compute; discriminate).
  assert (H3 : JSNum.leb (JSNum.of_int (len (trim raw))) (maxLen 20) = true)
    by (vm_compute; reflexivity).
  split; [exact H0|]. split; [exact H1|]. split; [exact H2|]. split; [exact H3|].
  apply (splitLyrics_short_text raw 20 H0 H1 H2 H3).
Defined.


(** ** Text without white space *)

Lemma spaceless_trim (s : jsstring) : spaceless s -> trim s = s.
Proof.
  intros H. destruct s as [|c s']; [reflexivity|].
  apply tidy_iff. split.
  - inversion H as [|? ? Hc _]. subst. simpl. rewrite Hc. reflexivity.
  - apply Forall_rev in H. destruct (rev (c :: s')) as [|x l] eqn:E.
    + apply (f_equal (@length Z)) in E. rewrite length_rev in E. discriminate.
    + inversion H as [|? ? Hx _]. subst. simpl. rewrite Hx. reflexivity.
Qed.

Lemma spaceless_app (a b : jsstring) :
  spaceless (a ++ b) <-> spaceless a /\ spaceless b.
Proof. apply Forall_app. Qed.

Lemma spaceless_firstn (n : nat) (s : jsstring) : spaceless s -> spaceless (firstn n s).
Proof.
  intros H. rewrite <- (firstn_skipn n s) in H. apply spaceless_app in H. apply H.
Qed.

Lemma spaceless_skipn (n : nat) (s : jsstring) : spaceless s -> spaceless (skipn n s).
Proof.
  intros H. rewrite <- (firstn_skipn n s) in H. apply spaceless_app in H. apply H.
Qed.

(** After a match of [(g)(?=\s|$)] comes white space or the end. *)
Lemma exec_beforeSpaceOrEnd (g : regex) (before : option Z) (s : jsstring)
    (st : mstate) :
  exec false (Cat (Group g) beforeSpaceOrEnd) before s = Some st ->
  match ms_rest st with
  | [] => True
  | c :: _ => isWhiteSpace c = true
  end.
Proof.
  unfold exec. simpl. intros H.
  destruct (run_extends _ _ _ _ _ H) as [st1 [_ [K _]]]. simpl in K.
  unfold consume in K. simpl in K.
  destruct (ms_rest st1) as [|c rest] eqn:Er.
  - injection K as <-. simpl. exact I.
  - destruct (isWhiteSpace c) eqn:Ec; [|discriminate].
    injection K as <-. simpl. exact Ec.
Qed.

(** In a text without white space such a pattern can only match up to the
    end, so [split] gives the text, or a part, the separator and an empty
    part. *)
Lemma split_loop_spaceless (g : regex) (fuel : nat) :
  forall before part s,
    spaceless s ->
    let parts := split_loop fuel false (Cat (Group g) beforeSpaceOrEnd) before part s in
    parts = [rev part ++ s] \/ exists pre sep, parts = [pre; sep; []].
Proof.
  induction fuel as [|fuel IH]; intros before part s Hs; cbv zeta.
  - left. reflexivity.
  - destruct s as [|c s'].
    + left. rewrite split_loop_nil, app_nil_r. reflexivity.
    + cbn [split_loop].
      assert (Hnext : let parts := split_loop fuel false (Cat (Group g) beforeSpaceOrEnd)
                                     (Some c) (c :: part) s' in
                      parts = [rev part ++ c :: s'] \/ exists pre sep, parts = [pre; sep; []]).
      { inversion Hs as [|? ? _ Hs']. subst.
        destruct (IH (Some c) (c :: part) s' Hs') as [E|E]; [left | right; exact E].
        rewrite E. simpl. rewrite <- app_assoc. reflexivity. }
      pose proof (exec_beforeSpaceOrEnd g before (c :: s')) as Hend.
      pose proof (exec_spec false (Cat (Group g) beforeSpaceOrEnd) before (c :: s')) as Hspec.
      destruct (exec false (Cat (Group g) beforeSpaceOrEnd) before (c :: s')) as [st|];
        [|exact Hnext].
      specialize (Hend st eq_refl). destruct (Hspec st eq_refl) as [_ Hsplit].
      assert (Hrest : ms_rest st = []).
      { destruct (ms_rest st) as [|x rest] eqn:Er; [reflexivity|].
        rewrite Hsplit in Hs. apply spaceless_app in Hs. destruct Hs as [_ Hs].
        inversion Hs as [|? ? Hx _]. subst. congruence. }
      assert (Hpush : rev part
                      :: (if hasGroup (Cat (Group g) beforeSpaceOrEnd)
                          then [capture1 st] else [])
                      ++ split_loop fuel false (Cat (Group g) beforeSpaceOrEnd)
                           (prevUnit st) [] (ms_rest st)
                      = [rev part; capture1 st; []]).
      { rewrite Hrest, split_loop_nil. reflexivity. }
      destruct (ms_seen st) as [|x seen]; [destruct part as [|y part]|].
      * exact Hnext.
      * right. rewrite Hpush. eexists. eexists. reflexivity.
      * right. rewrite Hpush. eexists. eexists. reflexivity.
Qed.

Lemma atomsOf_spaceless (g : regex) (text : jsstring) :
  spaceless text ->
  (length (atomsOf (split false (Cat (Group g) beforeSpaceOrEnd) text)) < 2)%nat.
Proof.
  intros Hs.
  assert (H : let parts := split false (Cat (Group g) beforeSpaceOrEnd) text in
              (exists p, parts = [p]) \/ parts = [] \/ exists pre sep, parts = [pre; sep; []]).
  { unfold split. destruct text as [|c s'].
    - destruct (exec _ _ _ _); [right; left; reflexivity | left; eexists; reflexivity].
    - destruct (split_loop_spaceless g (2 * length (c :: s') + 1) None [] (c :: s') Hs)
        as [E|E]; [left; eexists; exact E | right; right; exact E]. }
  cbv zeta in H. destruct H as [[p ->]|[->|[pre [sep ->]]]].
  - simpl. destruct (truthy _); simpl; lia.
  - simpl. lia.
  - rewrite atomsOf_cons2. simpl. destruct (truthy _); simpl; lia.
Qed.

Lemma trySplitAndReflow_spaceless
    (self : jsstring -> Z -> list jsstring -> option (list jsstring))
    (g : regex) (text : jsstring) (limit : Z) (acc : list jsstring) :
  spaceless text ->
  trySplitAndReflow self text (Cat (Group g) beforeSpaceOrEnd) limit acc
  = Some (false, acc).
Proof.
  intros Hs. unfold trySplitAndReflow.
  destruct (length (split false _ text) <? 3)%nat; [reflexivity|].
  pose proof (atomsOf_spaceless g text Hs) as H. apply Nat.ltb_lt in H.
  rewrite H. reflexivity.
Qed.

Lemma findBestSplitIndex_spaceless (text : jsstring) (limit : Z) :
  0 < limit -> text <> [] -> spaceless text ->
  findBestSplitIndex text limit = -1.
Proof.
  intros Hl Hne Hs.
  destruct (findBestSplitIndex_spec text limit Hl Hne) as [H|[_ [Hn _]]]; [exact H|].
  exfalso. apply nth_error_In in Hn.
  unfold spaceless in Hs. rewrite Forall_forall in Hs.
  specialize (Hs _ Hn). discriminate.
Qed.

(** A segment without white space is cut into pieces of [limit] units,
    until what is left fits. *)
Lemma processSegment_spaceless (limit : Z) (fuel : nat) :
  0 < limit ->
  forall text acc,
    spaceless text -> text <> [] -> (length text < fuel)%nat ->
    exists out,
      processSegment fuel text limit acc = Some (acc ++ out) /\
      concat out = text /\
      Forall (fun line => len line = limit) (removelast out) /\
      Forall (fun line => line <> [] /\ withinMaxLen limit line) out /\
      forall i, (S i < length out)%nat ->
        JSNum.leb (JSNum.of_int (len (concat (skipn i out)))) (maxLen limit) = false.
Proof.
  intros Hl. induction fuel as [|fuel IH]; intros text acc Hs Hne Hlen; [lia|].
  cbn [processSegment]. unfold processSegmentF.
  destruct (JSNum.leb (JSNum.of_int (len text)) (maxLen limit)) eqn:Eterm.
  - exists [text]. simpl. rewrite app_nil_r.
    split; [reflexivity|]. split; [reflexivity|]. split; [constructor|].
    split; [constructor; [split; [exact Hne | exact Eterm] | constructor]|].
    intros i Hi. lia.
  - change majorRe with (Cat (Group (PlusClass isMajor)) beforeSpaceOrEnd).
    rewrite trySplitAndReflow_spaceless by exact Hs. cbn [bind].
    unfold minorRe. rewrite trySplitAndReflow_spaceless by exact Hs. cbn [bind].
    rewrite (findBestSplitIndex_spaceless text limit Hl Hne Hs).
    change (-1 =? -1) with true. cbv iota.
    rewrite substring_prefix, substring_suffix by lia.
    rewrite (spaceless_trim _ (spaceless_firstn _ _ Hs)),
            (spaceless_trim _ (spaceless_skipn _ _ Hs)).
    assert (Hlong : limit < len text).
    { pose proof (maxLen_bounds limit Hl) as [Hm _].
      unfold JSNum.leb in Eterm. apply Z.leb_gt in Eterm.
      destruct (Z_lt_le_dec limit (len text)) as [H|H]; [exact H|].
      pose proof (of_int_le _ _ H). lia. }
    unfold len in Hlong.
    assert (Hhead : length (firstn (Z.to_nat limit) text) = Z.to_nat limit).
    { rewrite length_firstn. lia. }
    assert (Htail : length (skipn (Z.to_nat limit) text)
                    = (length text - Z.to_nat limit)%nat) by apply length_skipn.
    destruct (firstn (Z.to_nat limit) text) as [|h head] eqn:Eh;
      [simpl in Hhead; lia|].
    destruct (skipn (Z.to_nat limit) text) as [|t tail] eqn:Et;
      [simpl in Htail; lia|].
    cbn [truthy].
    destruct (IH (t :: tail) (acc ++ [h :: head])) as [out [Hrun [Hcat [Hall [Hfit Hcut]]]]].
    + rewrite <- Et. apply spaceless_skipn. exact Hs.
    + discriminate.
    + lia.
    + assert (Etext : (h :: head) ++ concat out = text).
      { rewrite Hcat, <- Eh, <- Et. apply firstn_skipn. }
      exists ((h :: head) :: out). rewrite Hrun, <- app_assoc.
      split; [reflexivity|]. split; [exact Etext|]. split; [|split].
      * destruct out as [|o out']; [discriminate Hcat|].
        cbn [removelast]. constructor; [|exact Hall].
        unfold len. rewrite Hhead. lia.
      * constructor; [|exact Hfit]. split; [discriminate|].
        unfold withinMaxLen, len. rewrite Hhead.
        replace (Z.of_nat (Z.to_nat limit)) with limit by lia.
        apply Z.leb_le. apply (maxLen_bounds limit Hl).
      * intros [|i] Hi.
        -- cbn [skipn concat]. rewrite Etext. exact Eterm.
        -- cbn [skipn]. apply Hcut. simpl in Hi. lia.
Qed.

Lemma removelast_map {A B : Type} (f : A -> B) (l : list A) :
  removelast (map f l) = map f (removelast l).
Proof.
  induction l as [|a l IH]; [reflexivity|].
  destruct l as [|b l']; [reflexivity|].
  change (removelast (map f (a :: b :: l'))) with (f a :: removelast (map f (b :: l'))).
  rewrite IH. reflexivity.
Qed.

(** X6: an input without white space (and without U+0000), such as a
    single long word or a run of CJK text, is only ever cut by length, and
    only while what is left does not fit.  Whatever punctuation it holds,
    the returned lines concatenate to exactly the input, every line but the
    last has exactly [limit] units, every line is non-empty and within
    [max(limit * 1.5, limit + 5)], and wherever a line is followed by
    another, that line and all that follows it together exceed that bound;
    so an input that fits is returned whole. *)
Theorem splitLyrics_spaceless (raw : jsstring) (limit : Z) :
  0 < limit -> ~ In 0 raw -> Forall (fun c => isWhiteSpace c = false) raw ->
  exists lines,
    splitLyrics raw limit = Some lines /\
    concat lines = raw /\
    Forall (fun line => len line = limit) (removelast lines) /\
    Forall (fun line =>
              line <> [] /\
              JSNum.leb (JSNum.of_int (len line)) (maxLen limit) = true) lines /\
    (forall i, (S i < length lines)%nat ->
       JSNum.leb (JSNum.of_int (len (concat (skipn i lines)))) (maxLen limit) = false) /\
    (raw <> [] -> JSNum.leb (JSNum.of_int (len raw)) (maxLen limit) = true ->
     lines = [raw]).
Proof.
  intros Hl H0 Hs.
  destruct raw as [|c raw'].
  { exists []. split; [reflexivity|]. split; [reflexivity|]. split; [constructor|].
    split; [constructor|]. split; [intros i Hi; simpl in Hi; lia|].
    intros Hne. contradiction. }
  set (raw := c :: raw') in *.
  pose proof (protect_masks raw) as Hm.
  assert (Hps : spaceless (protect raw)).
  { clear -Hm Hs. induction Hm as [|x y l l' Hxy _ IH]; [constructor|].
    inversion Hs as [|? ? Hx Hs']. subst.
    constructor; [rewrite (masks_whitespace_class _ _ Hxy); exact Hx | apply IH; exact Hs']. }
  assert (Hfeed : ~ In 0xA (protect raw)).
  { intros Hin. unfold spaceless in Hps. rewrite Forall_forall in Hps.
    specialize (Hps _ Hin). discriminate. }
  assert (Hne : protect raw <> []).
  { intros E. apply Forall2_masks_length in Hm. rewrite E in Hm. discriminate. }
  rewrite splitLyrics_unfold, (split_no_feed _ Hfeed). cbn [eachParagraph].
  rewrite (spaceless_trim _ Hps).
  destruct (protect raw) as [|p ps] eqn:Ep; [contradiction|]. cbn [truthy negb].
  destruct (processSegment_spaceless limit (S (length (p :: ps))) Hl (p :: ps) []
              Hps Hne ltac:(lia)) as [out [Hrun [Hcat [Hall [Hfit Hcut]]]]].
  rewrite Hrun. cbn [bind app].
  rewrite (map_ext _ _ restore_map).
  assert (Ecat : concat (map (map unmask) out) = raw).
  { rewrite <- concat_map, Hcat. apply masks_unmask; assumption. }
  assert (Ecut : forall i, (S i < length (map (map unmask) out))%nat ->
            JSNum.leb (JSNum.of_int (len (concat (skipn i (map (map unmask) out)))))
              (maxLen limit) = false).
  { intros i Hi. rewrite length_map in Hi.
    rewrite skipn_map, <- concat_map, len_map_unmask. apply Hcut. exact Hi. }
  exists (map (map unmask) out). split; [reflexivity|]. split; [exact Ecat|].
  split; [|split; [|split; [exact Ecut|]]].
  - rewrite removelast_map. apply Forall_map.
    eapply Forall_impl; [|exact Hall].
    intros l Hlen. rewrite len_map_unmask. exact Hlen.
  - apply Forall_map. eapply Forall_impl; [|exact Hfit].
    intros l [Hl1 Hl2]. split.
    + destruct l; [contradiction | discriminate].
    + rewrite len_map_unmask. exact Hl2.
  - intros _ Hraw.
    destruct (map (map unmask) out) as [|l1 [|l2 rest]] eqn:El.
    + discriminate Ecat.
    + simpl in Ecat. rewrite app_nil_r in Ecat. rewrite Ecat. reflexivity.
    + exfalso. specialize (Ecut 0%nat ltac:(simpl; lia)).
      cbn [skipn] in Ecut. rewrite Ecat in Ecut. congruence.
Qed.

Lemma splitLyrics_spaceless_witness :
  (let raw := js "Supercalifragilistic,expialidocious!Even.though" in
   0 < 10 /\ ~ In 0 raw /\ Forall (fun c => isWhiteSpace c = false) raw /\
   splitLyrics raw 10
   = Some [js "Supercalif"; js "ragilistic"; js ",expialido"; js "cious!Even";
           js ".though"]) /\
  (let raw := js "Wait...what?No!" in
   0 < 10 /\ ~ In 0 raw /\ Forall (fun c => isWhiteSpace c = false) raw /\
   raw <> [] /\ JSNum.leb (JSNum.of_int (len raw)) (maxLen 10) = true /\
   splitLyrics raw 10 = Some [raw]).
Proof.
  split.
  - intros raw.
    assert (H0 : ~ In 0 raw) by (vm_compute; lia).
    assert (Hs : Forall (fun c => isWhiteSpace c = false) raw)
      by (vm_compute; repeat constructor).
    destruct (splitLyrics_spaceless raw 10 eq_refl H0 Hs) as [lines [Hrun _]].
    split; [reflexivity|]. split; [exact H0|]. split; [exact Hs|].
    rewrite Hrun. vm_compute in Hrun. injection Hrun as <-. reflexivity.
  - intros raw.
    assert (H0 : ~ In 0 raw) by (vm_compute; lia).
    assert (Hs : Forall (fun c => isWhiteSpace c = false) raw)
      by (vm_compute; repeat constructor).
    assert (Hne : raw <> []) by discriminate.
    assert (Hfit : JSNum.leb (JSNum.of_int (len raw)) (maxLen 10) = true)
      by (vm_compute; reflexivity).
    destruct (splitLyrics_spaceless raw 10 eq_refl H0 Hs)
      as [lines [Hrun [_ [_ [_ [_ Hwhole]]]]]].
    split; [reflexivity|]. split; [exact H0|]. split; [exact Hs|].
    split; [exact Hne|]. split; [exact Hfit|].
    rewrite Hrun, (Hwhole Hne Hfit). reflexivity.
Defined.

(** ** The units of the lines *)

Lemma units_firstn {A : Type} (n : nat) (l : list A) : incl (firstn n l) l.
Proof.
  intros x H. rewrite <- (firstn_skipn n l). apply in_or_app. left. exact H.
Qed.

Lemma units_skipn {A : Type} (n : nat) (l : list A) : incl (skipn n l) l.
Proof.
  intros x H. rewrite <- (firstn_skipn n l). apply in_or_app. right. exact H.
Qed.

Lemma units_substring (s : jsstring) (a : Z) (e : option Z) :
  incl (substring s a e) s.
Proof.
  unfold substring. intros c Hc.
  apply units_firstn, units_skipn in Hc. exact Hc.
Qed.

Section Units.

(** A property of units that the space has; the splitter keeps it. *)
Variable ok : Z -> Prop.
Hypothesis ok_space : ok 0x20.

Variable limit : Z.

Lemma units_trim (s : jsstring) : Forall ok s -> Forall ok (trim s).
Proof. apply incl_Forall, incl_trim. Qed.

Lemma units_parts (r : regex) (text : jsstring) :
  wholeCapture r -> Forall ok text -> Forall (Forall ok) (split false r text).
Proof.
  intros Hr H. apply Forall_forall. intros p Hp.
  eapply incl_Forall; [|exact H].
  intros c Hc. rewrite <- (split_concat r text Hr).
  apply in_concat. exists p. split; assumption.
Qed.

Lemma units_atoms (parts : list jsstring) :
  Forall (Forall ok) parts -> Forall (Forall ok) (atomsOf parts).
Proof.
  induction parts as [|a|a b l IH] using list_pair_ind; intros H.
  - constructor.
  - inversion H as [|? ? Ha _]. subst. cbn [atomsOf]. rewrite !app_nil_r.
    destruct (truthy (trim a)); constructor; [apply units_trim, Ha | constructor].
  - inversion H as [|? ? Ha H']. inversion H' as [|? ? Hb Hl]. subst.
    rewrite atomsOf_cons2. apply Forall_app. split; [|apply IH, Hl].
    destruct (truthy _); constructor; [|constructor].
    apply units_trim, Forall_app. split; assumption.
Qed.

Section Callee.

Variable self : jsstring -> Z -> list jsstring -> option (list jsstring).
Hypothesis self_units : forall t acc acc',
  Forall ok t -> Forall (Forall ok) acc ->
  self t limit acc = Some acc' -> Forall (Forall ok) acc'.

Lemma units_pending (cur : jsstring) (acc : list jsstring) :
  Forall ok cur -> Forall (Forall ok) acc ->
  Forall (Forall ok) (if truthy cur then acc ++ [cur] else acc).
Proof.
  intros Hc Ha. destruct (truthy cur); [|exact Ha].
  apply Forall_app. split; [exact Ha | repeat constructor; exact Hc].
Qed.

Lemma units_reflow (atoms : list jsstring) :
  forall cur acc cur' acc',
    Forall (Forall ok) atoms -> Forall ok cur -> Forall (Forall ok) acc ->
    reflow self atoms limit cur acc = Some (cur', acc') ->
    Forall ok cur' /\ Forall (Forall ok) acc'.
Proof.
  induction atoms as [|atom atoms IH]; intros cur acc cur' acc' Hat Hcur Hacc H.
  - simpl in H. injection H as <- <-. split; assumption.
  - inversion Hat as [|? ? Hatom Hat']. subst. cbn [reflow] in H.
    pose proof (units_pending cur acc Hcur Hacc) as Hacc1.
    destruct (truthy cur && _).
    + apply IH in H; [exact H | exact Hat' | | exact Hacc].
      apply Forall_app. split; [exact Hcur|].
      apply Forall_app. split; [|exact Hatom].
      destruct (truthy cur); [|constructor].
      change (js " ") with [0x20]. repeat constructor. exact ok_space.
    + cbv zeta in H. destruct (JSNum.ltb _ _).
      * destruct (self atom limit _) as [acc2|] eqn:E; cbn [bind] in H; [|discriminate].
        apply IH in H; [exact H | exact Hat' | constructor |].
        eapply self_units; [exact Hatom | exact Hacc1 | exact E].
      * apply IH in H; [exact H | exact Hat' | exact Hatom | exact Hacc1].
Qed.

Lemma units_trySplitAndReflow (text : jsstring) (r : regex)
    (acc : list jsstring) (done : bool) (acc' : list jsstring) :
  wholeCapture r -> Forall ok text -> Forall (Forall ok) acc ->
  trySplitAndReflow self text r limit acc = Some (done, acc') ->
  Forall (Forall ok) acc'.
Proof.
  intros Hr Ht Hacc H. unfold trySplitAndReflow in H.
  destruct (length (split false r text) <? 3)%nat;
    [injection H as _ <-; exact Hacc|].
  destruct (length (atomsOf (split false r text)) <? 2)%nat;
    [injection H as _ <-; exact Hacc|].
  destruct (reflow self _ limit [] acc) as [[cur acc1]|] eqn:E; cbn [bind] in H;
    [|discriminate].
  injection H as _ <-.
  apply units_reflow in E; [| apply units_atoms, units_parts; assumption
                            | constructor | exact Hacc].
  destruct E as [Hc Ha]. apply units_pending; assumption.
Qed.

Lemma units_processSegmentF (text : jsstring) (acc acc' : list jsstring) :
  Forall ok text -> Forall (Forall ok) acc ->
  processSegmentF self text limit acc = Some acc' -> Forall (Forall ok) acc'.
Proof.
  intros Ht Hacc H. unfold processSegmentF in H.
  destruct (JSNum.leb _ _).
  { injection H as <-. apply Forall_app. split; [exact Hacc | repeat constructor; exact Ht]. }
  destruct (trySplitAndReflow self text majorRe limit acc) as [[done1 acc1]|] eqn:E1;
    cbn [bind] in H; [|discriminate].
  apply units_trySplitAndReflow in E1; [| exact wholeCapture_majorRe | exact Ht | exact Hacc].
  destruct done1; [injection H as <-; exact E1|].
  destruct (trySplitAndReflow self text minorRe limit acc1) as [[done2 acc2]|] eqn:E2;
    cbn [bind] in H; [|discriminate].
  apply units_trySplitAndReflow in E2; [| exact wholeCapture_minorRe | exact Ht | exact E1].
  destruct done2; [injection H as <-; exact E2|].
  cbv zeta in H.
  set (splitIndex := if findBestSplitIndex text limit =? -1 then limit
                     else findBestSplitIndex text limit) in H.
  assert (Hsub : forall a e, Forall ok (trim (substring text a e))).
  { intros a e. apply units_trim. eapply incl_Forall; [apply units_substring | exact Ht]. }
  pose proof (units_pending _ acc2 (Hsub 0 (Some splitIndex)) E2) as Hacc3.
  destruct (truthy (trim (substring text splitIndex None))).
  - eapply self_units; [apply Hsub | exact Hacc3 | exact H].
  - injection H as <-. exact Hacc3.
Qed.

End Callee.

Lemma units_processSegment (fuel : nat) :
  forall text acc acc',
    Forall ok text -> Forall (Forall ok) acc ->
    processSegment fuel text limit acc = Some acc' -> Forall (Forall ok) acc'.
Proof.
  induction fuel as [|fuel IH]; intros text acc acc' Ht Hacc H; [discriminate|].
  cbn [processSegment] in H.
  eapply units_processSegmentF; [exact IH | exact Ht | exact Hacc | exact H].
Qed.

Lemma units_eachParagraph (paragraphs : list jsstring) :
  forall lines lines',
    Forall (Forall ok) paragraphs -> Forall (Forall ok) lines ->
    eachParagraph paragraphs limit lines = Some lines' -> Forall (Forall ok) lines'.
Proof.
  induction paragraphs as [|p ps IH]; intros lines lines' Hps Hlines H.
  - injection H as <-. exact Hlines.
  - inversion Hps as [|? ? Hp Hps']. subst. cbn [eachParagraph] in H.
    destruct (negb (truthy (trim p))); [exact (IH _ _ Hps' Hlines H)|].
    destruct (processSegment _ (trim p) limit lines) as [lines1|] eqn:E;
      cbn [bind] in H; [|discriminate].
    eapply IH; [exact Hps' | | exact H].
    eapply units_processSegment; [apply units_trim, Hp | exact Hlines | exact E].
Qed.

End Units.

Lemma lineBreakAt_rest (s seen rest : jsstring) :
  lineBreakAt s = Some (seen, rest) -> incl rest s.
Proof.
  unfold lineBreakAt. destruct s as [|c s]; [discriminate|].
  destruct (c =? 13).
  - destruct s as [|c2 s]; [discriminate|].
    destruct (c2 =? 10); [|discriminate].
    intros H. injection H as _ <-. intros x Hx. right. right. exact Hx.
  - destruct (c =? 10); [|discriminate].
    intros H. injection H as _ <-. intros x Hx. right. exact Hx.
Qed.

Lemma lineBreakAt_none (c : Z) (s : jsstring) :
  lineBreakAt (c :: s) = None -> c <> 0xA.
Proof.
  unfold lineBreakAt. intros H ->. discriminate.
Qed.

(** No paragraph holds a line feed, and each is made of units of the text. *)
Lemma paragraphs_units (fuel : nat) :
  forall before part s p c,
    (length s <= fuel)%nat -> ~ In 0xA part ->
    In p (split_loop fuel false lineBreakRe before part s) -> In c p ->
    c <> 0xA /\ In c (rev part ++ s).
Proof.
  induction fuel as [|fuel IH]; intros before part s p c Hlen Hpart Hp Hc.
  - destruct s; [|simpl in Hlen; lia]. rewrite split_loop_nil in Hp.
    destruct Hp as [<-|[]]. rewrite app_nil_r. split; [|exact Hc].
    intros ->. apply Hpart, in_rev, Hc.
  - destruct s as [|c0 s'].
    + rewrite split_loop_nil in Hp. destruct Hp as [<-|[]]. rewrite app_nil_r.
      split; [|exact Hc]. intros ->. apply Hpart, in_rev, Hc.
    + rewrite split_loop_lineBreak in Hp.
      pose proof (lineBreakAt_rest (c0 :: s')) as Hrest.
      pose proof (lineBreakAt_shorter (c0 :: s')) as Hshort.
      pose proof (lineBreakAt_none c0 s') as Hnone.
      destruct (lineBreakAt (c0 :: s')) as [[seen rest]|].
      * specialize (Hrest _ _ eq_refl). specialize (Hshort _ _ eq_refl).
        destruct Hp as [<-|Hp].
        -- split; [intros ->; apply Hpart, in_rev, Hc|].
           apply in_or_app. left. exact Hc.
        -- destruct (IH _ [] rest p c ltac:(simpl in *; lia) ltac:(intros []) Hp Hc)
             as [H1 H2].
           split; [exact H1|]. apply in_or_app. right. apply Hrest. exact H2.
      * specialize (Hnone eq_refl).
        destruct (IH _ (c0 :: part) s' p c ltac:(simpl in *; lia)
                    ltac:(intros [E|E]; [exact (Hnone E) | exact (Hpart E)])
                    Hp Hc) as [H1 H2].
        split; [exact H1|]. simpl in H2. rewrite <- app_assoc in H2. exact H2.
Qed.

Lemma masks_in_period (raw masked : jsstring) (c : Z) :
  Forall2 masks raw masked -> In c masked ->
  In c raw \/ (c = 0 /\ In 0x2E raw).
Proof.
  induction 1 as [|x y l l' Hxy _ IH]; intros Hin; [contradiction|].
  destruct Hin as [<-|Hin].
  - destruct Hxy as [->|[-> ->]]; [left; left; reflexivity|].
    right. split; [reflexivity | left; reflexivity].
  - destruct (IH Hin) as [H|[H1 H2]]; [left; right; exact H|].
    right. split; [exact H1 | right; exact H2].
Qed.

(** The lines before the periods are restored: each is tidy and within
    [maxLen], has no line feed, and is made of units of the protected text
    and of spaces. *)
Lemma splitLyrics_lines (raw : jsstring) (limit : Z) :
  0 < limit ->
  exists out,
    splitLyrics raw limit = Some (map (map unmask) out) /\
    Forall (lineOK limit) out /\
    Forall (Forall (fun c => c <> 0xA /\ (In c (protect raw) \/ c = 0x20))) out.
Proof.
  intros Hl. rewrite splitLyrics_unfold.
  destruct (eachParagraph_spec limit Hl (split false lineBreakRe (protect raw)))
    as [out [Hrun [_ Hok]]].
  exists out. rewrite Hrun. cbn [app].
  rewrite (map_ext _ _ restore_map). split; [reflexivity|]. split; [exact Hok|].
  set (ok := fun c => c <> 0xA /\ (In c (protect raw) \/ c = 0x20)).
  assert (Hsp : ok 0x20) by (split; [discriminate | right; reflexivity]).
  apply (units_eachParagraph ok Hsp limit
           (split false lineBreakRe (protect raw)) [] out); [| constructor | apply Hrun].
  apply Forall_forall. intros p Hp. apply Forall_forall. intros c Hc.
  rewrite split_lineBreak_loop in Hp.
  destruct (paragraphs_units (2 * length (protect raw) + 1) None [] (protect raw) p c
              ltac:(lia) ltac:(intros []) Hp Hc)
    as [H1 H2].
  split; [exact H1 | left; exact H2].
Qed.

(** X7: the splitter invents no text.  Every unit of a returned line is a
    unit of the input, or a space (put between two atoms packed into one
    line), or a period standing for a U+0000 of the input; no line holds a
    line feed or U+0000. *)
Theorem splitLyrics_units (raw : jsstring) (limit : Z) :
  0 < limit ->
  exists lines,
    splitLyrics raw limit = Some lines /\
    forall line c, In line lines -> In c line ->
      c <> 0xA /\ c <> 0 /\ (In c raw \/ c = 0x20 \/ (c = 0x2E /\ In 0 raw)).
Proof.
  intros Hl. destruct (splitLyrics_lines raw limit Hl) as [out [Hrun [_ Hunits]]].
  exists (map (map unmask) out). split; [exact Hrun|].
  intros line c Hline Hc.
  apply in_map_iff in Hline. destruct Hline as [l [<- Hl0]].
  apply in_map_iff in Hc. destruct Hc as [c0 [<- Hc0]].
  rewrite Forall_forall in Hunits. specialize (Hunits l Hl0).
  rewrite Forall_forall in Hunits. destruct (Hunits c0 Hc0) as [Hfeed Hfrom].
  unfold unmask. destruct (c0 =? 0) eqn:E0.
  - apply Z.eqb_eq in E0. subst c0.
    split; [discriminate|]. split; [discriminate|].
    destruct Hfrom as [Hin|Hsp]; [|discriminate].
    destruct (masks_in_period _ _ _ (protect_masks raw) Hin) as [H|[_ H]].
    + right. right. split; [reflexivity | exact H].
    + left. exact H.
  - apply Z.eqb_neq in E0. split; [exact Hfeed|]. split; [exact E0|].
    destruct Hfrom as [Hin|Hsp]; [|right; left; exact Hsp].
    destruct (masks_in_period _ _ _ (protect_masks raw) Hin) as [H|[H _]];
      [left; exact H | contradiction].
Qed.

Lemma splitLyrics_units_witness :
  0 < 8 /\
  exists lines,
    splitLyrics (js "Dr. Who, are you?") 8 = Some lines /\
    forall line c, In line lines -> In c line ->
      c <> 0xA /\ c <> 0 /\
      (In c (js "Dr. Who, are you?") \/ c = 0x20 \/ (c = 0x2E /\ In 0 (js "Dr. Who, are you?"))).
Proof.
  split; [reflexivity|]. apply (splitLyrics_units (js "Dr. Who, are you?") 8). reflexivity.
Defined.

(** ** Splitting again *)

Lemma splitLyrics_feed (a b : jsstring) (limit : Z) (la lb : list jsstring) :
  splitLyrics a limit = Some la -> splitLyrics b limit = Some lb ->
  splitLyrics (a ++ 0xA :: b) limit = Some (la ++ lb).
Proof.
  rewrite !splitLyrics_unfold, protect_line.
  rewrite (eachParagraph_trim limit (split false lineBreakRe (protect a ++ 0xA :: protect b))
             (split false lineBreakRe (protect a) ++ split false lineBreakRe (protect b)) [])
    by (rewrite map_app; apply split_line).
  rewrite eachParagraph_app.
  destruct (eachParagraph (split false lineBreakRe (protect a)) limit []) as [oa|];
    [|discriminate].
  intros Ha. injection Ha as <-.
  rewrite (eachParagraph_acc limit _ oa).
  destruct (eachParagraph (split false lineBreakRe (protect b)) limit []) as [ob|];
    [|discriminate].
  intros Hb. injection Hb as <-. rewrite map_app. reflexivity.
Qed.

Lemma splitLyrics_join (limit : Z) (lines : list jsstring) :
  Forall (fun l => splitLyrics l limit = Some [l]) lines ->
  splitLyrics (joinLines lines) limit = Some lines.
Proof.
  induction 1 as [|l ls Hl _ IH]; [reflexivity|].
  destruct ls as [|l2 ls]; [exact Hl|].
  change (joinLines (l :: l2 :: ls)) with (l ++ 0xA :: joinLines (l2 :: ls)).
  apply (splitLyrics_feed l (joinLines (l2 :: ls)) limit [l] (l2 :: ls) Hl IH).
Qed.

(** X8: splitting is stable.  When the lines that [splitLyrics] returns are
    put back into one text, a line feed between each two, and split again
    with the same limit, the same lines come back. *)
Theorem splitLyrics_stable (raw : jsstring) (limit : Z) :
  0 < limit ->
  exists lines,
    splitLyrics raw limit = Some lines /\
    splitLyrics (joinLines lines) limit = Some lines.
Proof.
  intros Hl. destruct (splitLyrics_lines raw limit Hl) as [out [Hrun [Hok Hunits]]].
  exists (map (map unmask) out). split; [exact Hrun|].
  apply splitLyrics_join, Forall_map.
  rewrite Forall_forall in *. intros l Hin.
  destruct (Hok l Hin) as [Ht Hfit]. specialize (Hunits l Hin).
  destruct (tidy_map_unmask l Ht) as [Hne Htrim].
  rewrite <- Htrim at 2. apply splitLyrics_one_line.
  - intros H0. apply in_map_iff in H0. destruct H0 as [c [E _]].
    unfold unmask in E. destruct (c =? 0) eqn:Ec; [discriminate|].
    apply Z.eqb_neq in Ec. contradiction.
  - intros H0. apply in_map_iff in H0. destruct H0 as [c [E Hc]].
    rewrite Forall_forall in Hunits. destruct (Hunits c Hc) as [Hf _].
    unfold unmask in E. destruct (c =? 0); [discriminate | contradiction].
  - rewrite Htrim. exact Hne.
  - rewrite Htrim. unfold withinMaxLen. rewrite len_map_unmask. exact Hfit.
Qed.

Lemma splitLyrics_stable_witness :
  0 < 12 /\
  exists lines,
    splitLyrics (js "Mr. Jones went home, and then he slept. The end") 12 = Some lines /\
    splitLyrics (joinLines lines) 12 = Some lines.
Proof.
  split; [reflexivity|].
  apply (splitLyrics_stable (js "Mr. Jones went home, and then he slept. The end") 12).
  reflexivity.
Defined.

(** ** The index of the cut *)

Lemma indexOf_from_first (c : Z) (l : jsstring) :
  forall i0 j,
    nth_error l j = Some c ->
    i0 <= indexOf_from c l i0 <= i0 + Z.of_nat j.
Proof.
  induction l as [|x l IH]; intros i0 j Hj.
  - destruct j; discriminate.
  - cbn [indexOf_from]. destruct (x =? c) eqn:E; [lia|].
    destruct j as [|j].
    + injection Hj as ->. rewrite Z.eqb_refl in E. discriminate.
    + specialize (IH (i0 + 1) j Hj). lia.
Qed.

(** [indexOf] misses no occurrence at or after [from]. *)
Lemma indexOf_first (s : jsstring) (c from : Z) (j : nat) :
  nth_error s j = Some c -> Z.max from 0 <= Z.of_nat j ->
  Z.max from 0 <= indexOf s c from <= Z.of_nat j.
Proof.
  intros Hj Hle. unfold indexOf.
  assert (Hlen : (j < length s)%nat) by (apply nth_error_Some; congruence).
  replace (Z.min (Z.max from 0) (len s)) with (Z.max from 0) by (unfold len; lia).
  pose proof (indexOf_from_first c (skipn (Z.to_nat (Z.max from 0)) s) (Z.max from 0)
                (j - Z.to_nat (Z.max from 0))) as H.
  rewrite nth_error_skipn in H.
  replace (Z.to_nat (Z.max from 0) + (j - Z.to_nat (Z.max from 0)))%nat with j in H by lia.
  specialize (H Hj). lia.
Qed.

Lemma limit_le_scaled (limit : Z) :
  0 < limit -> JSNum.of_int limit <= scaled limit c1_4.
Proof.
  intros Hl. apply int_le_scaled; [exact Hl | |]; vm_compute; discriminate.
Qed.

(** The three outcomes of [findBestSplitIndex], by the last space at or
    before [limit] and the first at or after it. *)
Lemma findBestSplitIndex_cases (text : jsstring) (limit : Z) :
  let index := lastIndexOf text 0x20 limit in
  let nextSpace := indexOf text 0x20 limit in
  let i := findBestSplitIndex text limit in
  (i = nextSpace /\ nextSpace <> -1 /\
   JSNum.of_int nextSpace <= scaled limit c1_4) \/
  (i = -1 /\ index = -1 /\
   (nextSpace = -1 \/ scaled limit c1_4 < JSNum.of_int nextSpace)) \/
  (i = index /\ index <> -1).
Proof.
  cbv zeta. unfold findBestSplitIndex.
  set (index := lastIndexOf text 0x20 limit).
  set (nextSpace := indexOf text 0x20 limit).
  unfold JSNum.leb.
  destruct (nextSpace =? -1) eqn:En; cbn [negb andb].
  - apply Z.eqb_eq in En. rewrite andb_false_r.
    destruct (index =? -1) eqn:Ei.
    + apply Z.eqb_eq in Ei. right. left. auto.
    + apply Z.eqb_neq in Ei. right. right. auto.
  - apply Z.eqb_neq in En.
    destruct (JSNum.of_int nextSpace <=? scaled limit c1_4) eqn:Ec.
    + apply Z.leb_le in Ec.
      destruct (JSNum.ltb _ _); cbn [andb].
      * left. auto.
      * destruct (index =? -1) eqn:Ei; [left; auto|].
        apply Z.eqb_neq in Ei. right. right. auto.
    + apply Z.leb_gt in Ec. rewrite andb_false_r.
      destruct (index =? -1) eqn:Ei.
      * apply Z.eqb_eq in Ei. right. left. auto.
      * apply Z.eqb_neq in Ei. right. right. auto.
Qed.

(** X9: [findBestSplitIndex] returns -1, the signal for a hard cut, exactly
    when the text has no space at any index up to [limit * 1.4]. *)
Theorem findBestSplitIndex_hard_cut (text : jsstring) (limit : Z) :
  0 < limit ->
  (findBestSplitIndex text limit = -1 <->
   forall j, spaceAt text j ->
     JSNum.leb (JSNum.of_int j) (scaled limit c1_4) = false).
Proof.
  intros Hl.
  pose proof (limit_le_scaled limit Hl) as Hlim.
  pose proof (lastIndexOf_spec text 0x20 limit) as HL.
  pose proof (indexOf_spec text 0x20 limit) as HI.
  pose proof (findBestSplitIndex_cases text limit) as HC.
  cbv zeta in HL, HI, HC.
  set (index := lastIndexOf text 0x20 limit) in *.
  set (nextSpace := indexOf text 0x20 limit) in *.
  split.
  - intros E j [Hj0 Hj]. apply Z.leb_gt.
    destruct HC as [[Hi [Hn _]]|[[_ [Hi Hnext]]|[Hi Hn]]]; [congruence | | congruence].
    destruct (Z.le_gt_cases j limit) as [Hle|Hgt].
    + pose proof (lastIndexOf_last text 0x20 limit (Z.to_nat j) Hj ltac:(lia)) as H.
      fold index in H. lia.
    + pose proof (indexOf_first text 0x20 limit (Z.to_nat j) Hj ltac:(lia)) as H.
      fold nextSpace in H.
      destruct Hnext as [Hnext|Hnext]; [lia|].
      pose proof (of_int_le nextSpace j ltac:(lia)). lia.
  - intros Hnone.
    destruct HC as [[_ [Hn Hc]]|[[Hi _]|[_ Hn]]]; [exfalso | exact Hi | exfalso].
    + destruct HI as [HI|[HI1 HI2]]; [contradiction|].
      assert (H0 : 0 <= nextSpace) by (unfold len in HI1; lia).
      specialize (Hnone nextSpace (conj H0 HI2)). apply Z.leb_gt in Hnone. lia.
    + destruct HL as [HL|[HL1 HL2]]; [contradiction|].
      specialize (Hnone index (conj (proj1 HL1) HL2)). apply Z.leb_gt in Hnone.
      pose proof (of_int_le index limit ltac:(lia)). lia.
Qed.

Lemma findBestSplitIndex_hard_cut_witness :
  0 < 10 /\
  findBestSplitIndex (js "abcdefghijklmno pqrs") 10 = -1 /\
  forall j, spaceAt (js "abcdefghijklmno pqrs") j ->
    JSNum.leb (JSNum.of_int j) (scaled 10 c1_4) = false.
Proof.
  split; [reflexivity|]. split; [vm_compute; reflexivity|].
  apply (findBestSplitIndex_hard_cut (js "abcdefghijklmno pqrs") 10); reflexivity.
Defined.

(** X10: an index that [findBestSplitIndex] returns, other than -1, is
    that of a space, and no other space lies between it and [limit]: it is
    the last space at or before [limit] or the first one at or after it. *)
Theorem findBestSplitIndex_nearest (text : jsstring) (limit : Z) :
  0 < limit ->
  findBestSplitIndex text limit <> -1 ->
  spaceAt text (findBestSplitIndex text limit) /\
  forall j, spaceAt text j ->
    ~ (findBestSplitIndex text limit < j <= limit) /\
    ~ (limit <= j < findBestSplitIndex text limit).
Proof.
  intros Hl Hne.
  pose proof (lastIndexOf_spec text 0x20 limit) as HL.
  pose proof (indexOf_spec text 0x20 limit) as HI.
  pose proof (findBestSplitIndex_cases text limit) as HC.
  cbv zeta in HL, HI, HC.
  set (index := lastIndexOf text 0x20 limit) in *.
  set (nextSpace := indexOf text 0x20 limit) in *.
  destruct HC as [[Hi [Hn _]]|[[Hi _]|[Hi Hn]]]; [| contradiction |]; rewrite Hi.
  - destruct HI as [HI|[HI1 HI2]]; [contradiction|].
    assert (H0 : 0 <= nextSpace) by (unfold len in HI1; lia).
    split; [split; assumption|].
    intros j [Hj0 Hj].
    assert (Hlen : (Z.to_nat nextSpace < length text)%nat)
      by (apply nth_error_Some; congruence).
    unfold len in HI1. split; [lia|]. intros [H1 H2].
    pose proof (indexOf_first text 0x20 limit (Z.to_nat j) Hj ltac:(lia)) as H.
    fold nextSpace in H. lia.
  - destruct HL as [HL|[HL1 HL2]]; [contradiction|].
    split; [split; [lia | exact HL2]|].
    intros j [Hj0 Hj]. split; [|lia]. intros [H1 H2].
    pose proof (lastIndexOf_last text 0x20 limit (Z.to_nat j) Hj ltac:(lia)) as H.
    fold index in H. lia.
Qed.

Lemma findBestSplitIndex_nearest_witness :
  0 < 10 /\
  findBestSplitIndex (js "one two three four five") 10 = 7 /\
  spaceAt (js "one two three four five") 7 /\
  forall j, spaceAt (js "one two three four five") j ->
    ~ (findBestSplitIndex (js "one two three four five") 10 < j <= 10) /\
    ~ (10 <= j < findBestSplitIndex (js "one two three four five") 10).
Proof.
  split; [reflexivity|]. split; [vm_compute; reflexivity|].
  apply (findBestSplitIndex_nearest (js "one two three four five") 10);
    [reflexivity | vm_compute; discriminate].
Defined.

(** ** A limit of zero *)

Lemma findBestSplitIndex_no_space (text : jsstring) (limit : Z) :
  spaceless text -> findBestSplitIndex text limit = -1.
Proof.
  intros Hs.
  assert (Hno : forall i, nth_error text i <> Some 0x20).
  { intros i Hi. apply nth_error_In in Hi.
    unfold spaceless in Hs. rewrite Forall_forall in Hs.
    specialize (Hs _ Hi). discriminate. }
  pose proof (lastIndexOf_spec text 0x20 limit) as HL.
  pose proof (indexOf_spec text 0x20 limit) as HI.
  pose proof (findBestSplitIndex_cases text limit) as HC.
  cbv zeta in HL, HI, HC.
  destruct HC as [[_ [Hn _]]|[[Hi _]|[_ Hn]]]; [exfalso | exact Hi | exfalso].
  - destruct HI as [HI|[_ HI]]; [contradiction | exact (Hno _ HI)].
  - destruct HL as [HL|[_ HL]]; [contradiction | exact (Hno _ HL)].
Qed.

(** X11: with a limit of zero the splitter does not return on a word of
    more than five units: the cut is made at index 0, the head is empty and
    the tail is the whole segment again, so that [processSegment] calls
    itself on the same text whatever the budget of nested calls. *)
Theorem processSegment_zero_limit (fuel : nat) (text : jsstring)
    (accumulator : list jsstring) :
  spaceless text -> 5 < len text ->
  processSegmentF (processSegment fuel) text 0 accumulator
  = processSegment fuel text 0 accumulator /\
  processSegment fuel text 0 accumulator = None.
Proof.
  intros Hs Hlen.
  assert (Hstep : forall self acc,
            processSegmentF self text 0 acc = self text 0 acc).
  { intros self acc. unfold processSegmentF.
    replace (JSNum.leb (JSNum.of_int (len text)) (maxLen 0)) with false.
    2:{ symmetry. apply Z.leb_gt.
        replace (maxLen 0) with (JSNum.of_int 5) by (vm_compute; reflexivity).
        unfold JSNum.of_int. assert (0 < JSNum.unit) by reflexivity. nia. }
    change majorRe with (Cat (Group (PlusClass isMajor)) beforeSpaceOrEnd).
    rewrite trySplitAndReflow_spaceless by exact Hs. cbn [bind].
    unfold minorRe. rewrite trySplitAndReflow_spaceless by exact Hs. cbn [bind].
    rewrite (findBestSplitIndex_no_space text 0 Hs).
    change (-1 =? -1) with true. cbv iota zeta.
    rewrite substring_suffix by lia. rewrite substring_prefix by lia.
    cbn [Z.to_nat skipn firstn].
    rewrite (spaceless_trim text Hs).
    replace (truthy (trim [])) with false by reflexivity.
    destruct text as [|c text']; [unfold len in Hlen; simpl in Hlen; lia|].
    reflexivity. }
  split; [apply Hstep|].
  revert accumulator. induction fuel as [|fuel IH]; intros acc; [reflexivity|].
  cbn [processSegment]. rewrite Hstep. apply IH.
Qed.

Lemma processSegment_zero_limit_witness :
  spaceless (js "abcdefgh") /\ 5 < len (js "abcdefgh") /\
  processSegment 1000 (js "abcdefgh") 0 [] = None.
Proof.
  assert (Hs : spaceless (js "abcdefgh")) by (repeat constructor).
  assert (Hl : 5 < len (js "abcdefgh")) by reflexivity.
  split; [exact Hs|]. split; [exact Hl|].
  apply (processSegment_zero_limit 1000 (js "abcdefgh") [] Hs Hl).
Defined.

(** ** Words *)

Lemma wordsFrom_app_ws (a : jsstring) :
  forall cur c b, isWhiteSpace c = true ->
    wordsFrom cur (a ++ c :: b) = wordsFrom cur a ++ words b.
Proof.
  induction a as [|x a IH]; intros cur c b Hc; unfold words; simpl.
  - rewrite Hc. reflexivity.
  - destruct (isWhiteSpace x).
    + rewrite (IH [] c b Hc), app_assoc. reflexivity.
    + apply IH. exact Hc.
Qed.

Lemma words_ws_cons (c : Z) (s : jsstring) :
  isWhiteSpace c = true -> words (c :: s) = words s.
Proof. intros H. unfold words. simpl. rewrite H. reflexivity. Qed.

Lemma words_blank (ws : jsstring) :
  forallb isWhiteSpace ws = true -> words ws = [].
Proof.
  induction ws as [|c ws IH]; intros H; [reflexivity|].
  simpl in H. apply andb_true_iff in H. destruct H as [Hc Hws].
  rewrite (words_ws_cons c ws Hc). apply IH. exact Hws.
Qed.

(** A text may be taken apart in front of white space. *)
Lemma words_cut (a b : jsstring) :
  match b with [] => True | c :: _ => isWhiteSpace c = true end ->
  words (a ++ b) = words a ++ words b.
Proof.
  destruct b as [|c b]; intros H.
  - rewrite app_nil_r. change (words []) with (@nil (list Z)).
    rewrite app_nil_r. reflexivity.
  - unfold words at 1. rewrite (wordsFrom_app_ws a [] c b H).
    rewrite (words_ws_cons c b H). reflexivity.
Qed.

Lemma words_lead (ws s : jsstring) :
  forallb isWhiteSpace ws = true -> words (ws ++ s) = words s.
Proof.
  induction ws as [|c ws IH]; intros H; [reflexivity|].
  simpl in H. apply andb_true_iff in H. destruct H as [Hc Hws].
  simpl app. rewrite (words_ws_cons c _ Hc). apply IH. exact Hws.
Qed.

Lemma words_trail (s ws : jsstring) :
  forallb isWhiteSpace ws = true -> words (s ++ ws) = words s.
Proof.
  intros H. rewrite words_cut.
  - rewrite (words_blank ws H). apply app_nil_r.
  - destruct ws as [|c ws]; [exact I|].
    simpl in H. apply andb_true_iff in H. apply H.
Qed.

Lemma words_trimStart (s : jsstring) : words (trimStart s) = words s.
Proof.
  destruct (trimStart_split s) as [ws [E F]].
  rewrite E at 2. symmetry. apply words_lead. exact F.
Qed.

Lemma words_trimEnd (s : jsstring) : words (trimEnd s) = words s.
Proof.
  unfold trimEnd. destruct (trimStart_split (rev s)) as [ws [E F]].
  assert (Es : s = rev (trimStart (rev s)) ++ rev ws).
  { rewrite <- rev_app_distr, <- E, rev_involutive. reflexivity. }
  rewrite Es at 2. symmetry. apply words_trail.
  apply forallb_forall. intros c Hc. apply in_rev in Hc.
  rewrite forallb_forall in F. apply F. exact Hc.
Qed.

Lemma words_trim (s : jsstring) : words (trim s) = words s.
Proof. unfold trim. rewrite words_trimEnd. apply words_trimStart. Qed.

Lemma words_join (a b : jsstring) : words (a ++ 0x20 :: b) = words a ++ words b.
Proof. apply wordsFrom_app_ws. reflexivity. Qed.

Lemma wordsFrom_map_unmask (s : jsstring) :
  forall cur,
    wordsFrom (map unmask cur) (map unmask s) = map (map unmask) (wordsFrom cur s).
Proof.
  assert (Hp : forall cur,
            (if truthy (map unmask cur) then [rev (map unmask cur)] else [])
            = map (map unmask) (if truthy cur then [rev cur] else [])).
  { intros [|c cur]; [reflexivity|]. cbn [truthy map]. rewrite map_rev. reflexivity. }
  induction s as [|c s IH]; intros cur; cbn [map wordsFrom].
  - apply Hp.
  - rewrite isWhiteSpace_unmask. destruct (isWhiteSpace c).
    + rewrite map_app, Hp. f_equal. apply (IH []).
    + apply (IH (c :: cur)).
Qed.

Lemma words_map_unmask (s : jsstring) :
  words (map unmask s) = map (map unmask) (words s).
Proof. apply (wordsFrom_map_unmask s []). Qed.

Lemma linesWords_app (a b : list jsstring) :
  linesWords (a ++ b) = linesWords a ++ linesWords b.
Proof. unfold linesWords. rewrite map_app. apply concat_app. Qed.

Lemma linesWords_map_unmask (lines : list jsstring) :
  linesWords (map (map unmask) lines) = map (map unmask) (linesWords lines).
Proof.
  unfold linesWords. rewrite concat_map, !map_map. f_equal.
  apply map_ext. intros l. apply words_map_unmask.
Qed.

Lemma pending_words (cur : jsstring) :
  linesWords (if truthy cur then [cur] else []) = words cur.
Proof. destruct cur; [reflexivity|]. unfold linesWords. simpl. apply app_nil_r. Qed.

(** A text that does not end with its first word has white space right
    after it. *)
Lemma word_space (L : Z) (s : jsstring) :
  forall cur,
    Forall (fun w => len w <= L) (wordsFrom cur s) ->
    cur <> [] \/ startsClean s = true ->
    L < len cur + len s ->
    exists (j : nat) (c : Z),
      len cur + Z.of_nat j <= L /\ nth_error s j = Some c /\ isWhiteSpace c = true.
Proof.
  unfold len. induction s as [|c s IH]; intros cur Hw Hc HL.
  - exfalso. destruct Hc as [Hc|Hc]; [|discriminate].
    destruct cur as [|x cur]; [contradiction|]. cbn [wordsFrom truthy] in Hw.
    apply Forall_inv in Hw. rewrite length_rev in Hw. simpl length in *. lia.
  - cbn [wordsFrom] in Hw. destruct (isWhiteSpace c) eqn:Ec.
    + exists 0%nat, c. split; [|split; [reflexivity | exact Ec]].
      destruct Hc as [Hc|Hc]; [|simpl in Hc; rewrite Ec in Hc; discriminate].
      destruct cur as [|x cur]; [contradiction|]. cbn [truthy] in Hw.
      apply Forall_inv in Hw. rewrite length_rev in Hw. simpl length in *. lia.
    + destruct (IH (c :: cur) Hw ltac:(left; discriminate)
                  ltac:(simpl length in *; lia)) as [j [x [H1 [H2 H3]]]].
      exists (S j), x. split; [simpl length in H1; lia | split; [exact H2 | exact H3]].
Qed.

Lemma skipn_nth (s : jsstring) :
  forall n c, nth_error s n = Some c -> exists r, skipn n s = c :: r.
Proof.
  induction s as [|x s IH]; intros [|n] c H; try discriminate.
  - injection H as ->. exists s. reflexivity.
  - apply (IH n c H).
Qed.

(** The paragraphs keep the words. *)
Lemma paragraphs_words (fuel : nat) :
  forall before part s,
    linesWords (split_loop fuel false lineBreakRe before part s) = words (rev part ++ s).
Proof.
  induction fuel as [|fuel IH]; intros before part s.
  - unfold linesWords. simpl. apply app_nil_r.
  - destruct s as [|c s'].
    + rewrite split_loop_nil. unfold linesWords. simpl. rewrite !app_nil_r. reflexivity.
    + rewrite split_loop_lineBreak. unfold lineBreakAt.
      destruct (c =? 13) eqn:E13.
      * apply Z.eqb_eq in E13. subst c.
        destruct s' as [|c2 s''].
        -- rewrite IH. simpl. rewrite <- app_assoc. reflexivity.
        -- destruct (c2 =? 10) eqn:E10.
           ++ apply Z.eqb_eq in E10. subst c2.
              change (linesWords (rev part :: ?l)) with (words (rev part) ++ linesWords l).
              rewrite IH. simpl rev. cbn [app].
              unfold words at 3. rewrite (wordsFrom_app_ws (rev part) [] 13 (10 :: s'') eq_refl).
              rewrite (words_ws_cons 10 s'' eq_refl). reflexivity.
           ++ rewrite IH. simpl. rewrite <- app_assoc. reflexivity.
      * destruct (c =? 10) eqn:E10.
        -- apply Z.eqb_eq in E10. subst c.
           change (linesWords (rev part :: ?l)) with (words (rev part) ++ linesWords l).
           rewrite IH. simpl rev. cbn [app].
           unfold words at 3. rewrite (wordsFrom_app_ws (rev part) [] 10 s' eq_refl).
           reflexivity.
        -- rewrite IH. simpl. rewrite <- app_assoc. reflexivity.
Qed.

(** The atoms of a split at punctuation in front of white space keep the
    words: a separator is followed by white space or by nothing. *)
Lemma atom_words (s : jsstring) :
  linesWords (if truthy (trim s) then [trim s] else []) = words s.
Proof. rewrite pending_words. apply words_trim. Qed.

Lemma atoms_words_loop (g : regex) (fuel : nat) :
  forall before part s,
    linesWords (atomsOf (split_loop fuel false (Cat (Group g) beforeSpaceOrEnd) before part s))
    = words (rev part ++ s).
Proof.
  induction fuel as [|fuel IH]; intros before part s.
  - cbn [split_loop atomsOf]. rewrite !app_nil_r. apply atom_words.
  - destruct s as [|c s'].
    + rewrite split_loop_nil. cbn [atomsOf]. rewrite !app_nil_r. apply atom_words.
    + cbn [split_loop].
      assert (Hnext : linesWords (atomsOf (split_loop fuel false
                                   (Cat (Group g) beforeSpaceOrEnd) (Some c) (c :: part) s'))
                      = words (rev part ++ c :: s')).
      { rewrite IH. simpl. rewrite <- app_assoc. reflexivity. }
      pose proof (exec_beforeSpaceOrEnd g before (c :: s')) as Hend.
      pose proof (exec_spec false (Cat (Group g) beforeSpaceOrEnd) before (c :: s')) as Hspec.
      pose proof (exec_group_ahead false g (Alt (Class isWhiteSpace) EndInput) before (c :: s'))
        as Hcap.
      fold beforeSpaceOrEnd in Hcap.
      destruct (exec false (Cat (Group g) beforeSpaceOrEnd) before (c :: s')) as [st|];
        [|exact Hnext].
      specialize (Hend st eq_refl). destruct (Hspec st eq_refl) as [_ Hsplit].
      specialize (Hcap st eq_refl eq_refl).
      assert (Hpush :
        linesWords (atomsOf (rev part :: [capture1 st]
                     ++ split_loop fuel false (Cat (Group g) beforeSpaceOrEnd)
                          (prevUnit st) [] (ms_rest st)))
        = words (rev part ++ c :: s')).
      { cbn [app]. rewrite atomsOf_cons2, linesWords_app, atom_words, IH.
        cbn [rev app]. rewrite Hcap, Hsplit, app_assoc.
        symmetry. apply words_cut. exact Hend. }
      change (hasGroup (Cat (Group g) beforeSpaceOrEnd)) with true. cbv iota.
      destruct (ms_seen st) as [|x seen]; [destruct part as [|y part]|].
      * exact Hnext.
      * exact Hpush.
      * exact Hpush.
Qed.

Lemma atoms_words (g : regex) (text : jsstring) :
  linesWords (atomsOf (split false (Cat (Group g) beforeSpaceOrEnd) text)) = words text.
Proof.
  unfold split. destruct text as [|c s'].
  - destruct (exec _ _ _ _); reflexivity.
  - apply (atoms_words_loop g _ None [] (c :: s')).
Qed.

Lemma findBestSplitIndex_finds (text : jsstring) (limit : Z) (j : Z) :
  spaceAt text j -> j <= limit -> findBestSplitIndex text limit <> -1.
Proof.
  intros [Hj0 Hj] Hle.
  pose proof (findBestSplitIndex_cases text limit) as HC. cbv zeta in HC.
  pose proof (lastIndexOf_last text 0x20 limit (Z.to_nat j) Hj ltac:(lia)) as H.
  destruct HC as [[Hi [Hn _]]|[[_ [Hi _]]|[Hi Hn]]]; [congruence | lia | congruence].
Qed.

Section WordsKept.

Variable limit : Z.
Hypothesis limit_pos : 0 < limit.

Lemma wordsWithin_member (l : list jsstring) (text : jsstring) :
  linesWords l = words text -> wordsWithin limit text ->
  Forall (wordsWithin limit) l.
Proof.
  unfold wordsWithin, linesWords. intros E H. rewrite <- E in H.
  apply Forall_concat in H. rewrite Forall_map in H. exact H.
Qed.

Section Callee.

Variable self : jsstring -> Z -> list jsstring -> option (list jsstring).
Hypothesis self_words : forall t acc acc',
  tidy t -> onlySpaces t -> wordsWithin limit t ->
  self t limit acc = Some acc' -> linesWords acc' = linesWords acc ++ words t.

Lemma words_reflow (atoms : list jsstring) :
  forall cur acc cur' acc',
    Forall tidy atoms -> Forall onlySpaces atoms -> Forall (wordsWithin limit) atoms ->
    reflow self atoms limit cur acc = Some (cur', acc') ->
    linesWords acc' ++ words cur' = linesWords acc ++ words cur ++ linesWords atoms.
Proof.
  induction atoms as [|atom atoms IH]; intros cur acc cur' acc' Ht Hs Hw H.
  - simpl in H. injection H as <- <-. rewrite app_nil_r. reflexivity.
  - inversion Ht as [|? ? Ht1 Ht']. inversion Hs as [|? ? Hs1 Hs'].
    inversion Hw as [|? ? Hw1 Hw']. subst. cbn [reflow] in H.
    change (linesWords (atom :: atoms)) with (words atom ++ linesWords atoms).
    destruct (truthy cur && _) eqn:Ejoin.
    + apply andb_true_iff in Ejoin. destruct Ejoin as [Ecur _]. rewrite Ecur in H.
      apply IH in H; [| assumption ..].
      rewrite H. change (js " " ++ atom) with (0x20 :: atom).
      rewrite words_join, <- !app_assoc. reflexivity.
    + cbv zeta in H. rewrite (pending_push cur acc) in H.
      assert (Hacc1 : linesWords (acc ++ (if truthy cur then [cur] else []))
                      = linesWords acc ++ words cur).
      { rewrite linesWords_app, pending_words. reflexivity. }
      destruct (JSNum.ltb _ _).
      * destruct (self atom limit _) as [acc2|] eqn:E; cbn [bind] in H; [|discriminate].
        apply self_words in E; [| assumption ..].
        apply IH in H; [| assumption ..].
        rewrite H, E, Hacc1. change (words []) with (@nil (list Z)).
        cbn [app]. rewrite <- !app_assoc. reflexivity.
      * apply IH in H; [| assumption ..].
        rewrite H, Hacc1, <- !app_assoc. reflexivity.
Qed.

Lemma words_trySplitAndReflow (g : regex) (text : jsstring)
    (acc : list jsstring) (done : bool) (acc' : list jsstring) :
  onlySpaces text -> wordsWithin limit text ->
  trySplitAndReflow self text (Cat (Group g) beforeSpaceOrEnd) limit acc
  = Some (done, acc') ->
  linesWords acc' = linesWords acc ++ (if done then words text else []).
Proof.
  intros Hs Hw H. unfold trySplitAndReflow in H.
  destruct (length (split false _ text) <? 3)%nat;
    [injection H as <- <-; rewrite app_nil_r; reflexivity|].
  destruct (length (atomsOf (split false _ text)) <? 2)%nat;
    [injection H as <- <-; rewrite app_nil_r; reflexivity|].
  destruct (reflow self _ limit [] acc) as [[cur acc1]|] eqn:E; cbn [bind] in H;
    [|discriminate].
  injection H as <- <-.
  pose proof (atoms_words g text) as Hat.
  apply words_reflow in E.
  - rewrite pending_push, linesWords_app, pending_words, E, Hat. reflexivity.
  - apply atomsOf_tidy.
  - apply units_atoms, units_parts; [|exact Hs].
    apply wholeCapture_group_ahead. reflexivity.
  - apply (wordsWithin_member _ text Hat Hw).
Qed.

Lemma words_processSegmentF (text : jsstring) (acc acc' : list jsstring) :
  tidy text -> onlySpaces text -> wordsWithin limit text ->
  processSegmentF self text limit acc = Some acc' ->
  linesWords acc' = linesWords acc ++ words text.
Proof.
  intros Ht Hs Hw H. unfold processSegmentF in H.
  destruct (JSNum.leb (JSNum.of_int (len text)) (maxLen limit)) eqn:Eterm.
  { injection H as <-. rewrite linesWords_app. unfold linesWords at 2. simpl.
    rewrite app_nil_r. reflexivity. }
  unfold majorRe in H.
  destruct (trySplitAndReflow self text _ limit acc) as [[done1 acc1]|] eqn:E1;
    cbn [bind] in H; [|discriminate].
  apply words_trySplitAndReflow in E1; [| assumption ..].
  destruct done1; [injection H as <-; exact E1|]. rewrite app_nil_r in E1.
  unfold minorRe in H.
  destruct (trySplitAndReflow self text _ limit acc1) as [[done2 acc2]|] eqn:E2;
    cbn [bind] in H; [|discriminate].
  apply words_trySplitAndReflow in E2; [| assumption ..].
  destruct done2; [injection H as <-; congruence|]. rewrite app_nil_r in E2.
  cbv zeta in H.
  pose proof (not_terminal_nonempty _ _ limit_pos Eterm) as Hne.
  assert (Hlong : limit < len text).
  { apply Z.leb_gt in Eterm.
    pose proof (maxLen_bounds limit limit_pos) as [Hm _].
    unfold JSNum.of_int in *. assert (0 < JSNum.unit) by reflexivity. nia. }
  assert (Hk : 0 <= findBestSplitIndex text limit /\
               nth_error text (Z.to_nat (findBestSplitIndex text limit)) = Some 0x20).
  { apply tidy_iff in Ht. destruct Ht as [Hclean _].
    destruct (word_space limit text [] Hw (or_intror Hclean) ltac:(simpl; lia))
      as [j [c [Hj [Hn Hc]]]].
    assert (c = 0x20).
    { unfold onlySpaces in Hs. rewrite Forall_forall in Hs.
      apply (Hs c (nth_error_In _ _ Hn) Hc). }
    subst c.
    assert (Hsp : spaceAt text (Z.of_nat j)).
    { split; [lia|]. rewrite Nat2Z.id. exact Hn. }
    pose proof (findBestSplitIndex_finds text limit _ Hsp ltac:(simpl in Hj; lia)) as Hfound.
    destruct (findBestSplitIndex_spec text limit limit_pos Hne) as [E|[H0 [H1 _]]];
      [contradiction | split; assumption]. }
  destruct Hk as [Hk0 Hkn].
  set (k := findBestSplitIndex text limit) in *.
  replace (k =? -1) with false in H by (symmetry; apply Z.eqb_neq; lia).
  rewrite substring_prefix, substring_suffix in H by exact Hk0.
  set (head := trim (firstn (Z.to_nat k) text)) in *.
  set (tail := trim (skipn (Z.to_nat k) text)) in *.
  assert (Hcut : words text = words head ++ words tail).
  { unfold head, tail. rewrite !words_trim.
    rewrite <- (firstn_skipn (Z.to_nat k) text) at 1. apply words_cut.
    destruct (skipn_nth text _ _ Hkn) as [r ->]. reflexivity. }
  rewrite (pending_push head acc2) in H.
  assert (Hacc3 : linesWords (acc2 ++ (if truthy head then [head] else []))
                  = linesWords acc ++ words head).
  { rewrite linesWords_app, pending_words. congruence. }
  destruct (truthy tail) eqn:Et.
  - apply self_words in H.
    + rewrite H, Hacc3, Hcut, app_assoc. reflexivity.
    + apply trim_tidy. exact Et.
    + unfold onlySpaces in *. eapply incl_Forall; [|exact Hs].
      intros c Hc. apply incl_trim, units_skipn in Hc. exact Hc.
    + unfold wordsWithin in *. rewrite Hcut in Hw. apply Forall_app in Hw. apply Hw.
  - injection H as <-. apply truthy_false in Et.
    rewrite Hacc3, Hcut, Et. change (words []) with (@nil (list Z)).
    rewrite app_nil_r. reflexivity.
Qed.

End Callee.

Lemma words_processSegment (fuel : nat) :
  forall text acc acc',
    tidy text -> onlySpaces text -> wordsWithin limit text ->
    processSegment fuel text limit acc = Some acc' ->
    linesWords acc' = linesWords acc ++ words text.
Proof.
  induction fuel as [|fuel IH]; intros text acc acc' Ht Hs Hw H; [discriminate|].
  cbn [processSegment] in H.
  eapply words_processSegmentF; [exact IH | exact Ht | exact Hs | exact Hw | exact H].
Qed.

Lemma words_eachParagraph (paragraphs : list jsstring) :
  forall lines lines',
    Forall onlySpaces paragraphs -> Forall (wordsWithin limit) paragraphs ->
    eachParagraph paragraphs limit lines = Some lines' ->
    linesWords lines' = linesWords lines ++ linesWords paragraphs.
Proof.
  induction paragraphs as [|p ps IH]; intros lines lines' Hs Hw H.
  - injection H as <-. rewrite app_nil_r. reflexivity.
  - inversion Hs as [|? ? Hs1 Hs']. inversion Hw as [|? ? Hw1 Hw']. subst.
    cbn [eachParagraph] in H.
    change (linesWords (p :: ps)) with (words p ++ linesWords ps).
    destruct (truthy (trim p)) eqn:Et; cbn [negb] in H.
    + destruct (processSegment _ (trim p) limit lines) as [lines1|] eqn:E;
        cbn [bind] in H; [|discriminate].
      apply words_processSegment in E.
      * apply IH in H; [| assumption ..].
        rewrite H, E, words_trim, app_assoc. reflexivity.
      * apply trim_tidy. exact Et.
      * unfold onlySpaces in *. eapply incl_Forall; [apply incl_trim | exact Hs1].
      * unfold wordsWithin in *. rewrite words_trim. exact Hw1.
    + apply IH in H; [| assumption ..].
      apply truthy_false in Et. rewrite <- (words_trim p), Et. exact H.
Qed.

End WordsKept.

(** X12: no word is broken.  For a positive limit and a text without
    U+0000 whose white space is spaces and line feeds and whose words are
    at most [limit] long, the words of the returned lines, in order, are
    exactly the words of the text: lines begin and end between words. *)
Theorem splitLyrics_words (raw : jsstring) (limit : Z) :
  0 < limit -> ~ In 0 raw -> plainSpaced raw -> wordsWithin limit raw ->
  exists lines,
    splitLyrics raw limit = Some lines /\
    linesWords lines = words raw.
Proof.
  intros Hl H0 Hplain Hw.
  destruct (splitLyrics_lines raw limit Hl) as [out [Hrun _]].
  exists (map (map unmask) out). split; [exact Hrun|].
  rewrite splitLyrics_unfold in Hrun.
  destruct (eachParagraph (split false lineBreakRe (protect raw)) limit []) as [out'|] eqn:E;
    [|discriminate].
  injection Hrun as Hout. rewrite (map_ext _ _ restore_map) in Hout.
  rewrite <- Hout. clear Hout out.
  assert (Hraw : map unmask (protect raw) = raw)
    by (apply masks_unmask; [apply protect_masks | exact H0]).
  pose proof (paragraphs_words (2 * length (protect raw) + 1) None [] (protect raw)) as Hpar.
  rewrite <- split_lineBreak_loop in Hpar. cbn [rev app] in Hpar.
  assert (Hwp : wordsWithin limit (protect raw)).
  { unfold wordsWithin in *. rewrite <- Hraw, words_map_unmask in Hw.
    rewrite Forall_map in Hw. eapply Forall_impl; [|exact Hw].
    intros w Hlen. cbv beta in Hlen. rewrite len_map_unmask in Hlen. exact Hlen. }
  apply (words_eachParagraph limit Hl) in E.
  - rewrite linesWords_map_unmask, E. cbn [app linesWords map concat].
    fold (linesWords (split false lineBreakRe (protect raw))).
    rewrite Hpar, <- words_map_unmask, Hraw. reflexivity.
  - apply Forall_forall. intros p Hp. apply Forall_forall. intros c Hc Hws.
    rewrite split_lineBreak_loop in Hp.
    destruct (paragraphs_units (2 * length (protect raw) + 1) None [] (protect raw) p c
                ltac:(lia) ltac:(intros []) Hp Hc) as [Hfeed Hin].
    cbn [rev app] in Hin.
    destruct (masks_in_period _ _ _ (protect_masks raw) Hin) as [Hr|[-> _]];
      [|discriminate].
    unfold plainSpaced in Hplain. rewrite Forall_forall in Hplain.
    destruct (Hplain c Hr Hws) as [E20|E10]; [exact E20 | contradiction].
  - apply (wordsWithin_member limit _ (protect raw) Hpar Hwp).
Qed.

Lemma splitLyrics_words_witness :
  let raw := js "Mr. Jones went home, and then he slept. The end" in
  0 < 12 /\ ~ In 0 raw /\ plainSpaced raw /\ wordsWithin 12 raw /\
  exists lines, splitLyrics raw 12 = Some lines /\ linesWords lines = words raw.
Proof.
  intros raw.
  assert (H0 : ~ In 0 raw) by (vm_compute; lia).
  assert (H1 : plainSpaced raw).
  { repeat (constructor;
            [intros Hws; first [discriminate Hws | left; reflexivity]|]).
    constructor. }
  assert (H2 : wordsWithin 12 raw).
  { unfold wordsWithin. vm_compute words.
    repeat (constructor; [unfold len; simpl; lia|]). constructor. }
  split; [reflexivity|]. split; [exact H0|]. split; [exact H1|]. split; [exact H2|].
  apply (splitLyrics_words raw 12 eq_refl H0 H1 H2).
Defined.

(** * The editor around the splitter *)

(** ** The highlight of the active line *)

Lemma startsWith_firstn (p : jsstring) :
  forall s, startsWith p s = true ->
    firstn (length p) s = p /\ (length p <= length s)%nat.
Proof.
  induction p as [|x p IH]; intros s H; [split; [reflexivity | simpl; lia]|].
  destruct s as [|y s]; [discriminate|]. simpl in H.
  apply andb_true_iff in H. destruct H as [Hxy Hp].
  apply Z.eqb_eq in Hxy. subst y.
  destruct (IH s Hp) as [E L]. simpl. rewrite E. split; [reflexivity | lia].
Qed.

Lemma indexOfString_from_spec (p s : jsstring) :
  forall i,
    let r := Editor.indexOfString_from p s i in
    r = -1 \/
    (i <= r /\
     firstn (length p) (skipn (Z.to_nat (r - i)) s) = p /\
     r - i + len p <= len s).
Proof.
  unfold len. induction s as [|c s IH]; intros i; cbn [Editor.indexOfString_from].
  - destruct (startsWith p []) eqn:E; [right | left; reflexivity].
    destruct (startsWith_firstn p [] E) as [E1 E2].
    replace (i - i) with 0 by lia. simpl skipn. split; [lia|]. split; [exact E1 | lia].
  - destruct (startsWith p (c :: s)) eqn:E.
    + right. destruct (startsWith_firstn p _ E) as [E1 E2].
      replace (i - i) with 0 by lia. simpl skipn. split; [lia|]. split; [exact E1 | lia].
    + destruct (IH (i + 1)) as [H|[H1 [H2 H3]]]; [left; exact H | right].
      split; [lia|].
      replace (Z.to_nat (Editor.indexOfString_from p s (i + 1) - i))
        with (S (Z.to_nat (Editor.indexOfString_from p s (i + 1) - (i + 1)))) by lia.
      split; [exact H2 | simpl length; lia].
Qed.

(** An index that [indexOf] returns is that of an occurrence. *)
Lemma indexOfString_spec (s p : jsstring) (from : Z) :
  let r := Editor.indexOfString s p from in
  r = -1 \/
  (0 <= r /\ r + len p <= len s /\
   firstn (length p) (skipn (Z.to_nat r) s) = p).
Proof.
  unfold Editor.indexOfString. cbv zeta.
  set (start := Z.min (Z.max from 0) (len s)).
  assert (Hs : 0 <= start <= len s) by (unfold start, len; lia).
  destruct (indexOfString_from_spec p (skipn (Z.to_nat start) s) start)
    as [H|[H1 [H2 H3]]]; [left; exact H | right].
  set (r := Editor.indexOfString_from p (skipn (Z.to_nat start) s) start) in *.
  rewrite skipn_skipn in H2.
  replace (Z.to_nat (r - start) + Z.to_nat start)%nat with (Z.to_nat r) in H2 by lia.
  unfold len in *. rewrite length_skipn in H3.
  split; [lia|]. split; [lia | exact H2].
Qed.

Lemma substring_mid (s : jsstring) (a b : Z) :
  0 <= a <= b -> b <= len s ->
  substring s a (Some b) = firstn (Z.to_nat (b - a)) (skipn (Z.to_nat a) s).
Proof.
  intros Hab Hb. unfold substring. cbv zeta.
  replace (Z.min (Z.max a 0) (len s)) with a by lia.
  replace (Z.min (Z.max b 0) (len s)) with b by lia.
  replace (Z.min a b) with a by lia.
  replace (Z.max a b) with b by lia.
  reflexivity.
Qed.

(** What the loop of [highlightSegments] finds: nothing, or an occurrence
    of the active line. *)
Lemma highlightLoop_spec (raw : jsstring) (rest : list jsstring) :
  forall i active cursor,
    let r := Editor.highlightLoop raw rest i active cursor in
    r = (-1, -1) \/
    exists line,
      i <= active /\
      nth_error rest (Z.to_nat (active - i)) = Some line /\
      line <> [] /\
      0 <= fst r /\ snd r = fst r + len line /\ snd r <= len raw /\
      firstn (length line) (skipn (Z.to_nat (fst r)) raw) = line.
Proof.
  induction rest as [|line rest IH]; intros i active cursor; cbv zeta;
    cbn [Editor.highlightLoop]; [left; reflexivity|].
  destruct (active <? i) eqn:Ei; [left; reflexivity|].
  apply Z.ltb_ge in Ei.
  assert (Hnext : forall cursor',
            Editor.highlightLoop raw rest (i + 1) active cursor' = (-1, -1) \/
            exists line0,
              i <= active /\
              nth_error (line :: rest) (Z.to_nat (active - i)) = Some line0 /\
              line0 <> [] /\
              0 <= fst (Editor.highlightLoop raw rest (i + 1) active cursor') /\
              snd (Editor.highlightLoop raw rest (i + 1) active cursor')
              = fst (Editor.highlightLoop raw rest (i + 1) active cursor') + len line0 /\
              snd (Editor.highlightLoop raw rest (i + 1) active cursor') <= len raw /\
              firstn (length line0)
                (skipn (Z.to_nat (fst (Editor.highlightLoop raw rest (i + 1) active cursor')))
                   raw) = line0).
  { intros cursor'. destruct (IH (i + 1) active cursor') as [H|[line0 [H1 [H2 H3]]]];
      [left; exact H | right].
    exists line0. split; [lia|]. split; [|exact H3].
    replace (Z.to_nat (active - i)) with (S (Z.to_nat (active - (i + 1)))) by lia.
    exact H2. }
  destruct (truthy line) eqn:Et; cbn [negb]; [|apply Hnext].
  pose proof (indexOfString_spec raw line cursor) as Hidx. cbv zeta in Hidx.
  destruct (Editor.indexOfString raw line cursor =? -1) eqn:E1; cbn [negb];
    [apply Hnext|].
  apply Z.eqb_neq in E1. destruct Hidx as [Hidx|[H0 [Hfit Hocc]]]; [contradiction|].
  destruct (i =? active) eqn:Ea; [|apply Hnext].
  apply Z.eqb_eq in Ea. subst active. right. exists line. cbn [fst snd].
  split; [lia|]. split; [replace (i - i) with 0 by lia; reflexivity|].
  split; [destruct line; [discriminate Et | discriminate]|].
  split; [exact H0|]. split; [reflexivity|]. split; [exact Hfit | exact Hocc].
Qed.

(** X13: the highlight never changes the text shown behind the raw
    lyrics: whatever the lines and the active line, the texts of the
    segments of [highlightSegments] concatenate to the raw lyrics. *)
Theorem highlightSegments_text (e : Editor.editor) :
  concat (map Editor.text (Editor.highlightSegments e))
  = Editor.rawLyrics (Editor.localSong e).
Proof.
  unfold Editor.highlightSegments. cbv zeta.
  set (raw := Editor.rawLyrics (Editor.localSong e)).
  pose proof (highlightLoop_spec raw (Editor.lines (Editor.localSong e)) 0
                (Editor.activeLineIdx e) 0) as H. cbv zeta in H.
  destruct (Editor.highlightLoop raw _ 0 _ 0) as [start end_].
  destruct H as [H|[line [_ [_ [_ [H0 [He [Hfit _]]]]]]]].
  - injection H as -> ->. simpl. apply app_nil_r.
  - cbn [fst snd] in *.
    assert (Hl : 0 <= len line) by (unfold len; lia).
    replace (start =? -1) with false by (symmetry; apply Z.eqb_neq; lia).
    replace (end_ =? -1) with false by (symmetry; apply Z.eqb_neq; lia).
    cbn [negb andb map concat Editor.text].
    rewrite substring_prefix, substring_suffix, substring_mid by lia.
    rewrite app_nil_r.
    replace (Z.to_nat end_) with (Z.to_nat (end_ - start) + Z.to_nat start)%nat by lia.
    rewrite <- skipn_skipn, firstn_skipn. apply firstn_skipn.
Qed.

(** X14: a highlighted segment is the active line: its text is
    [lines[activeLineIdx]], which is not empty, and the segment sits
    between two segments that are not highlighted. *)
Theorem highlightSegments_active (e : Editor.editor) (seg : Editor.segment) :
  In seg (Editor.highlightSegments e) -> Editor.highlight seg = true ->
  0 <= Editor.activeLineIdx e /\
  nth_error (Editor.lines (Editor.localSong e)) (Z.to_nat (Editor.activeLineIdx e))
  = Some (Editor.text seg) /\
  Editor.text seg <> [] /\
  exists before after,
    Editor.highlightSegments e
    = [Editor.Segment before false; seg; Editor.Segment after false].
Proof.
  unfold Editor.highlightSegments. cbv zeta.
  set (raw := Editor.rawLyrics (Editor.localSong e)).
  pose proof (highlightLoop_spec raw (Editor.lines (Editor.localSong e)) 0
                (Editor.activeLineIdx e) 0) as H. cbv zeta in H.
  destruct (Editor.highlightLoop raw _ 0 _ 0) as [start end_].
  destruct H as [H|[line [Ha [Hn [Hne [H0 [He [Hfit Hocc]]]]]]]].
  - injection H as -> ->. simpl. intros [<-|[]] Hh. discriminate Hh.
  - cbn [fst snd] in *.
    assert (Hl : 0 <= len line) by (unfold len; lia).
    replace (start =? -1) with false by (symmetry; apply Z.eqb_neq; lia).
    replace (end_ =? -1) with false by (symmetry; apply Z.eqb_neq; lia).
    cbn [negb andb].
    intros [<-|[<-|[<-|[]]]] Hh; try discriminate Hh.
    cbn [Editor.text].
    assert (Etext : substring raw start (Some end_) = line).
    { rewrite substring_mid by lia.
      replace (Z.to_nat (end_ - start)) with (length line) by (unfold len in He; lia).
      exact Hocc. }
    rewrite Etext. replace (Editor.activeLineIdx e - 0) with (Editor.activeLineIdx e) in Hn by lia.
    split; [lia|]. split; [exact Hn|]. split; [exact Hne|].
    eexists. eexists. reflexivity.
Qed.

Lemma highlightSegments_active_witness :
  let e := Editor.EditorState
             (Editor.Song (js "Hello world. Good bye.") [js "Hello world."; js "Good bye."] 8)
             1 in
  let seg := Editor.Segment (js "Good bye.") true in
  In seg (Editor.highlightSegments e) /\ Editor.highlight seg = true /\
  nth_error (Editor.lines (Editor.localSong e)) (Z.to_nat (Editor.activeLineIdx e))
  = Some (js "Good bye.").
Proof.
  intros e seg.
  assert (H1 : In seg (Editor.highlightSegments e)) by (vm_compute; auto).
  assert (H2 : Editor.highlight seg = true) by reflexivity.
  split; [exact H1|]. split; [exact H2|].
  destruct (highlightSegments_active e seg H1 H2) as [_ [H _]]. exact H.
Defined.

(** ** Auto Split *)

Lemma lineOK_map_unmask (limit : Z) (line : jsstring) :
  lineOK limit line -> lineOK limit (map unmask line).
Proof.
  intros [Ht Hfit]. split; [apply tidy_map_unmask, Ht|].
  unfold withinMaxLen. rewrite len_map_unmask. exact Hfit.
Qed.

Lemma handleAutoSplit_returns (confirm : bool) (e : Editor.editor) :
  0 < Editor.targetLen (Editor.localSong e) ->
  Forall tidy (Editor.lines (Editor.localSong e)) ->
  exists e',
    Editor.handleAutoSplit confirm e = Some e' /\
    Editor.targetLen (Editor.localSong e') = Editor.targetLen (Editor.localSong e) /\
    Forall tidy (Editor.lines (Editor.localSong e')).
Proof.
  intros Hl Ht. unfold Editor.handleAutoSplit.
  destruct ((0 <? Z.of_nat _) && negb confirm); [exists e; auto|].
  destruct (splitLyrics_spec (Editor.rawLyrics (Editor.localSong e)) _ Hl)
    as [out [Hrun [_ Hok]]].
  rewrite Hrun. eexists. split; [reflexivity|]. cbn.
  split; [reflexivity|].
  apply Forall_map. eapply Forall_impl; [|exact Hok].
  intros l [H _]. apply tidy_map_unmask, H.
Qed.

Lemma act_invariant (a : Editor.action) (e : Editor.editor) :
  5 <= Editor.targetLen (Editor.localSong e) ->
  Forall tidy (Editor.lines (Editor.localSong e)) ->
  exists e',
    Editor.act a e = Some e' /\
    5 <= Editor.targetLen (Editor.localSong e') /\
    Forall tidy (Editor.lines (Editor.localSong e')).
Proof.
  intros Hl Ht. destruct a as [value| | |confirm]; cbn [Editor.act].
  - eexists. split; [reflexivity|]. cbn. auto.
  - eexists. split; [reflexivity|]. cbn. split; [lia | exact Ht].
  - eexists. split; [reflexivity|]. cbn. split; [lia | exact Ht].
  - destruct (handleAutoSplit_returns confirm e ltac:(lia) Ht) as [e' [H1 [H2 H3]]].
    exists e'. split; [exact H1|]. split; [lia | exact H3].
Qed.

(** X15: in the editor Auto Split always returns.  From a new song,
    whatever lyrics are typed and however often the two length buttons and
    Auto Split are pressed, every step returns, the target length stays at
    5 or more (the [-] button stops there), and every line is not empty and
    equals its own trim. *)
Theorem editor_auto_split_returns (l : list Editor.action) :
  exists e,
    Editor.acts l Editor.createNewSong = Some e /\
    5 <= Editor.targetLen (Editor.localSong e) /\
    Forall tidy (Editor.lines (Editor.localSong e)).
Proof.
  assert (H : forall e0,
            5 <= Editor.targetLen (Editor.localSong e0) ->
            Forall tidy (Editor.lines (Editor.localSong e0)) ->
            exists e,
              Editor.acts l e0 = Some e /\
              5 <= Editor.targetLen (Editor.localSong e) /\
              Forall tidy (Editor.lines (Editor.localSong e))).
  { induction l as [|a l IH]; intros e0 Hl Ht.
    - exists e0. split; [reflexivity | split; assumption].
    - destruct (act_invariant a e0 Hl Ht) as [e1 [H1 [H2 H3]]].
      cbn [Editor.acts]. rewrite H1. apply IH; assumption. }
  apply H; [cbn; lia | constructor].
Qed.
